(** * A shallow embedding of the p3Heap allocator

    The allocator of the repository (functions [best_block], [coalesce],
    [balloc], [bfree], [init_heap] and [disp_heap]) works on one
    memory-mapped region through a global [heap_start] pointer.  The
    embedding below keeps the code's view of the data:

    - an [int] is a [Z] kept in the 32-bit two's complement range by [wrap];
      bit operations are [Z.land], [Z.lor] and [Z.lnot];
    - an address is a [Z] (byte address), [NULL] is [0];
    - the memory is a map from byte addresses to the [int] stored there,
      together with the bounds of the mapped region; an access outside the
      region, or one that is not word aligned, is a fault ([None]);
    - the globals [heap_start], [alloc_size] and the static [allocated_once]
      are fields of the state, threaded through every function.

    Signed overflow, which C leaves undefined, wraps around in the model; the
    theorems on [balloc] are stated for requests whose rounding does not
    overflow.  The allocator does not write the payload of an allocated
    block, the caller does: such a write is a [store] by the caller.  *)

From Stdlib Require Import ZArith List Bool Lia.
Import ListNotations.
Local Open Scope Z_scope.

(** ** Machine integers *)

Module Int.

Definition min_signed : Z := - 2 ^ 31.
Definition max_signed : Z := 2 ^ 31 - 1.

(** Two's complement wrap-around of a 32-bit [int]. *)
Definition wrap (x : Z) : Z := (x + 2 ^ 31) mod 2 ^ 32 - 2 ^ 31.

Definition in_range (x : Z) : Prop := min_signed <= x <= max_signed.

Definition in_rangeb (x : Z) : bool :=
  (min_signed <=? x) && (x <=? max_signed).

Definition add (a b : Z) : Z := wrap (a + b).
Definition sub (a b : Z) : Z := wrap (a - b).

End Int.

(** ** The error monad of faulting memory accesses *)

Definition bind {A B : Type} (m : option A) (f : A -> option B) : option B :=
  match m with
  | Some a => f a
  | None => None
  end.

Notation "x <- m ;; k" := (bind m (fun x => k))
  (at level 61, m at next level, right associativity).
Notation "' p <- m ;; k" := (bind m (fun x => let 'p := x in k))
  (at level 61, p pattern, m at next level, right associativity).

(** ** State: the mapped region and the allocator's globals *)

Record state : Type := mkState {
  mem : Z -> Z;            (* the int stored at each byte address *)
  map_lo : Z;              (* first mapped byte *)
  map_hi : Z;              (* one past the last mapped byte *)
  heap_start : Z;          (* blockHeader *heap_start *)
  alloc_size : Z;          (* int alloc_size *)
  allocated_once : Z       (* static int allocated_once of init_heap *)
}.

Definition NULL : Z := 0.

(** [sizeof(blockHeader)]: the structure holds one [int]. *)
Definition headerSize : Z := 4.

(** Nothing is mapped before [init_heap] runs. *)
Definition initial_state : state :=
  mkState (fun _ => 0) 0 0 NULL 0 0.

(** An [int] can be read or written at [a] when its four bytes are mapped
    and [a] is a multiple of 4.  The memory holds one [int] per address and
    is used at multiples of 4 only: an access through a [blockHeader *] that
    is not aligned, which is undefined in C, counts as a fault here whatever
    the machine would do with it. *)
Definition valid_access (s : state) (a : Z) : bool :=
  (map_lo s <=? a) && (a + 4 <=? map_hi s) && (a mod 4 =? 0).

Definition upd (s : state) (a v : Z) : state :=
  mkState (fun x => if x =? a then v else mem s x)
          (map_lo s) (map_hi s) (heap_start s) (alloc_size s)
          (allocated_once s).

(** [p->size_status] read and written through a [blockHeader *]. *)
Definition load (s : state) (a : Z) : option Z :=
  if valid_access s a then Some (mem s a) else None.

Definition store (s : state) (a v : Z) : option state :=
  if valid_access s a then Some (upd s a v) else None.

(** The size and the two status bits packed in a header word
    ([size_status & ~3], [size_status & 1], [size_status & 2]). *)
Definition size_of (w : Z) : Z := Z.land w (Z.lnot 3).
Definition a_bit (w : Z) : Z := Z.land w 1.
Definition p_bit (w : Z) : Z := Z.land w 2.

(** ** [best_block] *)

(** The [while] loop of [best_block]; [current] strictly advances inside the
    mapped region, so the number of mapped words bounds the iterations. *)
Fixpoint best_block_loop (fuel : nat) (s : state) (size current fit : Z)
  : option Z :=
  match fuel with
  | O => None
  | S fuel' =>
      cs <- load s current ;;
      if cs =? 1 then Some fit
      else
        let blockSize := Z.land cs (Z.lnot 3) in
        if blockSize <=? 0 then Some fit
        else
          fit' <-
            (if (Z.land cs 1 =? 0) && (size <=? blockSize) then
               if fit =? NULL then Some current
               else
                 fs <- load s fit ;;
                 if blockSize <? Z.land fs (Z.lnot 3) then Some current
                 else Some fit
             else Some fit) ;;
          best_block_loop fuel' s size (current + blockSize) fit'
  end.

Definition scan_fuel (s : state) : nat :=
  S (Z.to_nat ((map_hi s - map_lo s) / 4)).

Definition best_block (s : state) (size : Z) : option Z :=
  fit <- best_block_loop (scan_fuel s) s size (heap_start s) NULL ;;
  if negb (fit =? NULL) then
    fs <- load s fit ;;
    if Z.land fs (Z.lnot 3) <? size then Some NULL else Some fit
  else Some fit.

(** ** [coalesce] *)

(** First half of [coalesce]: the check of the previous block.  It returns
    the state together with the new values of the locals [block] and
    [blockSize]. *)
Definition coalesce_prev (s : state) (block blockSize : Z)
  : option (state * Z * Z) :=
  let prevFooter := block - headerSize in
  prevBlockSize <- load s prevFooter ;;
  let prevHeader := prevFooter - prevBlockSize + headerSize in
  if heap_start s <=? prevFooter then
    pw <- load s prevHeader ;;
    if Z.land pw 1 =? 0 then
      let newBlockSize := Int.add blockSize prevBlockSize in
      sa <- store s prevHeader newBlockSize ;;
      let newFooter := block + blockSize - headerSize in
      sb <- store sa newFooter newBlockSize ;;
      Some (sb, prevHeader, newBlockSize)
    else Some (s, block, blockSize)
  else Some (s, block, blockSize).

(** Second half of [coalesce]: the check of the next block. *)
Definition coalesce_next (s : state) (block blockSize : Z) : option state :=
  let nextHeader := block + blockSize in
  nw <- load s nextHeader ;;
  if negb (nw =? 1) && (Z.land nw 1 =? 0) then
    let nextBlockSize := Z.land nw (Z.lnot 3) in
    let newBlockSize := Int.add blockSize nextBlockSize in
    sa <- store s block newBlockSize ;;
    let newFooter := nextHeader + nextBlockSize - headerSize in
    store sa newFooter newBlockSize
  else Some s.

Definition coalesce (s : state) (block : Z) : option state :=
  bw <- load s block ;;
  let blockSize := Z.land bw (Z.lnot 3) in
  '(s1, block1, blockSize1) <- coalesce_prev s block blockSize ;;
  coalesce_next s1 block1 blockSize1.

(** ** [balloc] *)

Definition rounded_size (size : Z) : Z :=
  Z.land (Int.add (Int.add size headerSize) 7) (Z.lnot 7).

Definition balloc (s : state) (size : Z) : option (Z * state) :=
  if size <? 1 then Some (NULL, s)
  else
    let rounded := rounded_size size in
    fitBlock <- best_block s rounded ;;
    if fitBlock =? NULL then Some (NULL, s)
    else
      fw <- load s fitBlock ;;
      let remaining_bits := Int.sub (Z.land fw (Z.lnot 3)) rounded in
      s1 <-
        (if headerSize + 8 <=? remaining_bits then
           let newBlock := fitBlock + rounded in
           sa <- store s newBlock remaining_bits ;;
           let footer := newBlock + remaining_bits - headerSize in
           sb <- store sa footer remaining_bits ;;
           fw' <- load sb fitBlock ;;
           store sb fitBlock (Z.lor (Z.lor rounded 1) (Z.land fw' 2))
         else
           fw' <- load s fitBlock ;;
           store s fitBlock (Z.lor fw' 1)) ;;
      fw1 <- load s1 fitBlock ;;
      let nextBlock := fitBlock + Z.land fw1 (Z.lnot 3) in
      nw <- load s1 nextBlock ;;
      s2 <- store s1 nextBlock (Z.lor nw 2) ;;
      Some (fitBlock + headerSize, s2).

(** ** [bfree] *)

Definition bfree (s : state) (ptr : Z) : option (Z * state) :=
  if ptr =? NULL then Some (-1, s)
  else if negb (Z.rem (Int.wrap ptr) 8 =? 0) then Some (-1, s)
  else
    let b_to_free := ptr - headerSize in
    bw <- load s b_to_free ;;
    if Z.land bw 1 =? 0 then Some (-1, s)
    else if (b_to_free <? heap_start s) || (bw =? 1) then Some (-1, s)
    else
      let blockSize := Z.land bw (Z.lnot 3) in
      s1 <- store s b_to_free (Z.land bw (Z.lnot 3)) ;;
      let footer := b_to_free + blockSize - headerSize in
      s2 <- store s1 footer blockSize ;;
      s3 <- coalesce s2 b_to_free ;;
      Some (0, s3).

(** ** [init_heap] *)

(** What the operating system answers to [getpagesize], [open] and [mmap]. *)
Record os_env : Type := mkEnv {
  pagesize : Z;
  open_fd : Z;
  mmap_ptr : Z
}.

Definition MAP_FAILED : Z := -1.

Definition set_globals (s : state) (hs asz once : Z) : state :=
  mkState (mem s) (map_lo s) (map_hi s) hs asz once.

(** A fresh private mapping of [/dev/zero]: [len] zero bytes at [p]. *)
Definition map_region (s : state) (p len : Z) : state :=
  mkState (fun _ => 0) p (p + len) (heap_start s) (alloc_size s)
          (allocated_once s).

Definition init_heap (e : os_env) (s : state) (sizeOfRegion : Z)
  : option (Z * state) :=
  if negb (allocated_once s =? 0) then Some (-1, s)
  else if sizeOfRegion <=? 0 then Some (-1, s)
  else
    let padsize := Z.rem sizeOfRegion (pagesize e) in
    let padsize := Z.rem (Int.sub (pagesize e) padsize) (pagesize e) in
    let s := set_globals s (heap_start s) (Int.add sizeOfRegion padsize)
                         (allocated_once s) in
    if open_fd e =? -1 then Some (-1, s)
    else if mmap_ptr e =? MAP_FAILED then
      Some (-1, set_globals s (heap_start s) (alloc_size s) 0)
    else
      let s := map_region s (mmap_ptr e) (alloc_size s) in
      let s := set_globals s (heap_start s) (alloc_size s) 1 in
      let s := set_globals s (heap_start s) (Int.sub (alloc_size s) 8)
                           (allocated_once s) in
      let s := set_globals s (mmap_ptr e + 4) (alloc_size s)
                           (allocated_once s) in
      let end_mark := heap_start s + alloc_size s in
      s <- store s end_mark 1 ;;
      s <- store s (heap_start s) (alloc_size s) ;;
      hw <- load s (heap_start s) ;;
      s <- store s (heap_start s) (Int.add hw 2) ;;
      let footer := heap_start s + alloc_size s - 4 in
      s <- store s footer (alloc_size s) ;;
      Some (0, s).

(** ** [disp_heap] *)

(** One line of the block list that [disp_heap] prints. *)
Record descriptor : Type := mkDesc {
  d_no : Z;
  d_used : bool;
  d_prev_used : bool;
  d_begin : Z;
  d_end : Z;
  d_size : Z
}.

(** Result of running a loop with a step budget. *)
Inductive run (A : Type) : Type :=
| Done (a : A)
| Fault
| OutOfFuel.
Arguments Done {A} a.
Arguments Fault {A}.
Arguments OutOfFuel {A}.

(** The [while] loop of [disp_heap]; it yields the printed lines together
    with the totals [used_size] and [free_size]. *)
Fixpoint disp_heap_loop (fuel : nat) (s : state) (current counter : Z)
    (used_size free_size : Z) (acc : list descriptor)
  : run (list descriptor * Z * Z) :=
  match fuel with
  | O => OutOfFuel
  | S fuel' =>
      match load s current with
      | None => Fault
      | Some w =>
          if w =? 1 then Done (rev acc, used_size, free_size)
          else
            let t_size := w in
            let is_used := negb (Z.land t_size 1 =? 0) in
            let t_size := if is_used then Int.sub t_size 1 else t_size in
            let p_used := negb (Z.land t_size 2 =? 0) in
            let t_size := if p_used then Int.sub t_size 2 else t_size in
            let used_size :=
              if is_used then Int.add used_size t_size else used_size in
            let free_size :=
              if is_used then free_size else Int.add free_size t_size in
            let d := mkDesc counter is_used p_used current
                            (current + t_size - 1) t_size in
            disp_heap_loop fuel' s (current + t_size) (Int.add counter 1)
                           used_size free_size (d :: acc)
      end
  end.

Definition disp_heap (fuel : nat) (s : state)
  : run (list descriptor * Z * Z) :=
  disp_heap_loop fuel s (heap_start s) 1 0 0 [].

(** ** The block list, as the allocator's own scan sees it *)

(** A block is recorded as the address of its header and the header word.
    [walk s a bs] holds when stepping from [a] by the sizes stored in the
    headers visits exactly the blocks [bs] and then meets a word whose size
    field is not positive (the end mark [1] has size field [0]); these are
    the two exits of the loop of [best_block]. *)
Inductive walk (s : state) : Z -> list (Z * Z) -> Prop :=
| walk_end (a w : Z) :
    load s a = Some w -> size_of w <= 0 -> walk s a []
| walk_cons (a w : Z) (bs : list (Z * Z)) :
    load s a = Some w -> 0 < size_of w ->
    walk s (a + size_of w) bs -> walk s a ((a, w) :: bs).

Fixpoint heap_blocks_loop (fuel : nat) (s : state) (a : Z)
  : option (list (Z * Z)) :=
  match fuel with
  | O => None
  | S fuel' =>
      w <- load s a ;;
      if size_of w <=? 0 then Some []
      else
        bs <- heap_blocks_loop fuel' s (a + size_of w) ;;
        Some ((a, w) :: bs)
  end.

Definition heap_blocks (s : state) : option (list (Z * Z)) :=
  heap_blocks_loop (scan_fuel s) s (heap_start s).

Definition is_free (w : Z) : bool := a_bit w =? 0.

(** A free block that can hold [size] bytes. *)
Definition fits (size : Z) (b : Z * Z) : bool :=
  is_free (snd b) && (size <=? size_of (snd b)).

(** The choice made by the loop of [best_block] over a list of blocks,
    starting from the candidate [fit]. *)
Fixpoint scan (size : Z) (bs : list (Z * Z)) (fit : option (Z * Z))
  : option (Z * Z) :=
  match bs with
  | [] => fit
  | b :: bs' =>
      scan size bs'
           (if fits size b then
              match fit with
              | None => Some b
              | Some f =>
                  if size_of (snd b) <? size_of (snd f) then Some b
                  else Some f
              end
            else fit)
  end.

(** The pointer that stands for a candidate of the scan, and what the scan
    relies on about it: it is not [NULL] and its header can be read. *)
Definition fit_ptr (fit : option (Z * Z)) : Z :=
  match fit with
  | Some f => fst f
  | None => NULL
  end.

Definition fit_inv (s : state) (fit : option (Z * Z)) : Prop :=
  match fit with
  | Some f => fst f <> NULL /\ load s (fst f) = Some (snd f)
  | None => True
  end.

(** Best-fit order on blocks: smaller size first, lower address on ties. *)
Definition better (r b : Z * Z) : Prop :=
  size_of (snd r) < size_of (snd b) \/
  (size_of (snd r) = size_of (snd b) /\ fst r <= fst b).

Definition block_ok (b : Z * Z) : bool :=
  Int.in_rangeb (snd b) && (size_of (snd b) mod 8 =? 0).

(** A well-formed heap: the scan from [heap_start] ends, every header word
    is an [int] whose size field is a multiple of 8, and [heap_start] is not
    [NULL] and sits 4 bytes after a double-word boundary. *)
Definition heap_ok (s : state) (bs : list (Z * Z)) : Prop :=
  heap_blocks s = Some bs /\
  forallb block_ok bs = true /\
  0 < heap_start s /\
  heap_start s mod 8 = 4.

(** A stretch of consecutive blocks from [a] up to, not including, [e]. *)
Inductive seg (s : state) : Z -> list (Z * Z) -> Z -> Prop :=
| seg_nil (a : Z) : seg s a [] a
| seg_cons (a w e : Z) (bs : list (Z * Z)) :
    load s a = Some w -> 0 < size_of w ->
    seg s (a + size_of w) bs e -> seg s a ((a, w) :: bs) e.

(** Sum of the sizes of a list of blocks. *)
Definition total (bs : list (Z * Z)) : Z :=
  fold_right (fun b acc => size_of (snd b) + acc) 0 bs.

(** ** States written by [balloc] and [bfree] *)

(** The region after [balloc] has split the free block at [fit] (header
    word [w]) for a request rounded to [rounded], and after it has taken the
    block whole ([nw] is the header word that follows the block). *)
Definition alloc_split (s : state) (fit w rounded : Z) : state :=
  let remaining := size_of w - rounded in
  upd (upd (upd (upd s (fit + rounded) remaining)
                (fit + size_of w - headerSize) remaining)
           fit (Z.lor (Z.lor rounded 1) (p_bit w)))
      (fit + rounded) (Z.lor remaining 2).

Definition alloc_whole (s : state) (fit w nw : Z) : state :=
  upd (upd s fit (Z.lor w 1)) (fit + size_of w) (Z.lor nw 2).

(** The state after [bfree] has cleared the status bits of the header at [b]
    and written the footer, and after [coalesce] has merged the block with
    the free block that follows it. *)
Definition freed (s : state) (b sz : Z) : state :=
  upd (upd s b sz) (b + sz - headerSize) sz.

Definition merged_next (s : state) (b sz nsz : Z) : state :=
  upd (upd s b (sz + nsz)) (b + sz + nsz - headerSize) (sz + nsz).

(** The mapped range and the globals are the same in both states. *)
Definition same_frame (s s' : state) : Prop :=
  map_lo s' = map_lo s /\ map_hi s' = map_hi s /\
  heap_start s' = heap_start s /\ alloc_size s' = alloc_size s.

(** A series of requests served one after the other; the pointers are
    returned in the order of the requests. *)
Fixpoint balloc_all (s : state) (sizes : list Z) : option (list Z * state) :=
  match sizes with
  | [] => Some ([], s)
  | size :: sizes' =>
      '(p, s1) <- balloc s size ;;
      '(ps, s2) <- balloc_all s1 sizes' ;;
      Some (p :: ps, s2)
  end.

(** ** Runs of the allocator used as test heaps *)

(** A page size of 4096 bytes, a valid descriptor for [/dev/zero] and a
    page-aligned address returned by [mmap]. *)
Definition os4096 : os_env := mkEnv 4096 3 1048576.

Definition state_of (r : option state) : state :=
  match r with
  | Some s => s
  | None => initial_state
  end.

(** [init_heap(4096)]. *)
Definition fresh_heap : state :=
  state_of ('(_, s) <- init_heap os4096 initial_state 4096 ;; Some s).

(** Free blocks of 40, 24 and 32 bytes kept apart by allocated blocks of 8
    bytes, followed by the rest of the region. *)
Definition fragmented_heap : state :=
  state_of (
    '(a1, s) <- balloc fresh_heap 36 ;;
    '(_, s) <- balloc s 4 ;;
    '(a2, s) <- balloc s 20 ;;
    '(_, s) <- balloc s 4 ;;
    '(a3, s) <- balloc s 28 ;;
    '(_, s) <- balloc s 4 ;;
    '(_, s) <- bfree s a1 ;;
    '(_, s) <- bfree s a2 ;;
    '(_, s) <- bfree s a3 ;;
    Some s).

(** Two free blocks of 24 bytes kept apart by allocated blocks of 8 bytes,
    followed by the rest of the region. *)
Definition tie_heap : state :=
  state_of (
    '(a1, s) <- balloc fresh_heap 20 ;;
    '(_, s) <- balloc s 4 ;;
    '(a2, s) <- balloc s 20 ;;
    '(_, s) <- balloc s 4 ;;
    '(_, s) <- bfree s a1 ;;
    '(_, s) <- bfree s a2 ;;
    Some s).

(** One block of 16 bytes allocated on the fresh heap, and the same heap
    after the block is freed again. *)
Definition one_block_heap : state :=
  state_of ('(_, s) <- balloc fresh_heap 8 ;; Some s).

Definition recycled_heap : state :=
  state_of ('(_, s) <- bfree one_block_heap 1048584 ;; Some s).

(** The whole region handed out as one block. *)
Definition full_heap : state :=
  state_of ('(_, s) <- balloc fresh_heap 4084 ;; Some s).

(** A block for 100 bytes allocated on the fresh heap. *)
Definition hundred_heap : state :=
  state_of ('(_, s) <- balloc fresh_heap 100 ;; Some s).

(** Two allocations, then the first block is freed. *)
Definition free_first_run : option (Z * state) :=
  '(p1, s) <- balloc fresh_heap 8 ;;
  '(p2, s) <- balloc s 8 ;;
  bfree s p1.

Definition free_first_heap : state :=
  state_of ('(_, s) <- free_first_run ;; Some s).

(** Two small blocks are allocated and freed (the second first), the merged
    16 bytes are allocated again as one block, a block of 8 bytes is
    allocated behind it and freed. *)
Definition stale_footer_run : option (Z * state) :=
  '(p1, s) <- balloc fresh_heap 4 ;;
  '(p2, s) <- balloc s 4 ;;
  '(_, s) <- bfree s p2 ;;
  '(_, s) <- bfree s p1 ;;
  '(p3, s) <- balloc s 12 ;;
  '(p4, s) <- balloc s 4 ;;
  bfree s p4.

Definition stale_footer_heap : state :=
  state_of ('(_, s) <- stale_footer_run ;; Some s).

(** The caller stores an [int] in the last word of the 12 payload bytes of
    its first block, then frees its second block. *)
Definition payload_run : option (Z * state) :=
  '(p1, s) <- balloc fresh_heap 12 ;;
  '(p2, s) <- balloc s 12 ;;
  s <- store s (p1 + 8) (-16) ;;
  bfree s p2.

Definition payload_heap : state :=
  state_of ('(_, s) <- payload_run ;; Some s).

(** Three blocks of 16 bytes are allocated and the caller stores the [int]
    16 in the last payload word of the first one. *)
Definition written_payload_heap : state :=
  state_of (
    '(p1, s) <- balloc fresh_heap 8 ;;
    '(_, s) <- balloc s 8 ;;
    '(_, s) <- balloc s 8 ;;
    store s (p1 + 8) 16).

(** [INT_MAX] bytes requested on the fresh heap. *)
Definition oversized_heap : state :=
  state_of ('(_, s) <- balloc fresh_heap 2147483647 ;; Some s).

(** The whole region handed out as one block and freed again. *)
Definition full_recycled_heap : state :=
  state_of ('(_, s) <- bfree full_heap 1048584 ;; Some s).

(** [bfree] called on the address 4 bytes past the end mark, while the whole
    region is handed out as one block. *)
Definition end_mark_freed_heap : state :=
  state_of ('(_, s) <- bfree full_heap 1052672 ;; Some s).

(** ** The report of [disp_heap] on a list of blocks *)

(** The line printed for the block with header word [w] at address [a], as
    number [n] of the list. *)
Definition line_of (n : Z) (b : Z * Z) : descriptor :=
  mkDesc n (a_bit (snd b) =? 1) (p_bit (snd b) =? 2) (fst b)
         (fst b + size_of (snd b) - 1) (size_of (snd b)).

Fixpoint lines_of (n : Z) (bs : list (Z * Z)) : list descriptor :=
  match bs with
  | [] => []
  | b :: bs' => line_of n b :: lines_of (n + 1) bs'
  end.

(** Sum of the sizes of the allocated blocks, and of the free blocks. *)
Definition used_total (bs : list (Z * Z)) : Z :=
  total (filter (fun b => negb (is_free (snd b))) bs).

Definition free_total (bs : list (Z * Z)) : Z :=
  total (filter (fun b => is_free (snd b)) bs).

(** ** Invariants of the block list *)

(** The previous-block bit of every header records the status of the block
    before it; [prev] is the status that the first header has to record
    (the first block of the heap has no predecessor and [init_heap] sets its
    bit). *)
Fixpoint prev_bits_ok (prev : bool) (bs : list (Z * Z)) : bool :=
  match bs with
  | [] => true
  | b :: bs' =>
      Bool.eqb (p_bit (snd b) =? 2) prev &&
      prev_bits_ok (a_bit (snd b) =? 1) bs'
  end.

(** No free block is followed by a free block. *)
Fixpoint no_adjacent_free (bs : list (Z * Z)) : bool :=
  match bs with
  | [] => true
  | b :: bs' =>
      match bs' with
      | [] => true
      | c :: _ => negb (is_free (snd b) && is_free (snd c))
      end && no_adjacent_free bs'
  end.

(** The last word of every free block holds the size of the block. *)
Definition footers_ok (s : state) (bs : list (Z * Z)) : Prop :=
  forall a w, In (a, w) bs -> is_free w = true ->
              load s (a + size_of w - headerSize) = Some (size_of w).

(** The same as a test that can be run on a heap. *)
Definition footers_okb (s : state) (bs : list (Z * Z)) : bool :=
  forallb (fun b =>
             implb (is_free (snd b))
                   (match load s (fst b + size_of (snd b) - headerSize) with
                    | Some v => v =? size_of (snd b)
                    | None => false
                    end)) bs.

(** The block list after [nextBlock->size_status |= 2] on its first
    header. *)
Definition set_p_first (bs : list (Z * Z)) : list (Z * Z) :=
  match bs with
  | [] => []
  | b :: bs' => (fst b, Z.lor (snd b) 2) :: bs'
  end.

(** The blocks that replace the free block with header word [w] at [fit]
    and the blocks [post] behind it when [balloc] serves a request rounded
    to [r] from it. *)
Definition blocks_after_balloc (fit w r : Z) (post : list (Z * Z))
  : list (Z * Z) :=
  if headerSize + 8 <=? size_of w - r then
    (fit, Z.lor (Z.lor r 1) (p_bit w))
      :: (fit + r, Z.lor (size_of w - r) 2) :: post
  else (fit, Z.lor w 1) :: set_p_first post.

(** ** Requests served without a [bfree] in between *)

(** The pointers that a series of requests gets while nothing is freed:
    [next] is the address of the free block at the end of the heap and
    [left] is its size ([0] when the heap is used up).  A request that fits
    is served from [next]; it takes the whole block when less than a header
    and 8 bytes would be left. *)
Fixpoint bump_all (next left : Z) (sizes : list Z) : list Z :=
  match sizes with
  | [] => []
  | size :: sizes' =>
      let r := rounded_size size in
      if (1 <=? size) && (r <=? left) then
        let taken := if headerSize + 8 <=? left - r then r else left in
        (next + headerSize) :: bump_all (next + taken) (left - taken) sizes'
      else NULL :: bump_all next left sizes'
  end.

(** ** [bfree] next to free blocks *)

(** The state after [coalesce] has merged the freed block at [b] (size
    [sz]) with the free block of size [psz] before it: the header of that
    block and the footer of the freed block hold the sum. *)
Definition merged_prev (s : state) (b sz psz : Z) : state :=
  upd (upd s (b - psz) (sz + psz)) (b + sz - headerSize) (sz + psz).

(** The blocks that replace a freed block and the blocks [post] behind it:
    one free block at [a] of size [m] (the size of the freed block, with
    that of a free block before it), which takes in the block behind it
    when that block is free. *)
Definition blocks_after_bfree (a m : Z) (post : list (Z * Z))
  : list (Z * Z) :=
  match post with
  | [] => [(a, m)]
  | c :: post' =>
      if is_free (snd c) then (a, m + size_of (snd c)) :: post'
      else (a, m) :: post
  end.

(** * Properties *)

Ltac zdm := Z.div_mod_to_equations; lia.

(** ** Bit operations as arithmetic *)

Lemma land_lnot3 (w : Z) : Z.land w (Z.lnot 3) = 4 * (w / 4).
Proof.
  rewrite <- Z.ldiff_land. change 3 with (Z.ones 2).
  rewrite Z.ldiff_ones_r, Z.shiftr_div_pow2, Z.shiftl_mul_pow2 by lia.
  change (2 ^ 2) with 4. lia.
Qed.

Lemma land_lnot7 (w : Z) : Z.land w (Z.lnot 7) = 8 * (w / 8).
Proof.
  rewrite <- Z.ldiff_land. change 7 with (Z.ones 3).
  rewrite Z.ldiff_ones_r, Z.shiftr_div_pow2, Z.shiftl_mul_pow2 by lia.
  change (2 ^ 3) with 8. lia.
Qed.

Lemma land_1 (w : Z) : Z.land w 1 = w mod 2.
Proof. change 1 with (Z.ones 1). now rewrite Z.land_ones by lia. Qed.

Lemma land_3 (w : Z) : Z.land w 3 = w mod 4.
Proof. change 3 with (Z.ones 2). now rewrite Z.land_ones by lia. Qed.

Lemma land_2 (w : Z) : Z.land w 2 = w mod 4 - w mod 2.
Proof.
  pose proof (Z.add_lor_land (Z.land w 2) (Z.land w 1)) as H.
  rewrite <- Z.land_lor_distr_r in H.
  replace (Z.land (Z.land w 2) (Z.land w 1)) with 0 in H.
  - change (Z.lor 2 1) with 3 in H. rewrite land_3, land_1 in H. lia.
  - rewrite (Z.land_comm w 1), Z.land_assoc, <- (Z.land_assoc w 2 1).
    change (Z.land 2 1) with 0. now rewrite Z.land_0_r, Z.land_0_l.
Qed.

Lemma lor_1 (w : Z) : Z.lor w 1 = w + 1 - w mod 2.
Proof. pose proof (Z.add_lor_land w 1) as H. rewrite land_1 in H. lia. Qed.

Lemma lor_2 (w : Z) : Z.lor w 2 = w + 2 - (w mod 4 - w mod 2).
Proof. pose proof (Z.add_lor_land w 2) as H. rewrite land_2 in H. lia. Qed.

Lemma size_of_eq (w : Z) : size_of w = 4 * (w / 4).
Proof. apply land_lnot3. Qed.

Lemma a_bit_eq (w : Z) : a_bit w = w mod 2.
Proof. apply land_1. Qed.

Lemma p_bit_eq (w : Z) : p_bit w = w mod 4 - w mod 2.
Proof. apply land_2. Qed.

(** Turns the bit operations of a goal and of the hypotheses into
    expressions over [/] and [mod]. *)
Ltac bits :=
  unfold size_of, a_bit, p_bit, is_free in *;
  repeat (rewrite ?land_lnot3, ?land_lnot7, ?land_1, ?land_2, ?lor_1, ?lor_2
            in * ).

Lemma size_of_le (w : Z) : size_of w <= w.
Proof. bits. zdm. Qed.

Lemma size_of_pos (w : Z) : 0 < size_of w -> 4 <= size_of w.
Proof. bits. zdm. Qed.

Lemma size_of_mod4 (w : Z) : size_of w mod 4 = 0.
Proof. bits. zdm. Qed.

Lemma size_of_lor_1 (w : Z) : size_of (Z.lor w 1) = size_of w.
Proof. bits. zdm. Qed.

Lemma size_of_lor_2 (w : Z) : size_of (Z.lor w 2) = size_of w.
Proof. bits. zdm. Qed.

Lemma a_bit_lor_1 (w : Z) : a_bit (Z.lor w 1) = 1.
Proof. bits. zdm. Qed.

Lemma a_bit_lor_2 (w : Z) : a_bit (Z.lor w 2) = a_bit w.
Proof. bits. zdm. Qed.

Lemma p_bit_lor_2 (w : Z) : p_bit (Z.lor w 2) = 2.
Proof. bits. zdm. Qed.

Lemma p_bit_cases (w : Z) : p_bit w = 0 \/ p_bit w = 2.
Proof. bits. zdm. Qed.

(** The header written for the allocated part of a split block. *)
Lemma lor_alloc_header (r w : Z) :
  r mod 4 = 0 -> Z.lor (Z.lor r 1) (p_bit w) = r + 1 + p_bit w.
Proof.
  intros Hr. pose proof (Z.add_lor_land (Z.lor r 1) (p_bit w)) as H.
  replace (Z.land (Z.lor r 1) (p_bit w)) with 0 in H.
  - pose proof (lor_1 r) as H1. zdm.
  - destruct (p_bit_cases w) as [-> | ->].
    + now rewrite Z.land_0_r.
    + rewrite land_2, lor_1. zdm.
Qed.

(** ** Machine integers *)

Lemma wrap_small (x : Z) : Int.in_range x -> Int.wrap x = x.
Proof.
  unfold Int.in_range, Int.min_signed, Int.max_signed, Int.wrap. intros H.
  rewrite Z.mod_small; lia.
Qed.

Lemma in_rangeb_true (x : Z) : Int.in_rangeb x = true <-> Int.in_range x.
Proof. unfold Int.in_rangeb, Int.in_range. lia. Qed.

Lemma wrap_mod8 (x : Z) : Int.wrap x mod 8 = x mod 8.
Proof.
  unfold Int.wrap. change (2 ^ 32) with (8 * 2 ^ 29).
  change (2 ^ 31) with (8 * 2 ^ 28). zdm.
Qed.

Lemma wrap_mod2 (x : Z) : Int.wrap x mod 2 = x mod 2.
Proof.
  unfold Int.wrap. change (2 ^ 32) with (2 * 2 ^ 31).
  change (2 ^ 31) with (2 * 2 ^ 30). zdm.
Qed.

Lemma rem8_wrap (x : Z) : Z.rem (Int.wrap x) 8 = 0 <-> x mod 8 = 0.
Proof.
  rewrite <- (wrap_mod8 x). rewrite Z.rem_divide, Z.mod_divide by lia.
  reflexivity.
Qed.

(** The request rounding of [balloc], away from overflow: the least
    multiple of 8 that holds the payload and the header. *)
Lemma rounded_size_spec (size : Z) :
  1 <= size <= Int.max_signed - 11 ->
  rounded_size size = 8 * ((size + headerSize + 7) / 8) /\
  rounded_size size mod 8 = 0 /\
  size + headerSize <= rounded_size size < size + headerSize + 8.
Proof.
  unfold Int.max_signed, rounded_size, Int.add, headerSize. intros H.
  rewrite (wrap_small (size + 4)), (wrap_small (size + 4 + 7))
    by (unfold Int.in_range, Int.min_signed, Int.max_signed; lia).
  rewrite land_lnot7. zdm.
Qed.

Ltac int_range :=
  unfold Int.in_range, Int.min_signed, Int.max_signed; lia.

(** ** Memory *)

Lemma valid_access_upd (s : state) (a v x : Z) :
  valid_access (upd s a v) x = valid_access s x.
Proof. reflexivity. Qed.

Lemma load_valid (s : state) (a : Z) :
  valid_access s a = true -> load s a = Some (mem s a).
Proof. unfold load. now intros ->. Qed.

Lemma store_valid (s : state) (a v : Z) :
  valid_access s a = true -> store s a v = Some (upd s a v).
Proof. unfold store. now intros ->. Qed.

Lemma load_some (s : state) (a w : Z) :
  load s a = Some w -> valid_access s a = true /\ mem s a = w.
Proof.
  unfold load. destruct (valid_access s a); [|discriminate].
  intros [= <-]. auto.
Qed.

Lemma store_some (s s' : state) (a v : Z) :
  store s a v = Some s' -> valid_access s a = true /\ s' = upd s a v.
Proof.
  unfold store. destruct (valid_access s a); [|discriminate].
  intros [= <-]. auto.
Qed.

Lemma load_upd_same (s : state) (a v : Z) :
  valid_access s a = true -> load (upd s a v) a = Some v.
Proof.
  intros H. unfold load. rewrite valid_access_upd, H. simpl.
  now rewrite Z.eqb_refl.
Qed.

Lemma load_upd_other (s : state) (a v x : Z) :
  x <> a -> load (upd s a v) x = load s x.
Proof.
  intros H. unfold load. rewrite valid_access_upd. simpl.
  destruct (Z.eqb_spec x a); [contradiction|reflexivity].
Qed.

Lemma valid_access_bounds (s : state) (a : Z) :
  valid_access s a = true <->
  map_lo s <= a /\ a + 4 <= map_hi s /\ a mod 4 = 0.
Proof. unfold valid_access. lia. Qed.

Lemma valid_access_bounds_raw (lo hi a : Z) :
  lo <= a /\ a + 4 <= hi /\ a mod 4 = 0 ->
  (lo <=? a) && (a + 4 <=? hi) && (a mod 4 =? 0) = true.
Proof. lia. Qed.

Ltac valid :=
  apply valid_access_bounds; repeat split; first [lia | zdm].

Ltac valid_upd := rewrite ?valid_access_upd; valid.

Create HintDb frame.

Lemma same_frame_refl (s : state) : same_frame s s.
Proof. unfold same_frame. auto. Qed.

Lemma same_frame_trans (s1 s2 s3 : state) :
  same_frame s1 s2 -> same_frame s2 s3 -> same_frame s1 s3.
Proof. unfold same_frame. intuition congruence. Qed.

Lemma store_frame (s s' : state) (a v : Z) :
  store s a v = Some s' -> same_frame s s'.
Proof.
  intros H. apply store_some in H. destruct H as [_ ->].
  unfold same_frame. auto.
Qed.

#[local] Hint Resolve same_frame_refl store_frame : frame.

Lemma store_even (s s' : state) (a v x : Z) :
  store s a v = Some s' -> v mod 2 = 0 ->
  mem s x mod 2 = 0 -> mem s' x mod 2 = 0.
Proof.
  intros H Hv Hx. apply store_some in H. destruct H as [_ ->]. simpl.
  destruct (x =? a); assumption.
Qed.

(** ** The scan of the block list *)

Lemma heap_blocks_loop_walk (s : state) (fuel : nat) :
  forall a bs, heap_blocks_loop fuel s a = Some bs -> walk s a bs.
Proof.
  induction fuel as [|fuel IH]; simpl; intros a bs H; [discriminate|].
  destruct (load s a) as [w|] eqn:Hl; simpl in H; [|discriminate].
  destruct (Z.leb_spec (size_of w) 0).
  - injection H as <-. eapply walk_end; eauto.
  - destruct (heap_blocks_loop fuel s (a + size_of w)) eqn:Hr;
      simpl in H; [|discriminate].
    injection H as <-. eapply walk_cons; eauto.
Qed.

Lemma walk_heap_blocks_loop (s : state) (a : Z) (bs : list (Z * Z)) :
  walk s a bs ->
  forall fuel, (length bs < fuel)%nat -> heap_blocks_loop fuel s a = Some bs.
Proof.
  induction 1 as [a w Hl Hs | a w bs Hl Hs Hw IH]; intros fuel Hf;
    (destruct fuel as [|fuel]; [simpl in Hf; lia|]); simpl; rewrite Hl; simpl.
  - destruct (Z.leb_spec (size_of w) 0); [reflexivity|lia].
  - destruct (Z.leb_spec (size_of w) 0); [lia|].
    rewrite IH by (simpl in Hf; lia). reflexivity.
Qed.

Lemma walk_bound (s : state) (a : Z) (bs : list (Z * Z)) :
  walk s a bs ->
  a mod 4 = 0 /\ map_lo s <= a /\
  a + 4 * Z.of_nat (length bs) + 4 <= map_hi s.
Proof.
  induction 1 as [a w Hl Hs | a w bs Hl Hs Hw IH];
    apply load_some in Hl; destruct Hl as [Hv _];
    apply valid_access_bounds in Hv.
  - simpl. lia.
  - apply size_of_pos in Hs. simpl length. lia.
Qed.

Lemma walk_fuel (s : state) (a : Z) (bs : list (Z * Z)) :
  walk s a bs -> (length bs < scan_fuel s)%nat.
Proof.
  intros H. apply walk_bound in H. unfold scan_fuel.
  assert (Z.of_nat (length bs) <= (map_hi s - map_lo s) / 4) by zdm.
  lia.
Qed.

Lemma heap_blocks_walk (s : state) (bs : list (Z * Z)) :
  heap_blocks s = Some bs <-> walk s (heap_start s) bs.
Proof.
  unfold heap_blocks. split.
  - apply heap_blocks_loop_walk.
  - intros H. apply walk_heap_blocks_loop; [assumption|].
    eapply walk_fuel; eauto.
Qed.

Lemma walk_In (s : state) (a : Z) (bs : list (Z * Z)) :
  walk s a bs ->
  forall x w, In (x, w) bs ->
    load s x = Some w /\ 0 < size_of w /\ a <= x /\
    exists nw, load s (x + size_of w) = Some nw.
Proof.
  induction 1 as [a w Hl Hs | a w bs Hl Hs Hw IH]; intros x v Hin;
    [contradiction|].
  destruct Hin as [[= <- <-] | Hin].
  - repeat split; try assumption; try lia.
    inversion Hw; subst; eauto.
  - destruct (IH _ _ Hin) as (? & ? & ? & ?). repeat split; auto; lia.
Qed.

Lemma walk_mod8 (s : state) (a : Z) (bs : list (Z * Z)) :
  walk s a bs -> forallb block_ok bs = true ->
  forall x w, In (x, w) bs -> x mod 8 = a mod 8.
Proof.
  induction 1 as [a w Hl Hs | a w bs Hl Hs Hw IH]; intros Hok x v Hin;
    [contradiction|].
  simpl in Hok. apply andb_true_iff in Hok. destruct Hok as [Hb Hok].
  destruct Hin as [[= <- <-] | Hin]; [reflexivity|].
  rewrite (IH Hok _ _ Hin).
  unfold block_ok in Hb. simpl in Hb. apply andb_true_iff in Hb.
  destruct Hb as [_ Hb]. apply Z.eqb_eq in Hb. zdm.
Qed.

Lemma heap_ok_walk (s : state) (bs : list (Z * Z)) :
  heap_ok s bs -> walk s (heap_start s) bs.
Proof. intros (H & _). now apply heap_blocks_walk. Qed.

Lemma heap_ok_block (s : state) (bs : list (Z * Z)) (x w : Z) :
  heap_ok s bs -> In (x, w) bs ->
  Int.in_range w /\ size_of w mod 8 = 0 /\ x mod 8 = 4.
Proof.
  intros Hok Hin. pose proof (heap_ok_walk _ _ Hok) as Hw.
  destruct Hok as (_ & Hf & _ & Hm).
  pose proof (walk_mod8 _ _ _ Hw Hf _ _ Hin) as Hx.
  rewrite forallb_forall in Hf. specialize (Hf _ Hin).
  unfold block_ok in Hf. simpl in Hf. apply andb_true_iff in Hf.
  destruct Hf as [H1 H2]. apply in_rangeb_true in H1. apply Z.eqb_eq in H2.
  split; [assumption|split; [assumption|congruence]].
Qed.

Lemma better_refl (b : Z * Z) : better b b.
Proof. unfold better. lia. Qed.

Lemma better_trans (a b c : Z * Z) : better a b -> better b c -> better a c.
Proof. unfold better. lia. Qed.

(** What the scan returns: nothing when no block fits; otherwise a fitting
    block that is best among the start candidate and all blocks scanned. *)
Lemma scan_walk (s : state) (size a : Z) (bs : list (Z * Z)) :
  walk s a bs ->
  forall fit,
    (forall f, fit = Some f -> fst f < a /\ fits size f = true) ->
    match scan size bs fit with
    | None => fit = None /\ forall b, In b bs -> fits size b = false
    | Some r =>
        (fit = Some r \/ In r bs) /\ fits size r = true /\
        (forall f, fit = Some f -> better r f) /\
        (forall b, In b bs -> fits size b = true -> better r b)
    end.
Proof.
  induction 1 as [a w Hl Hs | a w bs Hl Hs Hw IH]; intros fit Hfit; simpl.
  - destruct fit as [f|].
    + destruct (Hfit f eq_refl) as [_ Hf]. repeat split; auto.
      * intros f' [= <-]. apply better_refl.
      * contradiction.
    + split; [reflexivity|contradiction].
  - set (fit' := if fits size (a, w) then _ else fit).
    assert (Hfit' : forall f, fit' = Some f ->
                fst f < a + size_of w /\ fits size f = true).
    { intros f Hf. subst fit'.
      destruct (fits size (a, w)) eqn:Hfa.
      - destruct fit as [f0|].
        + destruct (Hfit f0 eq_refl) as [? ?].
          match type of Hf with context [if ?c then _ else _] =>
            destruct c end;
            injection Hf as <-; simpl; split; auto; lia.
        + injection Hf as <-. simpl. split; auto; lia.
      - destruct (Hfit f Hf). split; auto; lia. }
    assert (Hhead : forall f, fit' = Some f ->
                (forall f0, fit = Some f0 -> better f f0) /\
                (fits size (a, w) = true -> better f (a, w)) /\
                (fit = Some f \/ f = (a, w))).
    { intros f Hf. subst fit'.
      destruct (fits size (a, w)) eqn:Hfa.
      - destruct fit as [f0|].
        + destruct (Hfit f0 eq_refl) as [? ?].
          destruct (Z.ltb_spec (size_of w) (size_of (snd f0)));
            injection Hf as <-; repeat split; auto;
              try (intros ? [= <-]); try intros _;
              unfold better; simpl in *; lia.
        + injection Hf as <-. repeat split; auto.
          * discriminate.
          * intros _. apply better_refl.
      - repeat split; auto; try discriminate.
        intros f0 Hf0. rewrite Hf in Hf0. injection Hf0 as <-.
        apply better_refl. }
    specialize (IH fit' Hfit').
    destruct (scan size bs fit') as [r|].
    + destruct IH as (Hin & Hr & Hbf & Hbb).
      assert (Hor : fit = Some r \/ In r ((a, w) :: bs)).
      { destruct Hin as [Hin | Hin]; [|right; now right].
        destruct (Hhead r Hin) as (_ & _ & [? | ->]); [now left|].
        right. now left. }
      repeat split; auto.
      * intros f Hf. destruct fit' as [f'|] eqn:Hf'.
        -- destruct (Hhead f' eq_refl) as (H1 & _ & _).
           eapply better_trans; [apply Hbf; reflexivity|]. auto.
        -- subst fit'. destruct (fits size (a, w)); [|congruence].
           rewrite Hf in Hf'. destruct (_ <? _); discriminate.
      * intros b [<- | Hb] Hfb; [|auto].
        destruct fit' as [f'|] eqn:Hf'.
        -- destruct (Hhead f' eq_refl) as (_ & H2 & _).
           eapply better_trans; [apply Hbf; reflexivity|]. auto.
        -- subst fit'. rewrite Hfb in Hf'.
           destruct fit; [destruct (_ <? _)|]; discriminate.
    + destruct IH as (Hnone & Hall). subst fit'.
      destruct (fits size (a, w)) eqn:Hfa.
      * destruct fit; [destruct (_ <? _)|]; discriminate.
      * split; [assumption|]. intros b [<- | Hb]; auto.
Qed.

Lemma scan_fit_inv (s : state) (size a : Z) (bs : list (Z * Z)) :
  walk s a bs -> 0 < a ->
  forall fit, fit_inv s fit -> fit_inv s (scan size bs fit).
Proof.
  induction 1 as [a w Hl Hs | a w bs Hl Hs Hw IH]; intros Ha fit Hfit;
    simpl; [assumption|].
  apply IH; [lia|].
  destruct (fits size (a, w)); [|assumption].
  destruct fit as [f|]; [destruct (_ <? _)|]; simpl; auto;
    split; auto; unfold NULL; lia.
Qed.

(** The loop of [best_block] computes [scan]. *)
Lemma best_block_loop_scan (s : state) (size a : Z) (bs : list (Z * Z)) :
  walk s a bs -> 0 < a ->
  forall fuel fit, (length bs < fuel)%nat -> fit_inv s fit ->
    best_block_loop fuel s size a (fit_ptr fit)
    = Some (fit_ptr (scan size bs fit)).
Proof.
  induction 1 as [a w Hl Hs | a w bs Hl Hs Hw IH]; intros Ha fuel fit Hf Hfit;
    (destruct fuel as [|fuel]; [simpl in Hf; lia|]); simpl; rewrite Hl; simpl.
  - destruct (w =? 1); [reflexivity|].
    fold (size_of w). destruct (Z.leb_spec (size_of w) 0); [reflexivity|lia].
  - fold (size_of w) (a_bit w).
    destruct (Z.eqb_spec w 1) as [-> | _]; [vm_compute in Hs; discriminate|].
    destruct (Z.leb_spec (size_of w) 0); [lia|].
    unfold fits, is_free. simpl snd.
    destruct ((a_bit w =? 0) && (size <=? size_of w)); simpl.
    + destruct fit as [f|]; simpl.
      * destruct Hfit as [Hn Hlf].
        destruct (Z.eqb_spec (fst f) NULL); [contradiction|].
        rewrite Hlf. simpl. fold (size_of (snd f)).
        destruct (size_of w <? size_of (snd f)).
        -- apply (IH ltac:(lia) fuel (Some (a, w))); [simpl in Hf; lia|].
           simpl. split; [unfold NULL; lia|assumption].
        -- apply (IH ltac:(lia) fuel (Some f)); [simpl in Hf; lia|].
           simpl. auto.
      * apply (IH ltac:(lia) fuel (Some (a, w))); [simpl in Hf; lia|].
        simpl. split; [unfold NULL; lia|assumption].
    + apply (IH ltac:(lia) fuel fit); [simpl in Hf; lia|assumption].
Qed.

(** [best_block] on a heap whose scan ends: the candidate of [scan], or
    [NULL] when no free block is large enough. *)
Lemma best_block_scan (s : state) (size : Z) (bs : list (Z * Z)) :
  walk s (heap_start s) bs -> 0 < heap_start s ->
  best_block s size = Some (fit_ptr (scan size bs None)).
Proof.
  intros Hw Hp. unfold best_block.
  change NULL with (fit_ptr None) at 1.
  rewrite (best_block_loop_scan s size _ bs Hw Hp);
    [|eapply walk_fuel; eauto|exact I].
  simpl.
  pose proof (scan_fit_inv s size _ bs Hw Hp None I) as Hinv.
  pose proof (scan_walk s size _ bs Hw None ltac:(discriminate)) as Hsc.
  destruct (scan size bs None) as [r|]; simpl; [|reflexivity].
  destruct Hinv as [Hn Hl]. destruct Hsc as (_ & Hfit & _).
  destruct (Z.eqb_spec (fst r) NULL); [contradiction|]. simpl.
  rewrite Hl. simpl. fold (size_of (snd r)).
  unfold fits in Hfit. apply andb_true_iff in Hfit.
  destruct (Z.ltb_spec (size_of (snd r)) size); [lia|reflexivity].
Qed.

(** ** The step budget of [best_block] is never exhausted *)

(** [current] advances by at least 4 bytes at every turn and must stay
    inside the mapped region to be read: with the budget [scan_fuel] the
    loop of [best_block] ends or faults before the budget does, so a larger
    budget gives the same result. *)
Lemma best_block_loop_fuel (s : state) (size : Z) :
  forall f1 f2 current fit,
    (Z.to_nat ((map_hi s - current) / 4) < f1)%nat -> (f1 <= f2)%nat ->
    best_block_loop f1 s size current fit
    = best_block_loop f2 s size current fit.
Proof.
  induction f1 as [|f1 IH]; intros f2 current fit H1 H2; [lia|].
  destruct f2 as [|f2]; [lia|]. simpl.
  destruct (load s current) as [cs|] eqn:Hl; [|reflexivity]. simpl.
  destruct (cs =? 1); [reflexivity|].
  destruct (Z.leb_spec (Z.land cs (Z.lnot 3)) 0) as [|Hpos]; [reflexivity|].
  match goal with
  | |- bind ?m _ = _ => destruct m as [fit'|]; [|reflexivity]
  end.
  cbn [bind]. apply IH; [|lia].
  apply load_some in Hl. destruct Hl as [Hv _].
  apply valid_access_bounds in Hv.
  fold (size_of cs) in *. apply size_of_pos in Hpos.
  assert (Hq : (map_hi s - (current + size_of cs)) / 4
               < (map_hi s - current) / 4 /\
               0 < (map_hi s - current) / 4) by zdm.
  lia.
Qed.

Lemma best_block_enough_fuel (s : state) (size : Z) (fuel : nat) :
  (scan_fuel s <= fuel)%nat ->
  best_block_loop fuel s size (heap_start s) NULL
  = best_block_loop (scan_fuel s) s size (heap_start s) NULL.
Proof.
  intros Hf. destruct (Z.lt_ge_cases (heap_start s) (map_lo s)) as [Hlt | Hge].
  - (* [heap_start] is not mapped: the first read faults *)
    unfold scan_fuel in *. destruct fuel as [|fuel]; [lia|]. simpl.
    unfold load. replace (valid_access s (heap_start s)) with false;
      [reflexivity|].
    symmetry. unfold valid_access. lia.
  - symmetry. apply best_block_loop_fuel; [|assumption].
    unfold scan_fuel.
    assert (Hq : (map_hi s - heap_start s) / 4
                 <= (map_hi s - map_lo s) / 4) by zdm.
    lia.
Qed.

(** ** [balloc] on a heap whose scan ends *)

Lemma balloc_small (s : state) (size : Z) :
  size < 1 -> balloc s size = Some (NULL, s).
Proof.
  intros H. unfold balloc. destruct (Z.ltb_spec size 1); [reflexivity|lia].
Qed.

Lemma balloc_none (s : state) (size : Z) (bs : list (Z * Z)) :
  walk s (heap_start s) bs -> 0 < heap_start s -> 1 <= size ->
  scan (rounded_size size) bs None = None ->
  balloc s size = Some (NULL, s).
Proof.
  intros Hw Hp Hs Hsc. unfold balloc.
  destruct (Z.ltb_spec size 1); [lia|].
  rewrite (best_block_scan s _ bs Hw Hp), Hsc. reflexivity.
Qed.

Lemma balloc_some (s : state) (size : Z) (bs : list (Z * Z)) (fit w : Z) :
  walk s (heap_start s) bs -> 0 < heap_start s ->
  1 <= size <= Int.max_signed - 11 ->
  scan (rounded_size size) bs None = Some (fit, w) ->
  Int.in_range w ->
  exists nw,
    load s (fit + size_of w) = Some nw /\
    balloc s size =
    Some (fit + headerSize,
          if headerSize + 8 <=? size_of w - rounded_size size
          then alloc_split s fit w (rounded_size size)
          else alloc_whole s fit w nw).
Proof.
  intros Hw Hp Hs Hsc Hr.
  pose proof (scan_walk s (rounded_size size) _ bs Hw None
                ltac:(discriminate)) as Hsp.
  rewrite Hsc in Hsp. destruct Hsp as ([? | Hin] & Hfit & _); [discriminate|].
  destruct (walk_In _ _ _ Hw _ _ Hin) as (Hl & Hpos & Hge & nw & Hnl).
  exists nw. split; [assumption|].
  destruct (rounded_size_spec size Hs) as (_ & Hr8 & Hrb).
  unfold fits in Hfit. simpl in Hfit. apply andb_true_iff in Hfit.
  destruct Hfit as [_ Hle]. apply Z.leb_le in Hle.
  pose proof (size_of_le w) as Hsw. pose proof (size_of_mod4 w) as Hs4.
  destruct (load_some _ _ _ Hl) as [Hv _].
  destruct (load_some _ _ _ Hnl) as [Hnv _].
  apply valid_access_bounds in Hv, Hnv.
  unfold balloc. destruct (Z.ltb_spec size 1); [lia|].
  rewrite (best_block_scan s _ bs Hw Hp), Hsc. cbn [bind fit_ptr fst].
  destruct (Z.eqb_spec fit NULL); [unfold NULL in *; lia|].
  rewrite Hl. cbn [bind]. fold (size_of w).
  set (r := rounded_size size) in *.
  unfold Int.sub. rewrite (wrap_small (size_of w - r))
    by (unfold Int.in_range, Int.min_signed, Int.max_signed, headerSize in *;
        lia).
  unfold headerSize in *.
  destruct (Z.leb_spec (4 + 8) (size_of w - r)) as [Hsplit | Hwhole].
  - rewrite (store_valid s (fit + r)) by valid. cbn [bind].
    replace (fit + r + (size_of w - r) - 4) with (fit + size_of w - 4)
      by lia.
    rewrite store_valid by (rewrite valid_access_upd; valid). cbn [bind].
    rewrite !load_upd_other, Hl by lia. cbn [bind].
    rewrite store_valid by (rewrite !valid_access_upd; valid). cbn [bind].
    rewrite load_upd_same by (rewrite !valid_access_upd; valid).
    cbn [bind]. fold (size_of (Z.lor (Z.lor r 1) (Z.land w 2))).
    fold (p_bit w).
    replace (size_of (Z.lor (Z.lor r 1) (p_bit w))) with r.
    + rewrite 2!load_upd_other by lia.
      rewrite load_upd_same by valid. cbn [bind].
      rewrite store_valid by (rewrite !valid_access_upd; valid).
      reflexivity.
    + rewrite lor_alloc_header by zdm.
      destruct (p_bit_cases w) as [-> | ->]; bits; zdm.
  - cbn [bind].
    rewrite store_valid by valid. cbn [bind].
    rewrite load_upd_same by valid. cbn [bind].
    fold (size_of (Z.lor w 1)). rewrite size_of_lor_1.
    rewrite load_upd_other, Hnl by lia. cbn [bind].
    rewrite store_valid by (rewrite valid_access_upd; valid).
    reflexivity.
Qed.

Lemma load_alloc_whole_header (s : state) (fit w nw : Z) :
  valid_access s fit = true -> 0 < size_of w ->
  load (alloc_whole s fit w nw) fit = Some (Z.lor w 1).
Proof.
  intros Hv Hs. unfold alloc_whole.
  rewrite load_upd_other by lia. now apply load_upd_same.
Qed.

Lemma load_alloc_split_header (s : state) (fit w r : Z) :
  valid_access s fit = true -> 0 < r ->
  load (alloc_split s fit w r) fit = Some (Z.lor (Z.lor r 1) (p_bit w)).
Proof.
  intros Hv Hr. unfold alloc_split.
  rewrite load_upd_other by lia. apply load_upd_same.
  now rewrite !valid_access_upd.
Qed.

Lemma load_alloc_split_rest (s : state) (fit w r : Z) :
  valid_access s (fit + r) = true ->
  load (alloc_split s fit w r) (fit + r) = Some (Z.lor (size_of w - r) 2).
Proof.
  intros Hv. unfold alloc_split. apply load_upd_same.
  now rewrite !valid_access_upd.
Qed.

Lemma load_alloc_split_footer (s : state) (fit w r : Z) :
  valid_access s (fit + size_of w - headerSize) = true ->
  0 < r -> headerSize + 8 <= size_of w - r ->
  load (alloc_split s fit w r) (fit + size_of w - headerSize)
  = Some (size_of w - r).
Proof.
  unfold headerSize. intros Hv Hr Hs. unfold alloc_split, headerSize.
  rewrite 2!load_upd_other by lia. apply load_upd_same.
  now rewrite !valid_access_upd.
Qed.

(** Closed goals about test heaps, settled by evaluation. *)
Ltac compute_conj :=
  repeat match goal with |- _ /\ _ => split end; vm_compute; reflexivity.

Ltac compute_heap_ok := unfold heap_ok; compute_conj.

(** The theorems on a successful [balloc] share their assumptions: a
    well-formed heap and a request in the range where the rounding of
    [balloc] does not overflow an [int]. *)
Section BallocOnHeap.

Variables (s : state) (bs : list (Z * Z)) (size : Z).
Hypothesis Hok : heap_ok s bs.
Hypothesis Hsize : 1 <= size <= Int.max_signed - 11.

(** What a successful [balloc] did, in terms of the block it chose. *)
Lemma balloc_inv (s' : state) (p : Z) :
  balloc s size = Some (p, s') -> p <> NULL ->
  exists fit w nw,
    p = fit + headerSize /\
    scan (rounded_size size) bs None = Some (fit, w) /\
    In (fit, w) bs /\ fits (rounded_size size) (fit, w) = true /\
    load s fit = Some w /\
    load s (fit + size_of w) = Some nw /\
    s' = (if headerSize + 8 <=? size_of w - rounded_size size
          then alloc_split s fit w (rounded_size size)
          else alloc_whole s fit w nw).
Proof.
  intros Hb Hp. pose proof Hsize as Hs.
  pose proof (heap_ok_walk _ _ Hok) as Hw.
  assert (Hhs : 0 < heap_start s) by apply Hok.
  pose proof (scan_walk s (rounded_size size) _ bs Hw None
                ltac:(discriminate)) as Hsp.
  destruct (scan (rounded_size size) bs None) as [[fit w]|] eqn:Hsc.
  - destruct Hsp as ([? | Hin] & Hfit & _); [discriminate|].
    destruct (heap_ok_block _ _ _ _ Hok Hin) as (Hr & _).
    destruct (balloc_some s size bs fit w Hw Hhs Hs Hsc Hr)
      as (nw & Hnl & Heq).
    rewrite Heq in Hb. injection Hb as <- <-.
    destruct (walk_In _ _ _ Hw _ _ Hin) as (Hl & _).
    exists fit, w, nw. repeat split; auto.
  - rewrite (balloc_none s size bs Hw Hhs ltac:(lia) Hsc) in Hb.
    injection Hb as <- <-. contradiction.
Qed.

(** ** Best-fit selection *)

(** C1. On a well-formed heap that holds a free block large enough for the
    rounded request, [balloc] hands out the free block of smallest size among
    the free blocks that are large enough; among blocks of that size it takes
    the one at the lowest address. *)
Theorem balloc_selects_best_fit :
  (exists b, In b bs /\ is_free (snd b) = true /\
             rounded_size size <= size_of (snd b)) ->
  exists fit w s',
    balloc s size = Some (fit + headerSize, s') /\
    In (fit, w) bs /\ is_free w = true /\ rounded_size size <= size_of w /\
    forall a' w', In (a', w') bs -> is_free w' = true ->
                  rounded_size size <= size_of w' ->
                  size_of w < size_of w' \/
                  (size_of w = size_of w' /\ fit <= a').
Proof.
  intros (b & Hb & Hbf & Hbs). pose proof Hsize as Hs.
  pose proof (heap_ok_walk _ _ Hok) as Hw.
  assert (Hhs : 0 < heap_start s) by apply Hok.
  pose proof (scan_walk s (rounded_size size) _ bs Hw None
                ltac:(discriminate)) as Hsp.
  destruct (scan (rounded_size size) bs None) as [[fit w]|] eqn:Hsc.
  - destruct Hsp as ([? | Hin] & Hfit & _ & Hbest); [discriminate|].
    destruct (heap_ok_block _ _ _ _ Hok Hin) as (Hr & _).
    destruct (balloc_some s size bs fit w Hw Hhs Hs Hsc Hr)
      as (nw & _ & Heq).
    unfold fits in Hfit. simpl in Hfit. apply andb_true_iff in Hfit.
    destruct Hfit as [Hfree Hle]. apply Z.leb_le in Hle.
    eexists fit, w, _. repeat split; [exact Heq|assumption..|].
    intros a' w' Hin' Hfree' Hle'.
    apply (Hbest (a', w') Hin'). unfold fits. simpl.
    rewrite Hfree'. now apply Z.leb_le.
  - destruct Hsp as [_ Hall]. specialize (Hall b Hb).
    unfold fits in Hall. rewrite Hbf in Hall. simpl in Hall. lia.
Qed.

(** ** Rounding and splitting *)

(** For a request of at most [INT_MAX - 11] bytes, [balloc] needs the
    requested size plus the header rounded up to a multiple of 8.  When the
    chosen free block leaves at least header size plus 8 bytes, the block is
    split into an allocated block of the needed size and a free block of the
    leftover size with its header and its footer; otherwise the whole block
    is allocated and keeps its size. *)
Theorem balloc_rounds_and_splits (s' : state) (p : Z) :
  balloc s size = Some (p, s') -> p <> NULL ->
  let needed := rounded_size size in
  let fit := p - headerSize in
  needed mod 8 = 0 /\
  size + headerSize <= needed < size + headerSize + 8 /\
  exists w,
    In (fit, w) bs /\ is_free w = true /\ needed <= size_of w /\
    if headerSize + 8 <=? size_of w - needed then
      (exists hw, load s' fit = Some hw /\
                  size_of hw = needed /\ a_bit hw = 1) /\
      (exists rw, load s' (fit + needed) = Some rw /\
                  size_of rw = size_of w - needed /\ a_bit rw = 0) /\
      load s' (fit + size_of w - headerSize) = Some (size_of w - needed)
    else
      exists hw, load s' fit = Some hw /\
                 size_of hw = size_of w /\ a_bit hw = 1.
Proof.
  intros Hb Hp needed fit. pose proof Hsize as Hs.
  destruct (balloc_inv _ _ Hb Hp)
    as (fit' & w & nw & -> & _ & Hin & Hfit & Hl & Hnl & ->).
  destruct (rounded_size_spec size Hs) as (_ & Hr8 & Hrb).
  destruct (heap_ok_block _ _ _ _ Hok Hin) as (_ & Hw8 & _).
  destruct (walk_In _ _ _ (heap_ok_walk _ _ Hok) _ _ Hin) as (_ & Hpos & _).
  unfold fits in Hfit. simpl in Hfit. apply andb_true_iff in Hfit.
  destruct Hfit as [Hfree Hle]. apply Z.leb_le in Hle.
  destruct (load_some _ _ _ Hl) as [Hv _].
  destruct (load_some _ _ _ Hnl) as [Hnv _].
  subst fit needed. replace (fit' + headerSize - headerSize) with fit' by lia.
  split; [assumption|]. split; [assumption|].
  exists w. repeat split; try assumption.
  set (r := rounded_size size) in *. unfold headerSize in *.
  apply valid_access_bounds in Hnv.
  pose proof (proj1 (valid_access_bounds _ _) Hv) as Hvb.
  destruct (Z.leb_spec (4 + 8) (size_of w - r)) as [Hsplit | Hwhole].
  - repeat split.
    + eexists. split; [apply load_alloc_split_header; [assumption|lia]|].
      rewrite lor_alloc_header by zdm.
      destruct (p_bit_cases w) as [-> | ->]; bits; zdm.
    + eexists. split; [apply load_alloc_split_rest; valid|].
      bits; zdm.
    + apply load_alloc_split_footer; unfold headerSize; [valid|lia..].
  - eexists. split; [apply load_alloc_whole_header; assumption|].
    split; [apply size_of_lor_1|apply a_bit_lor_1].
Qed.

(** ** Alignment and payload *)

(** On a well-formed heap (block sizes multiples of 8, [heap_start]
    4 bytes past a multiple of 8, so that every header is at an address
    congruent to 4 modulo 8) the pointer returned by a successful [balloc]
    for at most [INT_MAX - 11] bytes is a multiple of 8, it follows the
    header of an allocated block that lies inside the mapped region, and
    that block has at least the requested number of payload bytes after its
    header. *)
Theorem balloc_pointer_aligned (s' : state) (p : Z) :
  balloc s size = Some (p, s') -> p <> NULL ->
  p mod 8 = 0 /\
  exists hw,
    load s' (p - headerSize) = Some hw /\ a_bit hw = 1 /\
    size <= size_of hw - headerSize /\
    map_lo s' <= p - headerSize /\
    p - headerSize + size_of hw + 4 <= map_hi s'.
Proof.
  intros Hb Hp. pose proof Hsize as Hs.
  destruct (rounded_size_spec size Hs) as (_ & Hr8 & Hrb).
  destruct (balloc_inv _ _ Hb Hp)
    as (fit & w & nw & -> & _ & Hin & Hfit & Hl & Hnl & Hs').
  destruct (heap_ok_block _ _ _ _ Hok Hin) as (_ & Hw8 & Hm).
  destruct (walk_In _ _ _ (heap_ok_walk _ _ Hok) _ _ Hin) as (_ & Hpos & _).
  unfold fits in Hfit. simpl in Hfit. apply andb_true_iff in Hfit.
  destruct Hfit as [Hfree Hle]. apply Z.leb_le in Hle.
  destruct (load_some _ _ _ Hl) as [Hv _].
  destruct (load_some _ _ _ Hnl) as [Hnv _].
  pose proof (proj1 (valid_access_bounds _ _) Hv) as Hvb.
  apply valid_access_bounds in Hnv.
  assert (Hlo : map_lo s' = map_lo s /\ map_hi s' = map_hi s).
  { subst s'. destruct (_ <=? _); split; reflexivity. }
  destruct Hlo as [-> ->].
  replace (fit + headerSize - headerSize) with fit in * by lia.
  unfold headerSize in *. split; [zdm|].
  set (r := rounded_size size) in *.
  destruct (Z.leb_spec (4 + 8) (size_of w - r)) as [Hsplit | Hwhole];
    subst s'.
  - eexists. split; [apply load_alloc_split_header; [assumption|lia]|].
    rewrite lor_alloc_header by zdm.
    destruct (p_bit_cases w) as [-> | ->]; bits;
      (split; [zdm|split; [zdm|split; [lia|zdm]]]).
  - eexists. split; [apply load_alloc_whole_header; assumption|].
    rewrite size_of_lor_1. split; [apply a_bit_lor_1|]. lia.
Qed.

(** ** What a successful [balloc] writes *)

(** Apart from the header of the chosen block, the header and the footer
    of the remainder of a split, and the word that follows a block taken
    whole, every word keeps its value; the word that follows a block taken
    whole only has its previous-block bit set, whatever block or mark it
    is. *)
Lemma balloc_frame (s' : state) (p : Z) :
  balloc s size = Some (p, s') -> p <> NULL ->
  let fit := p - headerSize in
  let needed := rounded_size size in
  exists w,
    In (fit, w) bs /\
    if headerSize + 8 <=? size_of w - needed then
      forall x, x <> fit -> x <> fit + needed ->
                x <> fit + size_of w - headerSize ->
                mem s' x = mem s x
    else
      (forall x, x <> fit -> x <> fit + size_of w -> mem s' x = mem s x) /\
      mem s' (fit + size_of w) = Z.lor (mem s (fit + size_of w)) 2.
Proof.
  intros Hb Hp fit needed.
  destruct (balloc_inv _ _ Hb Hp)
    as (fit' & w & nw & -> & _ & Hin & _ & Hl & Hnl & ->).
  destruct (walk_In _ _ _ (heap_ok_walk _ _ Hok) _ _ Hin) as (_ & Hpos & _).
  subst fit needed.
  replace (fit' + headerSize - headerSize) with fit' by lia.
  exists w. split; [assumption|].
  destruct (headerSize + 8 <=? size_of w - rounded_size size).
  - intros x H1 H2 H3. unfold alloc_split. simpl.
    destruct (Z.eqb_spec x (fit' + rounded_size size)); [contradiction|].
    destruct (Z.eqb_spec x fit'); [contradiction|].
    destruct (Z.eqb_spec x (fit' + size_of w - headerSize));
      [contradiction|reflexivity].
  - unfold alloc_whole. simpl. split.
    + intros x H1 H2.
      destruct (Z.eqb_spec x (fit' + size_of w)); [contradiction|].
      destruct (Z.eqb_spec x fit'); [contradiction|reflexivity].
    + rewrite Z.eqb_refl. apply load_some in Hnl. destruct Hnl as [_ <-].
      reflexivity.
Qed.

End BallocOnHeap.

Lemma balloc_selects_best_fit_witness :
  exists fit w s',
    balloc fragmented_heap 20 = Some (fit + headerSize, s') /\
    In (fit, w)
       [(1048580, 40); (1048620, 11); (1048628, 24); (1048652, 11);
        (1048660, 32); (1048692, 11); (1048700, 3970)] /\
    is_free w = true /\ rounded_size 20 <= size_of w /\
    forall a' w',
      In (a', w')
         [(1048580, 40); (1048620, 11); (1048628, 24); (1048652, 11);
          (1048660, 32); (1048692, 11); (1048700, 3970)] ->
      is_free w' = true -> rounded_size 20 <= size_of w' ->
      size_of w < size_of w' \/ (size_of w = size_of w' /\ fit <= a').
Proof.
  apply (balloc_selects_best_fit fragmented_heap).
  - compute_heap_ok.
  - unfold Int.max_signed. lia.
  - exists (1048628, 24). repeat split; [simpl; tauto|].
    vm_compute. discriminate.
Defined.

Lemma balloc_rounds_and_splits_witness :
  let s := fragmented_heap in
  let p := 1048632 in
  let s' := state_of ('(_, s') <- balloc s 20 ;; Some s') in
  rounded_size 20 mod 8 = 0 /\
  20 + headerSize <= rounded_size 20 < 20 + headerSize + 8 /\
  exists w,
    In (p - headerSize, w)
       [(1048580, 40); (1048620, 11); (1048628, 24); (1048652, 11);
        (1048660, 32); (1048692, 11); (1048700, 3970)] /\
    is_free w = true /\ rounded_size 20 <= size_of w /\
    if headerSize + 8 <=? size_of w - rounded_size 20 then
      (exists hw, load s' (p - headerSize) = Some hw /\
                  size_of hw = rounded_size 20 /\ a_bit hw = 1) /\
      (exists rw, load s' (p - headerSize + rounded_size 20) = Some rw /\
                  size_of rw = size_of w - rounded_size 20 /\ a_bit rw = 0) /\
      load s' (p - headerSize + size_of w - headerSize)
      = Some (size_of w - rounded_size 20)
    else
      exists hw, load s' (p - headerSize) = Some hw /\
                 size_of hw = size_of w /\ a_bit hw = 1.
Proof.
  apply (balloc_rounds_and_splits fragmented_heap).
  - compute_heap_ok.
  - unfold Int.max_signed. lia.
  - vm_compute. reflexivity.
  - vm_compute. discriminate.
Defined.

Lemma balloc_pointer_aligned_witness :
  let s' := state_of ('(_, s') <- balloc fresh_heap 100 ;; Some s') in
  let p := 1048584 in
  p mod 8 = 0 /\
  exists hw,
    load s' (p - headerSize) = Some hw /\ a_bit hw = 1 /\
    100 <= size_of hw - headerSize /\
    map_lo s' <= p - headerSize /\
    p - headerSize + size_of hw + 4 <= map_hi s'.
Proof.
  apply (balloc_pointer_aligned fresh_heap [(1048580, 4090)] 100).
  - compute_heap_ok.
  - unfold Int.max_signed. lia.
  - vm_compute. reflexivity.
  - vm_compute. discriminate.
Defined.

(** With free blocks of 40, 24 and 32 bytes a request for 20 bytes, which
    needs 24, is served from the block of 24 bytes at 1048628; a request
    for 28 bytes from the block of 32 bytes at 1048660. *)
Example best_fit_of_40_24_32 :
  heap_blocks fragmented_heap
  = Some [(1048580, 40); (1048620, 11); (1048628, 24); (1048652, 11);
          (1048660, 32); (1048692, 11); (1048700, 3970)] /\
  option_map fst (balloc fragmented_heap 20) = Some (1048628 + headerSize) /\
  option_map fst (balloc fragmented_heap 28) = Some (1048660 + headerSize).
Proof. compute_conj. Qed.

(** With two free blocks of 24 bytes the one at the lower address is
    taken. *)
Example best_fit_tie :
  heap_blocks tie_heap
  = Some [(1048580, 24); (1048604, 11); (1048612, 24); (1048636, 11);
          (1048644, 4026)] /\
  option_map fst (balloc tie_heap 20) = Some (1048580 + headerSize).
Proof. compute_conj. Qed.

(** ** Failing requests *)

(** [balloc] fails without touching the region: a request of size less
    than 1 returns [NULL] (invalid size), and on a well-formed heap a request
    of at most [INT_MAX - 11] bytes whose needed size exceeds the size of
    every free block returns [NULL] (out of memory); in both cases the state
    it returns is the state it was given, so every header, footer and the
    end mark are as before. *)
Theorem balloc_failure_leaves_region (s : state) (size : Z) :
  (size < 1 -> balloc s size = Some (NULL, s)) /\
  (forall bs,
      heap_ok s bs -> 1 <= size <= Int.max_signed - 11 ->
      (forall a w, In (a, w) bs -> is_free w = true ->
                   size_of w < rounded_size size) ->
      balloc s size = Some (NULL, s)).
Proof.
  split; [apply balloc_small|].
  intros bs Hok Hs Hall. pose proof (heap_ok_walk _ _ Hok) as Hw.
  apply (balloc_none s size bs Hw); [apply Hok|lia|].
  pose proof (scan_walk s (rounded_size size) _ bs Hw None
                ltac:(discriminate)) as Hsp.
  destruct (scan (rounded_size size) bs None) as [[fit w]|]; [|reflexivity].
  destruct Hsp as ([? | Hin] & Hfit & _); [discriminate|].
  unfold fits in Hfit. simpl in Hfit. apply andb_true_iff in Hfit.
  destruct Hfit as [Hfree Hle]. apply Z.leb_le in Hle.
  specialize (Hall _ _ Hin Hfree). lia.
Qed.

Lemma balloc_failure_leaves_region_witness :
  balloc fragmented_heap 0 = Some (NULL, fragmented_heap) /\
  balloc fragmented_heap 4000 = Some (NULL, fragmented_heap).
Proof.
  split.
  - apply (proj1 (balloc_failure_leaves_region fragmented_heap 0)). lia.
  - apply (proj2 (balloc_failure_leaves_region fragmented_heap 4000)
                 [(1048580, 40); (1048620, 11); (1048628, 24); (1048652, 11);
                  (1048660, 32); (1048692, 11); (1048700, 3970)]).
    + compute_heap_ok.
    + unfold Int.max_signed. lia.
    + intros a w Hin Hfree.
      repeat (destruct Hin as [[= <- <-] | Hin];
              [first [ discriminate Hfree | vm_compute; reflexivity ]|]).
      contradiction.
Defined.

(** ** Requests above [INT_MAX - 11] *)

(** Above [INT_MAX - 11] the sum [size + headerSize + 7] does not fit an
    [int]: what [balloc] takes for the rounded size is negative. *)
Lemma rounded_size_wraps (size : Z) :
  Int.max_signed - 11 < size <= Int.max_signed ->
  rounded_size size < 0 /\ rounded_size size mod 8 = 0.
Proof.
  unfold rounded_size, Int.add, Int.wrap, Int.max_signed, headerSize.
  intros H. rewrite land_lnot7. split; zdm.
Qed.

Lemma rounded_size_wraps_witness :
  rounded_size 2147483640 < 0 /\ rounded_size 2147483640 mod 8 = 0.
Proof.
  apply (rounded_size_wraps 2147483640). vm_compute.
  split; [reflexivity|discriminate].
Defined.

(** C6 fails on the code.  [balloc] computes the needed size in [int]: for
    a request of [INT_MAX] bytes the sum of the size, the header and 7 wraps
    around, and the needed size comes out as -2147483640 instead of the size
    plus the header rounded up to a multiple of 8.  Every free block is large
    enough for it: [balloc] hands out the block of 4088 bytes whole. *)
Theorem balloc_rounding_wraps :
  rounded_size 2147483647 = -2147483640 /\
  rounded_size 2147483647 < 2147483647 + headerSize /\
  best_block fresh_heap (rounded_size 2147483647) = Some 1048580 /\
  balloc fresh_heap 2147483647 = Some (1048584, oversized_heap) /\
  load fresh_heap 1048580 = Some 4090 /\
  load oversized_heap 1048580 = Some 4091 /\
  size_of 4091 = 4088 /\ a_bit 4091 = 1.
Proof. compute_conj. Qed.

(** C8 fails on the code.  The only free block of the fresh heap has 4088
    bytes, fewer than a request of [INT_MAX] bytes needs, yet [balloc] does
    not return [NULL]: it returns 1048584, marks the block allocated and
    sets the previous-block bit of the end mark. *)
Theorem balloc_serves_oversized_request :
  heap_blocks fresh_heap = Some [(1048580, 4090)] /\
  size_of 4090 = 4088 /\ 4088 < 2147483647 + headerSize /\
  balloc fresh_heap 2147483647 = Some (1048584, oversized_heap) /\
  (1048584 =? NULL) = false /\
  load fresh_heap 1048580 = Some 4090 /\
  load oversized_heap 1048580 = Some 4091 /\
  load fresh_heap 1052668 = Some 1 /\
  load oversized_heap 1052668 = Some 3.
Proof. compute_conj. Qed.

(** C9 fails on the code.  For a request of [INT_MAX] bytes [balloc]
    returns the pointer 1048584 into a block of 4088 bytes: behind the
    header there are 4084 payload bytes, not the 2147483647 requested, and
    the mapping ends at 1052672. *)
Theorem balloc_payload_too_small :
  balloc fresh_heap 2147483647 = Some (1048584, oversized_heap) /\
  load oversized_heap (1048584 - headerSize) = Some 4091 /\
  a_bit 4091 = 1 /\ size_of 4091 - headerSize = 4084 /\
  4084 < 2147483647 /\
  map_hi oversized_heap = 1052672 /\
  1052672 < 1048584 + 2147483647.
Proof. compute_conj. Qed.

(** ** [balloc] keeps the heap well formed *)

Lemma seg_range (s : state) (a e : Z) (bs : list (Z * Z)) :
  seg s a bs e -> a <= e /\ forall b, In b bs -> a <= fst b < e.
Proof.
  induction 1 as [a | a w e bs Hl Hs Hseg [IH1 IH2]].
  - split; [lia|contradiction].
  - split; [lia|]. intros b [<- | Hb]; simpl; [lia|].
    specialize (IH2 b Hb). lia.
Qed.

Lemma seg_total (s : state) (a e : Z) (bs : list (Z * Z)) :
  seg s a bs e -> e = a + total bs.
Proof.
  induction 1 as [a | a w e bs Hl Hs Hseg IH]; simpl; lia.
Qed.

Lemma total_app (bs1 bs2 : list (Z * Z)) :
  total (bs1 ++ bs2) = total bs1 + total bs2.
Proof. induction bs1 as [|b bs1 IH]; simpl; lia. Qed.

Lemma walk_split (s : state) (pre post : list (Z * Z)) (b : Z * Z) :
  forall a, walk s a (pre ++ b :: post) ->
            seg s a pre (fst b) /\ walk s (fst b) (b :: post).
Proof.
  induction pre as [|c pre IH]; intros a H; simpl in H.
  - inversion H; subst. simpl. split; [constructor|assumption].
  - inversion H; subst. destruct (IH _ H5) as [Hseg Hw].
    split; [econstructor; eauto|assumption].
Qed.

Lemma walk_tail (s : state) (a : Z) (b : Z * Z) (post : list (Z * Z)) :
  walk s a (b :: post) -> walk s (fst b + size_of (snd b)) post.
Proof. intros H. inversion H; subst. assumption. Qed.

Lemma seg_walk (s : state) (a e : Z) (pre post : list (Z * Z)) :
  seg s a pre e -> walk s e post -> walk s a (pre ++ post).
Proof.
  induction 1 as [a | a w e bs Hl Hs Hseg IH]; intros Hw; simpl.
  - assumption.
  - econstructor; eauto.
Qed.

(** A store outside a stretch of blocks does not change the stretch. *)
Lemma seg_upd (s : state) (a e x v : Z) (bs : list (Z * Z)) :
  seg s a bs e -> x < a \/ e <= x -> seg (upd s x v) a bs e.
Proof.
  induction 1 as [a | a w e bs Hl Hs Hseg IH]; intros Hx.
  - constructor.
  - pose proof (seg_range _ _ _ _ Hseg) as [Hae _].
    econstructor; [rewrite load_upd_other by lia; eassumption|assumption|].
    apply IH. lia.
Qed.

(** A store below the start of a scan does not change the scan. *)
Lemma walk_upd_below (s : state) (a x v : Z) (bs : list (Z * Z)) :
  walk s a bs -> x < a -> walk (upd s x v) a bs.
Proof.
  induction 1 as [a w Hl Hs | a w bs Hl Hs Hw IH]; intros Hx.
  - eapply walk_end; [rewrite load_upd_other by lia; eassumption|assumption].
  - eapply walk_cons; [rewrite load_upd_other by lia; eassumption|lia|].
    apply IH. lia.
Qed.

(** Setting the previous-block bit of the word at the start of a scan. *)
Lemma walk_set_p_bit (s : state) (a nw : Z) (bs : list (Z * Z)) :
  walk s a bs -> load s a = Some nw ->
  exists bs',
    walk (upd s a (Z.lor nw 2)) a bs' /\ total bs' = total bs /\
    (forallb block_ok bs = true -> forallb block_ok bs' = true).
Proof.
  intros Hw Hl. destruct (load_some _ _ _ Hl) as [Hv _].
  inversion Hw as [a' w Hl' Hs | a' w bs0 Hl' Hs Hw0]; subst;
    rewrite Hl in Hl'; injection Hl' as <-.
  - exists []. split; [|split; [reflexivity|auto]].
    eapply walk_end; [apply load_upd_same; assumption|].
    now rewrite size_of_lor_2.
  - exists ((a, Z.lor nw 2) :: bs0). split; [|split].
    + eapply walk_cons; [apply load_upd_same; assumption
                        |now rewrite size_of_lor_2|].
      rewrite size_of_lor_2. apply walk_upd_below; [assumption|lia].
    + simpl. now rewrite size_of_lor_2.
    + simpl. intros H. apply andb_true_iff in H. destruct H as [Hb Hr].
      rewrite Hr, andb_true_r. unfold block_ok in *. simpl snd in *.
      apply andb_true_iff in Hb. destruct Hb as [H1 H2].
      rewrite size_of_lor_2, H2, andb_true_r.
      apply in_rangeb_true. apply in_rangeb_true in H1.
      unfold Int.in_range, Int.min_signed, Int.max_signed in *.
      rewrite lor_2. zdm.
Qed.

Lemma block_ok_intro (a w : Z) :
  - 2 ^ 31 <= w <= 2 ^ 31 - 1 -> size_of w mod 8 = 0 ->
  block_ok (a, w) = true.
Proof.
  intros Hr Hs. unfold block_ok. simpl snd.
  apply andb_true_iff. split; [now apply in_rangeb_true|now apply Z.eqb_eq].
Qed.

Lemma forallb_block_ok_app (bs1 bs2 : list (Z * Z)) :
  forallb block_ok (bs1 ++ bs2) = true <->
  forallb block_ok bs1 = true /\ forallb block_ok bs2 = true.
Proof. rewrite forallb_app. apply andb_true_iff. Qed.

(** A successful or failed [balloc] on a well-formed heap leaves a
    well-formed heap whose blocks have the same total size. *)
Lemma balloc_heap_ok (s s' : state) (bs : list (Z * Z)) (size p : Z) :
  heap_ok s bs -> size <= Int.max_signed - 11 ->
  balloc s size = Some (p, s') ->
  same_frame s s' /\
  exists bs', heap_ok s' bs' /\ total bs' = total bs.
Proof.
  intros Hok Hs Hb.
  destruct (Z.eq_dec p NULL) as [-> | Hp].
  { (* a failed request returns the state it was given *)
    assert (s' = s) as ->.
    { destruct (Z.lt_ge_cases size 1) as [Hlt | Hge].
      - rewrite (balloc_small _ _ Hlt) in Hb. now injection Hb.
      - pose proof (heap_ok_walk _ _ Hok) as Hw.
        assert (Hhs : 0 < heap_start s) by apply Hok.
        destruct (scan (rounded_size size) bs None) as [[fit w]|] eqn:Hsc.
        + pose proof (scan_walk s (rounded_size size) _ bs Hw None
                        ltac:(discriminate)) as Hsp.
          rewrite Hsc in Hsp.
          destruct Hsp as ([? | Hin] & _); [discriminate|].
          destruct (heap_ok_block _ _ _ _ Hok Hin) as (Hr & _).
          destruct (walk_In _ _ _ Hw _ _ Hin) as (_ & _ & Hge' & _).
          destruct (balloc_some s size bs fit w Hw Hhs (conj Hge Hs) Hsc Hr)
            as (nw & _ & Heq).
          rewrite Heq in Hb. injection Hb as Hb _.
          unfold NULL, headerSize in Hb. lia.
        + rewrite (balloc_none s size bs Hw Hhs Hge Hsc) in Hb.
          now injection Hb. }
    split; [apply same_frame_refl|]. now exists bs. }
  assert (Hs1 : 1 <= size).
  { destruct (Z.lt_ge_cases size 1) as [Hlt | ?]; [|assumption].
    rewrite (balloc_small _ _ Hlt) in Hb. injection Hb as <- <-.
    contradiction. }
  destruct (balloc_inv _ _ _ Hok (conj Hs1 Hs) _ _ Hb Hp)
    as (fit & w & nw & -> & _ & Hin & Hfit & Hl & Hnl & Hs').
  destruct (rounded_size_spec size (conj Hs1 Hs)) as (_ & Hr8 & Hrb).
  destruct (heap_ok_block _ _ _ _ Hok Hin) as (Hrw & Hw8 & Hm).
  pose proof (heap_ok_walk _ _ Hok) as Hw.
  destruct (walk_In _ _ _ Hw _ _ Hin) as (_ & Hpos & _).
  unfold fits in Hfit. simpl in Hfit. apply andb_true_iff in Hfit.
  destruct Hfit as [Hfree Hle]. apply Z.leb_le in Hle.
  unfold is_free in Hfree. apply Z.eqb_eq in Hfree.
  destruct (load_some _ _ _ Hl) as [Hv _].
  destruct (load_some _ _ _ Hnl) as [Hnv _].
  pose proof (proj1 (valid_access_bounds _ _) Hv) as Hvb.
  pose proof (proj1 (valid_access_bounds _ _) Hnv) as Hnvb.
  destruct Hok as (_ & Hall & Hhs & Hhs8).
  destruct (in_split _ _ Hin) as (pre & post & ->).
  destruct (walk_split _ _ _ _ _ Hw) as [Hseg Hwfit]. simpl fst in *.
  pose proof (walk_tail _ _ _ _ Hwfit) as Hwpost. simpl in Hwpost.
  apply forallb_block_ok_app in Hall. destruct Hall as [Hpre Hrest].
  simpl in Hrest. apply andb_true_iff in Hrest.
  destruct Hrest as [_ Hpost].
  set (r := rounded_size size) in *. unfold headerSize in *.
  unfold Int.in_range, Int.min_signed, Int.max_signed in Hrw.
  assert (Hframe : same_frame s s').
  { subst s'. destruct (_ <=? _); unfold same_frame; auto. }
  split; [assumption|].
  assert (Hfin : forall mid post',
             walk s' fit (mid ++ post') ->
             total mid = size_of w -> total post' = total post ->
             forallb block_ok mid = true ->
             forallb block_ok post' = true ->
             seg s' (heap_start s) pre fit ->
             exists bs', heap_ok s' bs' /\
                         total bs' = total (pre ++ (fit, w) :: post)).
  { intros mid post' H1 H2 H3 H4 H5 H6.
    exists (pre ++ mid ++ post'). split.
    - unfold heap_ok. destruct Hframe as (_ & _ & Ehs & _).
      rewrite heap_blocks_walk, Ehs.
      split; [|split; [|split; assumption]].
      + eapply seg_walk; eassumption.
      + rewrite !forallb_app, Hpre, H4, H5. reflexivity.
    - rewrite !total_app. simpl. lia. }
  destruct (Z.leb_spec (4 + 8) (size_of w - r)) as [Hsplit | Hwhole];
    subst s'.
  - (* split: the block becomes an allocated and a free block *)
    unfold alloc_split, headerSize in *.
    set (hdr := Z.lor (Z.lor r 1) (p_bit w)) in *.
    assert (Hhdr : size_of hdr = r /\ - 2 ^ 31 <= hdr <= 2 ^ 31 - 1).
    { subst hdr. rewrite lor_alloc_header by zdm.
      pose proof (size_of_le w).
      destruct (p_bit_cases w) as [-> | ->]; bits; split; zdm. }
    destruct Hhdr as [Hhs' Hhr].
    assert (Hrem : size_of (Z.lor (size_of w - r) 2) = size_of w - r /\
                   - 2 ^ 31 <= Z.lor (size_of w - r) 2 <= 2 ^ 31 - 1).
    { pose proof (size_of_le w). bits. split; zdm. }
    destruct Hrem as [Hrs Hrr].
    apply (Hfin [(fit, hdr); (fit + r, Z.lor (size_of w - r) 2)] post).
    + eapply walk_cons.
      * rewrite load_upd_other by lia. apply load_upd_same. valid_upd.
      * lia.
      * rewrite Hhs'. eapply walk_cons.
        -- apply load_upd_same. valid_upd.
        -- lia.
        -- rewrite Hrs. replace (fit + r + (size_of w - r))
             with (fit + size_of w) by lia.
           repeat apply walk_upd_below; first [assumption | lia].
    + simpl. lia.
    + reflexivity.
    + simpl. rewrite !block_ok_intro; try reflexivity; try assumption.
      * rewrite Hrs. zdm.
      * rewrite Hhs'. assumption.
    + assumption.
    + repeat apply seg_upd; first [assumption | lia].
  - (* whole: the block keeps its size *)
    unfold alloc_whole in *.
    destruct (walk_set_p_bit (upd s fit (Z.lor w 1)) (fit + size_of w)
                             nw post)
      as (post' & Hwp & Htp & Hokp).
    { apply walk_upd_below; [assumption|lia]. }
    { rewrite load_upd_other by lia. assumption. }
    apply (Hfin [(fit, Z.lor w 1)] post').
    + eapply walk_cons.
      * rewrite load_upd_other by lia. apply load_upd_same. assumption.
      * now rewrite size_of_lor_1.
      * rewrite size_of_lor_1. assumption.
    + simpl. rewrite size_of_lor_1. lia.
    + assumption.
    + simpl. rewrite block_ok_intro; try reflexivity.
      * rewrite lor_1. rewrite a_bit_eq in Hfree. zdm.
      * now rewrite size_of_lor_1.
    + auto.
    + repeat apply seg_upd; first [assumption | lia].
Qed.

(** ** [init_heap] *)

(** The padded size computed by [init_heap] is the least multiple of the page
    size that holds the requested size. *)
Lemma padded_size (ps sz : Z) :
  0 < ps -> 0 < sz -> sz + ps <= Int.max_signed ->
  let padsize := Z.rem (Int.sub ps (Z.rem sz ps)) ps in
  exists k, Int.add sz padsize = ps * k /\ 1 <= k /\ ps * k < sz + ps.
Proof.
  intros Hps Hsz Hmax. unfold Int.max_signed in Hmax.
  rewrite (Z.rem_mod_nonneg sz ps) by lia.
  pose proof (Z.mod_pos_bound sz ps Hps) as Hm.
  unfold Int.sub. rewrite wrap_small
    by (unfold Int.in_range, Int.min_signed, Int.max_signed; lia).
  rewrite (Z.rem_mod_nonneg (ps - sz mod ps) ps) by lia.
  pose proof (Z.div_mod sz ps ltac:(lia)) as Hd.
  assert (Hq : 0 <= sz / ps) by (apply Z.div_pos; lia).
  destruct (Z.eq_dec (sz mod ps) 0) as [H0 | H0].
  - rewrite H0, Z.sub_0_r, Z.mod_same by lia. cbv zeta.
    exists (sz / ps). unfold Int.add. rewrite wrap_small
      by (unfold Int.in_range, Int.min_signed, Int.max_signed; lia).
    assert (sz / ps <> 0) by (intros E; rewrite E in Hd; lia).
    split; [lia|]. split; lia.
  - rewrite (Z.mod_small (ps - sz mod ps) ps) by lia. cbv zeta.
    exists (sz / ps + 1). unfold Int.add. rewrite wrap_small
      by (unfold Int.in_range, Int.min_signed, Int.max_signed; lia).
    split; [lia|]. split; lia.
Qed.

(** The state that a successful [init_heap] leaves: the region is mapped
    at [mmap_ptr], the first header is 4 bytes in and holds the usable size
    with the previous-block bit set, the footer holds the usable size and
    the end mark follows the block. *)
Lemma init_heap_state (e : os_env) (sizeOfRegion : Z) (s0 : state) :
  16 <= pagesize e -> pagesize e mod 8 = 0 ->
  0 <= mmap_ptr e -> mmap_ptr e mod 8 = 0 ->
  sizeOfRegion + pagesize e <= Int.max_signed ->
  init_heap e initial_state sizeOfRegion = Some (0, s0) ->
  let m := mmap_ptr e in
  let A := alloc_size s0 in
  map_lo s0 = m /\ map_hi s0 = m + A + 8 /\ heap_start s0 = m + 4 /\
  A mod 8 = 0 /\ 8 <= A /\ A + 8 <= Int.max_signed /\
  mem s0 (m + 4) = A + 2 /\ mem s0 (m + A) = A /\ mem s0 (m + 4 + A) = 1.
Proof.
  intros Hps Hps8 Hm Hm8 Hmax H. unfold init_heap in H.
  change (allocated_once initial_state =? 0) with true in H.
  cbv iota in H. simpl negb in H. cbv iota in H.
  destruct (Z.leb_spec sizeOfRegion 0) as [|Hsz]; [discriminate|].
  destruct (open_fd e =? -1); [discriminate|].
  destruct (mmap_ptr e =? MAP_FAILED); [discriminate|].
  destruct (padded_size (pagesize e) sizeOfRegion ltac:(lia) Hsz Hmax)
    as (k & Hk & Hk1 & Hk2).
  cbv zeta in Hk. cbn [alloc_size heap_start allocated_once set_globals
                       map_region initial_state mem map_lo map_hi] in H.
  rewrite Hk in H.
  assert (Hk8 : (pagesize e * k) mod 8 = 0).
  { rewrite <- Z.mul_mod_idemp_l, Hps8 by lia. reflexivity. }
  assert (Hk16 : 16 <= pagesize e * k) by nia.
  unfold Int.max_signed in *.
  unfold Int.sub in H. rewrite (wrap_small (pagesize e * k - 8)) in H
    by (unfold Int.in_range, Int.min_signed, Int.max_signed; lia).
  set (A := pagesize e * k - 8) in *.
  set (m := mmap_ptr e) in *.
  unfold store, load, valid_access in H.
  cbn [alloc_size heap_start allocated_once upd mem map_lo map_hi
       set_globals map_region initial_state] in H.
  assert (Hv : forall a, m <= a -> a <= m + A + 4 -> a mod 4 = 0 ->
               (m <=? a) && (a + 4 <=? m + pagesize e * k) && (a mod 4 =? 0)
               = true).
  { intros a H1 H2 H3. subst A. rewrite H3. lia. }
  rewrite (Hv (m + 4 + A)) in H by (first [lia | zdm]). cbn [bind] in H.
  cbn [alloc_size heap_start allocated_once upd mem map_lo map_hi
       set_globals map_region initial_state] in H.
  rewrite (Hv (m + 4)) in H by (first [lia | zdm]). cbn [bind] in H.
  cbn [alloc_size heap_start allocated_once upd mem map_lo map_hi
       set_globals map_region initial_state] in H.
  rewrite (Hv (m + 4)) in H by (first [lia | zdm]). cbn [bind] in H.
  cbn [alloc_size heap_start allocated_once upd mem map_lo map_hi
       set_globals map_region initial_state] in H.
  rewrite (Hv (m + 4 + A - 4)) in H by (first [lia | zdm]). cbn [bind] in H.
  injection H as <-.
  cbn [alloc_size heap_start allocated_once upd mem map_lo map_hi
       set_globals map_region initial_state].
  fold A. rewrite Z.eqb_refl.
  unfold Int.add. rewrite (wrap_small (A + 2))
    by (unfold Int.in_range, Int.min_signed, Int.max_signed; lia).
  repeat match goal with |- _ /\ _ => split end;
    try reflexivity; try (subst A; first [lia | zdm]);
    repeat match goal with
           | |- context [?x =? ?y] => destruct (Z.eqb_spec x y)
           end; subst A; lia.
Qed.

Lemma fresh_heap_ok (s0 : state) (m A : Z) :
  map_lo s0 = m -> map_hi s0 = m + A + 8 -> heap_start s0 = m + 4 ->
  0 <= m -> m mod 8 = 0 ->
  A mod 8 = 0 -> 8 <= A -> A + 8 <= Int.max_signed ->
  mem s0 (m + 4) = A + 2 -> mem s0 (m + 4 + A) = 1 ->
  heap_ok s0 [(m + 4, A + 2)].
Proof.
  intros Hlo Hhi Hhs Hm Hm8 HA8 HA HAmax Hm1 Hm3.
  assert (Hsz : size_of (A + 2) = A) by (bits; zdm).
  unfold heap_ok. rewrite heap_blocks_walk, Hhs.
  split; [|split; [|split; [lia|zdm]]].
  - eapply walk_cons.
    + rewrite load_valid by valid. now rewrite Hm1.
    + lia.
    + rewrite Hsz. eapply walk_end.
      * rewrite load_valid by valid. now rewrite Hm3.
      * vm_compute. discriminate.
  - simpl. unfold block_ok. simpl snd. rewrite Hsz, andb_true_r.
    apply andb_true_iff. split; [|now apply Z.eqb_eq].
    apply in_rangeb_true. unfold Int.in_range, Int.min_signed.
    unfold Int.max_signed in *. lia.
Qed.

(** After [init_heap] the heap is well formed and its single block has the
    size [alloc_size], the mapped size less the 4 bytes skipped before
    the first header and the 4 bytes of the end mark. *)
Lemma init_heap_ok (e : os_env) (sizeOfRegion : Z) (s0 : state) :
  16 <= pagesize e -> pagesize e mod 8 = 0 ->
  0 <= mmap_ptr e -> mmap_ptr e mod 8 = 0 ->
  sizeOfRegion + pagesize e <= Int.max_signed ->
  init_heap e initial_state sizeOfRegion = Some (0, s0) ->
  heap_ok s0 [(heap_start s0, alloc_size s0 + 2)] /\
  total [(heap_start s0, alloc_size s0 + 2)] = alloc_size s0 /\
  alloc_size s0 = map_hi s0 - map_lo s0 - 8.
Proof.
  intros Hps Hps8 Hmp Hm8 Hmax Hinit.
  destruct (init_heap_state e sizeOfRegion s0 Hps Hps8 Hmp Hm8 Hmax Hinit)
    as (Hlo & Hhi & Hhs & HA8 & HA & HAmax & Hm1 & Hm2 & Hm3).
  rewrite Hhs, Hlo, Hhi. split; [|split; [|lia]].
  - eapply fresh_heap_ok; eauto.
  - simpl. bits. zdm.
Qed.

(** The split of [balloc] conserves the total size: after [init_heap] and
    any series of requests, the blocks found by the scan add up to
    [alloc_size]. *)
Lemma balloc_all_total
    (e : os_env) (sizeOfRegion : Z) (s0 s : state) (sizes ps : list Z) :
  16 <= pagesize e -> pagesize e mod 8 = 0 ->
  0 <= mmap_ptr e -> mmap_ptr e mod 8 = 0 ->
  sizeOfRegion + pagesize e <= Int.max_signed ->
  init_heap e initial_state sizeOfRegion = Some (0, s0) ->
  Forall (fun size => size <= Int.max_signed - 11) sizes ->
  balloc_all s0 sizes = Some (ps, s) ->
  exists bs, heap_ok s bs /\ total bs = alloc_size s.
Proof.
  intros Hps Hps8 Hmp Hm8 Hmax Hinit Hsz Hrun.
  destruct (init_heap_ok e sizeOfRegion s0 Hps Hps8 Hmp Hm8 Hmax Hinit)
    as (Hok & Htot & _).
  clear Hinit.
  remember [(heap_start s0, alloc_size s0 + 2)] as bs0 eqn:E. clear E.
  revert s0 bs0 ps Hok Htot Hrun.
  induction Hsz as [|size sizes Hs Hsz IH]; intros s0 bs0 ps Hok Htot Hrun.
  - injection Hrun as <- <-. eauto.
  - simpl in Hrun.
    destruct (balloc s0 size) as [[p s1]|] eqn:Hb; [|discriminate].
    cbn [bind] in Hrun.
    destruct (balloc_all s1 sizes) as [[ps' s2]|] eqn:Hr; [|discriminate].
    cbn [bind] in Hrun. injection Hrun as <- <-.
    destruct (balloc_heap_ok _ _ _ _ _ Hok Hs Hb)
      as ((_ & _ & _ & Has) & bs1 & Hok1 & Htot1).
    eapply (IH s1 bs1); eauto. congruence.
Qed.

(** ** Validation in [bfree] *)

Lemma coalesce_prev_even (s s1 : state) (b bs b1 bs1 x : Z) :
  coalesce_prev s b bs = Some (s1, b1, bs1) -> bs mod 2 = 0 ->
  bs1 mod 2 = 0 /\ same_frame s s1 /\
  (mem s x mod 2 = 0 -> mem s1 x mod 2 = 0).
Proof.
  unfold coalesce_prev. intros H Hbs.
  destruct (load s (b - headerSize)) as [pbs|] eqn:Hpf; [|discriminate].
  cbn [bind] in H.
  destruct (heap_start s <=? b - headerSize);
    [|injection H as <- <- <-; auto with frame].
  destruct (load s (b - headerSize - pbs + headerSize)) as [pw|] eqn:Hph;
    [|discriminate].
  cbn [bind] in H.
  destruct (Z.land pw 1 =? 0);
    [|injection H as <- <- <-; auto with frame].
  destruct (store s _ _) as [sa|] eqn:Hsa; [|discriminate]. cbn [bind] in H.
  destruct (store sa _ _) as [sb|] eqn:Hsb; [|discriminate]. cbn [bind] in H.
  injection H as <- <- <-.
  apply load_some in Hpf, Hph. destruct Hpf as [Hpf _], Hph as [Hph _].
  apply valid_access_bounds in Hpf, Hph. unfold headerSize in *.
  assert (He : Int.add bs pbs mod 2 = 0).
  { unfold Int.add. rewrite wrap_mod2. zdm. }
  split; [assumption|]. split.
  - eapply same_frame_trans; eapply store_frame; eauto.
  - intros Hx. eapply store_even; [exact Hsb|assumption|].
    eapply store_even; eauto.
Qed.

Lemma coalesce_next_even (s s1 : state) (b bs x : Z) :
  coalesce_next s b bs = Some s1 -> bs mod 2 = 0 ->
  same_frame s s1 /\ (mem s x mod 2 = 0 -> mem s1 x mod 2 = 0).
Proof.
  unfold coalesce_next. intros H Hbs.
  destruct (load s (b + bs)) as [nw|]; [|discriminate]. cbn [bind] in H.
  destruct (negb (nw =? 1) && (Z.land nw 1 =? 0));
    [|injection H as <-; auto with frame].
  destruct (store s _ _) as [sa|] eqn:Hsa; [|discriminate]. cbn [bind] in H.
  assert (He : Int.add bs (Z.land nw (Z.lnot 3)) mod 2 = 0).
  { unfold Int.add. rewrite wrap_mod2, land_lnot3. zdm. }
  split.
  - eapply same_frame_trans; eapply store_frame; eauto.
  - intros Hx. eapply store_even; [exact H|assumption|].
    eapply store_even; eauto.
Qed.

Lemma coalesce_even (s s1 : state) (b x : Z) :
  coalesce s b = Some s1 ->
  same_frame s s1 /\ (mem s x mod 2 = 0 -> mem s1 x mod 2 = 0).
Proof.
  unfold coalesce. intros H.
  destruct (load s b) as [bw|]; [|discriminate]. cbn [bind] in H.
  destruct (coalesce_prev s b _) as [[[sa b1] bs1]|] eqn:Hp;
    [|discriminate].
  cbn [bind] in H.
  destruct (coalesce_prev_even _ _ _ _ _ _ x Hp) as (Hbs1 & Hf1 & He1);
    [rewrite land_lnot3; zdm|].
  destruct (coalesce_next_even _ _ _ _ x H Hbs1) as (Hf2 & He2).
  split; [eapply same_frame_trans; eauto|auto].
Qed.

(** What a successful [bfree] had checked and what it leaves behind. *)
Lemma bfree_success (s s1 : state) (ptr : Z) :
  bfree s ptr = Some (0, s1) ->
  ptr <> NULL /\ ptr mod 8 = 0 /\
  (exists w, load s (ptr - headerSize) = Some w /\ a_bit w = 1 /\
             heap_start s <= ptr - headerSize /\ w <> 1) /\
  same_frame s s1 /\ mem s1 (ptr - headerSize) mod 2 = 0.
Proof.
  unfold bfree. intros H.
  destruct (Z.eqb_spec ptr NULL); [discriminate|].
  destruct (Z.eqb_spec (Z.rem (Int.wrap ptr) 8) 0) as [Hr | Hr];
    simpl negb in H; cbv iota in H; [|discriminate].
  apply rem8_wrap in Hr.
  destruct (load s (ptr - headerSize)) as [w|] eqn:Hl; [|discriminate].
  cbn [bind] in H.
  destruct (Z.eqb_spec (Z.land w 1) 0) as [Ha | Ha]; [discriminate|].
  destruct (Z.ltb_spec (ptr - headerSize) (heap_start s)); [discriminate|].
  destruct (Z.eqb_spec w 1); [discriminate|]. simpl orb in H. cbv iota in H.
  destruct (store s _ _) as [sa|] eqn:Hsa; [|discriminate]. cbn [bind] in H.
  destruct (store sa _ _) as [sb|] eqn:Hsb; [|discriminate]. cbn [bind] in H.
  destruct (coalesce sb _) as [sc|] eqn:Hc; [|discriminate]. cbn [bind] in H.
  injection H as <-.
  destruct (coalesce_even _ _ _ (ptr - headerSize) Hc) as (Hf & He).
  split; [assumption|]. split; [assumption|]. split; [|split].
  - exists w. repeat split; try assumption; try lia.
    fold (a_bit w) in Ha. rewrite a_bit_eq in *. zdm.
  - eapply same_frame_trans; [eapply store_frame; eauto|].
    eapply same_frame_trans; [eapply store_frame; eauto|]. assumption.
  - apply He. eapply store_even; [exact Hsb|rewrite land_lnot3; zdm|].
    apply store_some in Hsa. destruct Hsa as [_ ->]. simpl.
    rewrite Z.eqb_refl. rewrite land_lnot3. zdm.
Qed.

(** [bfree] turns a pointer down before it writes: a null pointer, a
    pointer that is not a multiple of 8, a pointer whose header has its
    allocated bit clear and a pointer whose header holds the end mark 1 get
    -1 and the state they came with; and whenever [bfree] returns another
    value than 0, that value is -1 and the state is the one it was
    given. *)
Theorem bfree_rejections (s : state) (ptr : Z) :
  (ptr = NULL -> bfree s ptr = Some (-1, s)) /\
  (ptr <> NULL -> ptr mod 8 <> 0 -> bfree s ptr = Some (-1, s)) /\
  (forall w, ptr <> NULL -> ptr mod 8 = 0 ->
             load s (ptr - headerSize) = Some w -> a_bit w = 0 ->
             bfree s ptr = Some (-1, s)) /\
  (ptr <> NULL -> ptr mod 8 = 0 ->
   load s (ptr - headerSize) = Some 1 -> bfree s ptr = Some (-1, s)) /\
  (forall r s1, bfree s ptr = Some (r, s1) -> r <> 0 -> r = -1 /\ s1 = s).
Proof.
  assert (Hal : ptr mod 8 = 0 ->
            negb (Z.rem (Int.wrap ptr) 8 =? 0) = false).
  { intros H. apply rem8_wrap in H. now rewrite H. }
  repeat split.
  - intros ->. reflexivity.
  - intros Hn Hm. unfold bfree.
    destruct (Z.eqb_spec ptr NULL); [contradiction|].
    destruct (Z.eqb_spec (Z.rem (Int.wrap ptr) 8) 0) as [Hr | Hr];
      [|reflexivity].
    apply rem8_wrap in Hr. contradiction.
  - intros w Hn Hm Hl Ha. unfold bfree.
    destruct (Z.eqb_spec ptr NULL); [contradiction|].
    rewrite (Hal Hm), Hl. cbn [bind]. fold (a_bit w). now rewrite Ha.
  - intros Hn Hm Hl. unfold bfree.
    destruct (Z.eqb_spec ptr NULL); [contradiction|].
    rewrite (Hal Hm), Hl. cbn [bind]. now rewrite orb_true_r.
  - unfold bfree in H.
    repeat match type of H with
           | (if ?c then _ else _) = _ => destruct c
           | Some _ = Some _ => injection H as <- <-
           | bind ?m _ = _ => destruct m; cbn [bind] in H
           | None = _ => discriminate H
           end; try reflexivity; try contradiction.
  - unfold bfree in H.
    repeat match type of H with
           | (if ?c then _ else _) = _ => destruct c
           | Some _ = Some _ => injection H as <- <-
           | bind ?m _ = _ => destruct m; cbn [bind] in H
           | None = _ => discriminate H
           end; try reflexivity; try contradiction.
Qed.

Lemma bfree_rejections_witness :
  bfree recycled_heap NULL = Some (-1, recycled_heap) /\
  bfree recycled_heap 1048588 = Some (-1, recycled_heap) /\
  bfree recycled_heap 1048584 = Some (-1, recycled_heap) /\
  bfree recycled_heap 1052672 = Some (-1, recycled_heap) /\
  (-1 = -1 /\ recycled_heap = recycled_heap).
Proof.
  destruct (bfree_rejections recycled_heap NULL) as (H1 & _).
  destruct (bfree_rejections recycled_heap 1048588) as (_ & H2 & _).
  destruct (bfree_rejections recycled_heap 1048584)
    as (_ & _ & H3 & _ & H5).
  destruct (bfree_rejections recycled_heap 1052672) as (_ & _ & _ & H4 & _).
  assert (H3' : bfree recycled_heap 1048584 = Some (-1, recycled_heap)).
  { apply (H3 4088); vm_compute; (reflexivity || discriminate). }
  split; [apply H1; reflexivity|].
  split; [apply H2; vm_compute; discriminate|].
  split; [exact H3'|].
  split; [apply H4;
          [vm_compute; discriminate|vm_compute; reflexivity
          |vm_compute; reflexivity]|].
  apply (H5 (-1) recycled_heap); [exact H3'|discriminate].
Defined.

(** C5 fails on the code.  [bfree] takes a pointer for outside the heap
    when its header holds exactly 1.  Once [balloc] has handed out the last
    block whole the end mark holds 3, and [bfree] of the address behind the
    end mark, which it turns down on the fresh heap, returns 0: it writes 0
    over the end mark and over the last payload word of the allocated
    block.  And since the header is read before the range is tested,
    [bfree] of the start of the mapping reads the word before the mapping
    instead of turning the pointer down. *)
Theorem bfree_accepts_end_mark :
  balloc fresh_heap 4084 = Some (1048584, full_heap) /\
  heap_start full_heap + alloc_size full_heap = 1052668 /\
  bfree fresh_heap (1052668 + headerSize) = Some (-1, fresh_heap) /\
  load full_heap 1052668 = Some 3 /\
  load full_heap 1052664 = Some 4088 /\
  bfree full_heap (1052668 + headerSize) = Some (0, end_mark_freed_heap) /\
  load end_mark_freed_heap 1052668 = Some 0 /\
  load end_mark_freed_heap 1052664 = Some 0 /\
  map_lo fresh_heap = 1048576 /\
  bfree fresh_heap 1048576 = None.
Proof. compute_conj. Qed.

(** ** Status bits after [bfree] *)

(** C2 fails on the code.  After [init_heap(4096)], two allocations of 8
    bytes and the free of the first one, the first block is free (header
    16), yet the header of the second block is still 19: its previous-block
    bit says allocated.  The freed first block has lost its own
    previous-block bit, which [init_heap] had set. *)
Theorem bfree_keeps_stale_p_bit :
  init_heap os4096 initial_state 4096 = Some (0, fresh_heap) /\
  free_first_run = Some (0, free_first_heap) /\
  heap_blocks free_first_heap
  = Some [(1048580, 16); (1048596, 19); (1048612, 4058)] /\
  is_free 16 = true /\ p_bit 19 = 2 /\ p_bit 16 = 0.
Proof. compute_conj. Qed.

(** ** Coalescing *)

(** C3 fails on the code.  [coalesce] reads the word before the freed block
    as a footer even when the previous block is allocated.  In this run
    that word is the footer left behind by a block freed earlier, the
    previous header it points to lies inside the allocated block, and the
    merge with the following free block is written there instead of the
    header of the freed block: when [bfree] returns 0 the blocks at 1048596
    (8 bytes) and 1048604 (4064 bytes) are both free and adjacent. *)
Theorem bfree_leaves_adjacent_free_blocks :
  stale_footer_run = Some (0, stale_footer_heap) /\
  heap_blocks stale_footer_heap
  = Some [(1048580, 17); (1048596, 8); (1048604, 4066)] /\
  is_free 17 = false /\ is_free 8 = true /\ is_free 4066 = true /\
  1048596 + size_of 8 = 1048604.
Proof. compute_conj. Qed.

(** ** The end mark *)

(** One turn of the loop of [disp_heap] on a header other than the end
    mark: the walk moves on by the size of the block. *)
Lemma disp_heap_loop_next (s : state) (current w : Z) :
  load s current = Some w -> w <> 1 -> Int.in_range w ->
  forall fuel counter used_size free_size acc,
  exists counter' used_size' free_size' acc',
    disp_heap_loop (S fuel) s current counter used_size free_size acc
    = disp_heap_loop fuel s (current + size_of w)
                     counter' used_size' free_size' acc'.
Proof.
  intros Hl Hw Hr fuel counter used_size free_size acc.
  cbn [disp_heap_loop]. rewrite Hl.
  destruct (Z.eqb_spec w 1); [contradiction|].
  unfold Int.in_range, Int.min_signed, Int.max_signed in Hr.
  assert (Hsub : forall x k, - 2 ^ 31 <= x - k <= 2 ^ 31 - 1 ->
                             Int.sub x k = x - k).
  { intros x k Hx. unfold Int.sub. apply wrap_small.
    unfold Int.in_range, Int.min_signed, Int.max_signed. lia. }
  set (t1 := if negb (Z.land w 1 =? 0) then Int.sub w 1 else w).
  set (t2 := if negb (Z.land t1 2 =? 0) then Int.sub t1 2 else t1).
  assert (Ht1 : t1 = w - w mod 2).
  { subst t1. rewrite land_1.
    destruct (Z.eqb_spec (w mod 2) 0) as [E | E]; cbn [negb].
    - lia.
    - rewrite Hsub by zdm. zdm. }
  assert (Ht2 : t2 = size_of w).
  { subst t2. rewrite land_2, Ht1, size_of_eq.
    destruct (Z.eqb_spec ((w - w mod 2) mod 4 - (w - w mod 2) mod 2) 0)
      as [E | E]; cbn [negb].
    - zdm.
    - rewrite Hsub by zdm. zdm. }
  rewrite Ht2. eauto.
Qed.

(** On a word other than 1 whose size field is 0 the loop stays where it
    is. *)
Lemma disp_heap_loop_stuck (s : state) (current w : Z) :
  load s current = Some w -> w <> 1 -> size_of w = 0 ->
  Int.in_range w ->
  forall fuel counter used_size free_size acc,
    disp_heap_loop fuel s current counter used_size free_size acc
    = OutOfFuel.
Proof.
  intros Hl Hw Hs Hr.
  induction fuel as [|fuel IH]; intros; [reflexivity|].
  destruct (disp_heap_loop_next s current w Hl Hw Hr fuel counter
                                used_size free_size acc)
    as (c' & u' & f' & acc' & ->).
  rewrite Hs, Z.add_0_r. apply IH.
Qed.

(** C10 fails on the code.  [balloc] sets the previous-block bit of the word
    that follows the allocated block without testing for the end mark: when
    the last block is taken whole, the end mark changes from 1 to 3. *)
Theorem balloc_overwrites_end_mark :
  init_heap os4096 initial_state 4096 = Some (0, fresh_heap) /\
  balloc fresh_heap 4084 = Some (1048584, full_heap) /\
  heap_start fresh_heap + alloc_size fresh_heap = 1052668 /\
  load fresh_heap 1052668 = Some 1 /\
  load full_heap 1052668 = Some 3.
Proof. compute_conj. Qed.

(** C4 fails on the code.  Once [balloc] has turned the end mark into 3,
    the walk of [disp_heap], which stops only at a word equal to 1,
    never ends: there is no end mark to be found and
    no total to compare.  And since [coalesce] reads the last payload word
    of an allocated block as a footer, a value stored there by the caller
    makes [bfree] overwrite the header of a free block: the scan then sees
    blocks of 16 + 16 bytes where the region has 4088. *)
Theorem block_walk_loses_the_region :
  (balloc fresh_heap 4084 = Some (1048584, full_heap) /\
   forall fuel, disp_heap fuel full_heap = OutOfFuel) /\
  (payload_run = Some (0, payload_heap) /\
   heap_blocks payload_heap = Some [(1048580, 19); (1048596, 16)] /\
   total [(1048580, 19); (1048596, 16)] = 32 /\
   alloc_size payload_heap = 4088 /\
   forall fuel, disp_heap fuel payload_heap = OutOfFuel).
Proof.
  split.
  - split; [vm_compute; reflexivity|].
    intros [|fuel]; [reflexivity|].
    unfold disp_heap.
    replace (heap_start full_heap) with 1048580 by (vm_compute; reflexivity).
    destruct (disp_heap_loop_next full_heap 1048580 4091
                ltac:(vm_compute; reflexivity) ltac:(discriminate)
                ltac:(int_range) fuel 1 0 0 [])
      as (c' & u' & f' & acc' & ->).
    apply (disp_heap_loop_stuck _ _ 3);
      [vm_compute; reflexivity|discriminate|reflexivity|int_range].
  - split; [vm_compute; reflexivity|].
    split; [vm_compute; reflexivity|]. split; [vm_compute; reflexivity|].
    split; [vm_compute; reflexivity|].
    intros [|[|fuel]]; [reflexivity..|].
    unfold disp_heap.
    replace (heap_start payload_heap) with 1048580
      by (vm_compute; reflexivity).
    destruct (disp_heap_loop_next payload_heap 1048580 19
                ltac:(vm_compute; reflexivity) ltac:(discriminate)
                ltac:(int_range) (S fuel) 1 0 0 [])
      as (c' & u' & f' & acc' & ->).
    destruct (disp_heap_loop_next payload_heap (1048580 + size_of 19) 16
                ltac:(vm_compute; reflexivity) ltac:(discriminate)
                ltac:(int_range) fuel c' u' f' acc')
      as (c'' & u'' & f'' & acc'' & ->).
    apply (disp_heap_loop_stuck _ _ 0);
      [vm_compute; reflexivity|discriminate|reflexivity|int_range].
Qed.

(** ** Allocate, then free, on a fresh heap *)

(** [bfree] of the block at [heap_start]: there is no previous block to
    look at, the block is merged with the next block when that one is free
    and is not the end mark. *)
Lemma bfree_first_block (s : state) (w nw : Z) :
  let b := heap_start s in
  let sz := size_of w in
  0 < b -> (b + 4) mod 8 = 0 ->
  valid_access s (b - 4) = true ->
  load s b = Some w -> a_bit w = 1 -> 8 <= sz ->
  load s (b + sz) = Some nw ->
  Int.in_range (sz + size_of nw) ->
  (negb (nw =? 1) && (a_bit nw =? 0) = true ->
   valid_access s (b + sz + size_of nw - 4) = true) ->
  bfree s (b + headerSize) =
  Some (0, if negb (nw =? 1) && (a_bit nw =? 0)
           then merged_next (freed s b sz) b sz (size_of nw)
           else freed s b sz).
Proof.
  intros b sz Hb Hal Hpv Hl Ha Hsz Hnl Hr Hm.
  destruct (load_some _ _ _ Hl) as [Hv _].
  destruct (load_some _ _ _ Hnl) as [Hnv _].
  pose proof (proj1 (valid_access_bounds _ _) Hv) as Hvb.
  pose proof (proj1 (valid_access_bounds _ _) Hnv) as Hnvb.
  pose proof (proj1 (valid_access_bounds _ _) Hpv) as Hpvb.
  pose proof (size_of_mod4 w) as Hs4. fold sz in Hs4.
  assert (Hw1 : w <> 1).
  { intros ->. subst sz. vm_compute in Hsz. contradiction. }
  unfold bfree, headerSize.
  destruct (Z.eqb_spec (b + 4) NULL); [unfold NULL in *; lia|].
  replace (Z.rem (Int.wrap (b + 4)) 8 =? 0) with true
    by (symmetry; apply Z.eqb_eq, rem8_wrap; assumption).
  cbn [negb]. replace (b + 4 - 4) with b by lia.
  rewrite Hl. cbn [bind]. fold (a_bit w). rewrite Ha.
  change (1 =? 0) with false. cbv iota.
  fold b. rewrite Z.ltb_irrefl.
  destruct (Z.eqb_spec w 1); [contradiction|]. cbn [orb].
  fold (size_of w). fold sz.
  rewrite (store_valid s b) by assumption. cbn [bind].
  rewrite store_valid by valid_upd. cbn [bind].
  change (upd (upd s b sz) (b + sz - 4) sz) with (freed s b sz).
  assert (Hfl : forall x, x <> b -> x <> b + sz - 4 ->
                          load (freed s b sz) x = load s x).
  { intros x H1 H2. unfold freed, headerSize.
    now rewrite !load_upd_other by assumption. }
  assert (Hfb : load (freed s b sz) b = Some sz).
  { unfold freed, headerSize. rewrite load_upd_other by lia.
    now apply load_upd_same. }
  unfold coalesce. rewrite Hfb. cbn [bind].
  replace (Z.land sz (Z.lnot 3)) with sz by (rewrite land_lnot3; zdm).
  unfold coalesce_prev, headerSize.
  rewrite (Hfl (b - 4)) by lia.
  rewrite (load_valid s (b - 4)) by assumption. cbn [bind].
  change (heap_start (freed s b sz)) with b.
  destruct (Z.leb_spec b (b - 4)); [lia|]. cbn [bind].
  unfold coalesce_next, headerSize.
  rewrite (Hfl (b + sz)) by lia. rewrite Hnl. cbn [bind].
  fold (a_bit nw) (size_of nw).
  destruct (negb (nw =? 1) && (a_bit nw =? 0)); [|reflexivity].
  specialize (Hm eq_refl).
  unfold Int.add. rewrite (wrap_small _ Hr).
  rewrite store_valid by (unfold freed; valid_upd). cbn [bind].
  rewrite store_valid by (unfold freed; rewrite !valid_access_upd; exact Hm).
  reflexivity.
Qed.

(** On a freshly initialised region, a successful [balloc] for at most
    [INT_MAX - 11] bytes followed at once by [bfree] of the pointer it
    returned leaves a block list of one free block that spans the usable
    region [alloc_size], with a footer that holds the same size.  The header
    of the block holds [alloc_size], without the previous-block bit that
    [init_heap] had set. *)
Theorem alloc_free_restores_single_block
    (e : os_env) (sizeOfRegion n p : Z) (s0 s1 : state) :
  16 <= pagesize e -> pagesize e mod 8 = 0 ->
  0 <= mmap_ptr e -> mmap_ptr e mod 8 = 0 ->
  sizeOfRegion + pagesize e <= Int.max_signed ->
  init_heap e initial_state sizeOfRegion = Some (0, s0) ->
  n <= Int.max_signed - 11 ->
  balloc s0 n = Some (p, s1) -> p <> NULL ->
  exists s2,
    bfree s1 p = Some (0, s2) /\
    heap_start s2 = heap_start s0 /\ alloc_size s2 = alloc_size s0 /\
    heap_blocks s0 = Some [(heap_start s0, alloc_size s0 + 2)] /\
    heap_blocks s2 = Some [(heap_start s0, alloc_size s0)] /\
    size_of (alloc_size s0 + 2) = alloc_size s0 /\
    is_free (alloc_size s0 + 2) = true /\
    size_of (alloc_size s0) = alloc_size s0 /\
    is_free (alloc_size s0) = true /\
    load s0 (heap_start s0 + alloc_size s0 - headerSize)
    = Some (alloc_size s0) /\
    load s2 (heap_start s0 + alloc_size s0 - headerSize)
    = Some (alloc_size s0).
Proof.
  intros Hps Hps8 Hmp Hm8 Hmax Hinit Hn Hb Hp.
  destruct (init_heap_state e sizeOfRegion s0 Hps Hps8 Hmp Hm8 Hmax Hinit)
    as (Hlo & Hhi & Hhs & HA8 & HA & HAmax & Hm1 & Hm2 & Hm3).
  set (m := mmap_ptr e) in *. set (A := alloc_size s0) in *.
  assert (Hn1 : 1 <= n).
  { destruct (Z.lt_ge_cases n 1) as [Hlt | ?]; [|assumption].
    rewrite (balloc_small _ _ Hlt) in Hb. injection Hb as <- <-.
    contradiction. }
  pose proof (fresh_heap_ok s0 m A Hlo Hhi Hhs Hmp Hm8 HA8 HA HAmax Hm1 Hm3)
    as Hok.
  assert (Hsz : size_of (A + 2) = A) by (bits; zdm).
  assert (HszA : size_of A = A) by (bits; zdm).
  destruct (balloc_inv _ _ _ Hok (conj Hn1 Hn) _ _ Hb Hp)
    as (fit & w & nw & -> & _ & Hin & Hfit & Hl & Hnl & Hs1).
  destruct Hin as [[= <- <-] | []].
  rewrite Hsz in Hnl, Hs1.
  assert (nw = 1) as ->.
  { apply load_some in Hnl. destruct Hnl as [_ <-]. exact Hm3. }
  destruct (rounded_size_spec n (conj Hn1 Hn)) as (_ & Hr8 & Hrb).
  unfold fits in Hfit. simpl in Hfit. apply andb_true_iff in Hfit.
  destruct Hfit as [_ Hle]. apply Z.leb_le in Hle. rewrite Hsz in Hle.
  set (r := rounded_size n) in *. unfold headerSize in *.
  destruct (load_some _ _ _ Hl) as [Hv _].
  assert (Hfoot0 : load s0 (m + 4 + A - 4) = Some A).
  { rewrite load_valid by valid. f_equal. rewrite <- Hm2. f_equal. lia. }
  assert (Hfin : forall s2,
             heap_start s2 = m + 4 -> alloc_size s2 = A ->
             map_lo s2 = m -> map_hi s2 = m + A + 8 ->
             mem s2 (m + 4) = A -> mem s2 (m + 4 + A - 4) = A ->
             size_of (mem s2 (m + 4 + A)) = 0 ->
             bfree s1 (m + 4 + 4) = Some (0, s2) ->
             exists s2,
               bfree s1 (m + 4 + 4) = Some (0, s2) /\
               heap_start s2 = heap_start s0 /\ alloc_size s2 = A /\
               heap_blocks s0 = Some [(heap_start s0, A + 2)] /\
               heap_blocks s2 = Some [(heap_start s0, A)] /\
               size_of (A + 2) = A /\ is_free (A + 2) = true /\
               size_of A = A /\ is_free A = true /\
               load s0 (heap_start s0 + A - 4) = Some A /\
               load s2 (heap_start s0 + A - 4) = Some A).
  { intros s2 H1 H2 H3 H4 H5 H6 H7 H8. exists s2.
    rewrite Hhs.
    split; [assumption|]. split; [assumption|]. split; [assumption|].
    split; [exact (proj1 Hok)|].
    split.
    { rewrite heap_blocks_walk, H1. eapply walk_cons.
      - rewrite load_valid by valid. now rewrite H5.
      - lia.
      - rewrite HszA. eapply walk_end; [apply load_valid; valid|lia]. }
    split; [assumption|]. split; [unfold is_free; bits; apply Z.eqb_eq; zdm|].
    split; [assumption|]. split; [unfold is_free; bits; apply Z.eqb_eq; zdm|].
    split; [assumption|].
    rewrite load_valid by valid. now rewrite H6. }
  assert (Hfr1 : map_lo s1 = m /\ map_hi s1 = m + A + 8 /\
                 heap_start s1 = m + 4 /\ alloc_size s1 = A).
  { subst s1. destruct (_ <=? _); repeat split; assumption. }
  destruct Hfr1 as (Hlo1 & Hhi1 & Hhs1 & Has1).
  destruct (Z.leb_spec (4 + 8) (A - r)) as [Hsplit | Hwhole].
  - (* the block was split *)
    set (w1 := Z.lor (Z.lor r 1) (p_bit (A + 2))).
    assert (Hw1 : size_of w1 = r /\ a_bit w1 = 1).
    { subst w1. rewrite lor_alloc_header by zdm.
      destruct (p_bit_cases (A + 2)) as [-> | ->]; bits; split; zdm. }
    destruct Hw1 as [Hw1s Hw1a].
    set (nw1 := Z.lor (A - r) 2).
    assert (Hnw1 : size_of nw1 = A - r /\ a_bit nw1 = 0 /\ nw1 <> 1).
    { subst nw1. bits. repeat split; zdm. }
    destruct Hnw1 as (Hn1s & Hn1a & Hn1n).
    assert (Hl1 : load s1 (m + 4) = Some w1).
    { subst s1 w1. apply load_alloc_split_header; [assumption|lia]. }
    assert (Hl2 : load s1 (m + 4 + r) = Some nw1).
    { subst s1 nw1. rewrite <- Hsz at 2. apply load_alloc_split_rest. valid. }
    assert (Hbf : bfree s1 (m + 4 + 4) =
                  Some (0, merged_next (freed s1 (m + 4) r) (m + 4) r
                                       (A - r))).
    { pose proof (bfree_first_block s1 w1 nw1) as Hbf. cbv zeta in Hbf.
      rewrite Hhs1, Hw1s, Hn1s, Hn1a in Hbf.
      destruct (Z.eqb_spec nw1 1) as [|_]; [contradiction|].
      apply Hbf; clear Hbf; try assumption; try lia.
      - zdm.
      - apply valid_access_bounds. rewrite Hlo1, Hhi1.
        repeat split; first [lia | zdm].
      - zdm.
      - unfold Int.in_range, Int.min_signed, Int.max_signed in *. lia.
      - intros _. apply valid_access_bounds. rewrite Hlo1, Hhi1.
        repeat split; first [lia | zdm]. }
    apply (Hfin (merged_next (freed s1 (m + 4) r) (m + 4) r (A - r)));
      [exact Hhs1|exact Has1|exact Hlo1|exact Hhi1| | | |exact Hbf].
    + unfold merged_next, freed, headerSize. simpl mem.
      destruct (Z.eqb_spec (m + 4) (m + 4 + r + (A - r) - 4)); [lia|].
      rewrite Z.eqb_refl. lia.
    + unfold merged_next, freed, headerSize. simpl mem.
      destruct (Z.eqb_spec (m + 4 + A - 4) (m + 4 + r + (A - r) - 4));
        lia.
    + subst s1. unfold merged_next, freed, alloc_split, headerSize.
      simpl mem. rewrite Hsz.
      repeat match goal with
             | |- context [?x =? ?y] =>
               destruct (Z.eqb_spec x y); [lia|]
             end.
      rewrite Hm3. reflexivity.
  - (* the block was taken whole *)
    set (w1 := Z.lor (A + 2) 1).
    assert (Hw1 : size_of w1 = A /\ a_bit w1 = 1).
    { subst w1. bits. split; zdm. }
    destruct Hw1 as [Hw1s Hw1a].
    assert (Hl1 : load s1 (m + 4) = Some w1).
    { subst s1 w1. apply load_alloc_whole_header; [assumption|lia]. }
    assert (Hl2 : load s1 (m + 4 + A) = Some 3).
    { subst s1. unfold alloc_whole. rewrite Hsz.
      apply load_upd_same. valid_upd. }
    assert (Hbf : bfree s1 (m + 4 + 4) = Some (0, freed s1 (m + 4) A)).
    { pose proof (bfree_first_block s1 w1 3) as Hbf. cbv zeta in Hbf.
      rewrite Hhs1, Hw1s in Hbf.
      change (negb (3 =? 1) && (a_bit 3 =? 0)) with false in Hbf.
      apply Hbf; clear Hbf; try assumption; try lia.
      - zdm.
      - apply valid_access_bounds. rewrite Hlo1, Hhi1.
        repeat split; first [lia | zdm].
      - change (size_of 3) with 0.
        unfold Int.in_range, Int.min_signed, Int.max_signed in *. lia. }
    apply (Hfin (freed s1 (m + 4) A));
      [exact Hhs1|exact Has1|exact Hlo1|exact Hhi1| | | |exact Hbf].
    + unfold freed, headerSize. simpl mem.
      destruct (Z.eqb_spec (m + 4) (m + 4 + A - 4)); [lia|].
      now rewrite Z.eqb_refl.
    + unfold freed, headerSize. simpl mem. now rewrite Z.eqb_refl.
    + subst s1. unfold freed, alloc_whole, headerSize.
      simpl mem. rewrite Hsz.
      destruct (Z.eqb_spec (m + 4 + A) (m + 4 + A - 4)); [lia|].
      destruct (Z.eqb_spec (m + 4 + A) (m + 4)); [lia|].
      now rewrite Z.eqb_refl.
Qed.

Lemma alloc_free_restores_single_block_witness :
  exists s2,
    bfree hundred_heap 1048584 = Some (0, s2) /\
    heap_start s2 = heap_start fresh_heap /\
    alloc_size s2 = alloc_size fresh_heap /\
    heap_blocks fresh_heap
    = Some [(heap_start fresh_heap, alloc_size fresh_heap + 2)] /\
    heap_blocks s2
    = Some [(heap_start fresh_heap, alloc_size fresh_heap)] /\
    size_of (alloc_size fresh_heap + 2) = alloc_size fresh_heap /\
    is_free (alloc_size fresh_heap + 2) = true /\
    size_of (alloc_size fresh_heap) = alloc_size fresh_heap /\
    is_free (alloc_size fresh_heap) = true /\
    load fresh_heap (heap_start fresh_heap + alloc_size fresh_heap
                     - headerSize)
    = Some (alloc_size fresh_heap) /\
    load s2 (heap_start fresh_heap + alloc_size fresh_heap - headerSize)
    = Some (alloc_size fresh_heap).
Proof.
  apply (alloc_free_restores_single_block
           os4096 4096 100 1048584 fresh_heap hundred_heap).
  - vm_compute. discriminate.
  - vm_compute. reflexivity.
  - vm_compute. discriminate.
  - vm_compute. reflexivity.
  - vm_compute. discriminate.
  - vm_compute. reflexivity.
  - vm_compute. discriminate.
  - vm_compute. reflexivity.
  - vm_compute. discriminate.
Defined.

(** ** The region after [balloc] and [bfree] *)

(** C7 fails on the code.  After [init_heap(4096)], a request of 4084 bytes
    takes the only block whole; [bfree] of the pointer returns 0 and leaves
    one free block of 4088 bytes, but the region is not as [init_heap] left
    it: the header reads 4088 where [init_heap] wrote 4090 (the
    previous-block bit is gone, as it is after a request of 8 bytes), and
    the end mark reads 3 where [init_heap] wrote 1, so that [disp_heap],
    which listed the block of the fresh heap, does not come to an end. *)
Theorem alloc_free_changes_the_region :
  init_heap os4096 initial_state 4096 = Some (0, fresh_heap) /\
  balloc fresh_heap 4084 = Some (1048584, full_heap) /\
  bfree full_heap 1048584 = Some (0, full_recycled_heap) /\
  heap_blocks full_recycled_heap = Some [(1048580, 4088)] /\
  load fresh_heap 1048580 = Some 4090 /\
  load full_recycled_heap 1048580 = Some 4088 /\
  load recycled_heap 1048580 = Some 4088 /\
  load fresh_heap 1052668 = Some 1 /\
  load full_recycled_heap 1052668 = Some 3 /\
  disp_heap 2 fresh_heap
  = Done ([mkDesc 1 false true 1048580 1052667 4088], 0, 4088) /\
  forall fuel, disp_heap fuel full_recycled_heap = OutOfFuel.
Proof.
  repeat match goal with
         | |- _ = _ /\ _ => split; [vm_compute; reflexivity|]
         end.
  intros [|fuel]; [reflexivity|].
  unfold disp_heap.
  replace (heap_start full_recycled_heap) with 1048580
    by (vm_compute; reflexivity).
  destruct (disp_heap_loop_next full_recycled_heap 1048580 4088
              ltac:(vm_compute; reflexivity) ltac:(discriminate)
              ltac:(int_range) fuel 1 0 0 [])
    as (c' & u' & f' & acc' & ->).
  apply (disp_heap_loop_stuck _ _ 3);
    [vm_compute; reflexivity|discriminate|reflexivity|int_range].
Qed.

(** ** More on [init_heap] *)

Lemma store_globals (s s' : state) (a v : Z) :
  store s a v = Some s' ->
  heap_start s' = heap_start s /\ alloc_size s' = alloc_size s /\
  allocated_once s' = allocated_once s.
Proof.
  intros H. apply store_some in H. destruct H as [_ ->]. auto.
Qed.

(** What the success path of [init_heap] leaves in the globals, whatever the
    operating system answered. *)
Lemma init_heap_globals (e : os_env) (s s0 : state) (sizeOfRegion : Z) :
  init_heap e s sizeOfRegion = Some (0, s0) ->
  allocated_once s = 0 /\ 0 < sizeOfRegion /\
  allocated_once s0 = 1 /\ heap_start s0 = mmap_ptr e + 4 /\
  map_lo s0 = mmap_ptr e /\
  let padsize :=
    Z.rem (Int.sub (pagesize e) (Z.rem sizeOfRegion (pagesize e)))
          (pagesize e) in
  map_hi s0 = mmap_ptr e + Int.add sizeOfRegion padsize /\
  alloc_size s0 = Int.sub (Int.add sizeOfRegion padsize) 8.
Proof.
  unfold init_heap. intros H.
  destruct (Z.eqb_spec (allocated_once s) 0) as [H0 | _];
    cbn [negb] in H; [|discriminate].
  destruct (Z.leb_spec sizeOfRegion 0) as [|Hsz]; [discriminate|].
  destruct (open_fd e =? -1); [discriminate|].
  destruct (mmap_ptr e =? MAP_FAILED); [discriminate|].
  cbn [alloc_size heap_start allocated_once mem map_lo map_hi
       set_globals map_region] in H.
  repeat match type of H with
         | bind (store ?s ?a ?v) _ = _ =>
           let s' := fresh "s" in
           let E := fresh "E" in
           destruct (store s a v) as [s'|] eqn:E; [|discriminate];
           cbn [bind] in H; apply store_some in E; destruct E as [_ ->];
           cbn [alloc_size heap_start allocated_once upd mem map_lo map_hi
                set_globals map_region] in H
         | bind (load ?s ?a) _ = _ =>
           destruct (load s a); [|discriminate]; cbn [bind] in H
         end.
  injection H as <-.
  cbn [alloc_size heap_start allocated_once upd mem map_lo map_hi
       set_globals map_region].
  repeat split; auto.
Qed.

(** [init_heap] works once: after a call that returned 0 every further call
    returns -1 and leaves the state alone, whatever size it is given and
    whatever the operating system would answer. *)
Theorem init_heap_only_once
    (e e' : os_env) (s s0 : state) (sizeOfRegion sizeOfRegion' : Z) :
  init_heap e s sizeOfRegion = Some (0, s0) ->
  init_heap e' s0 sizeOfRegion' = Some (-1, s0).
Proof.
  intros H. apply init_heap_globals in H.
  destruct H as (_ & _ & H1 & _). unfold init_heap. now rewrite H1.
Qed.

Lemma init_heap_only_once_witness :
  init_heap os4096 fresh_heap 8192 = Some (-1, fresh_heap).
Proof.
  apply (init_heap_only_once os4096 os4096 initial_state fresh_heap 4096).
  vm_compute. reflexivity.
Defined.

(** A call of [init_heap] that does not return 0 returns -1 and leaves the
    memory, the mapping, [heap_start] and [allocated_once] as they were; an
    initialised heap, or a size that is not positive, leaves the whole state
    as it was.  (When [open] or [mmap] fails, [alloc_size] has already been
    overwritten with the padded size.) *)
Theorem init_heap_failure
    (e : os_env) (s s' : state) (sizeOfRegion r : Z) :
  init_heap e s sizeOfRegion = Some (r, s') -> r <> 0 ->
  r = -1 /\
  mem s' = mem s /\ map_lo s' = map_lo s /\ map_hi s' = map_hi s /\
  heap_start s' = heap_start s /\ allocated_once s' = allocated_once s /\
  (allocated_once s <> 0 \/ sizeOfRegion <= 0 -> s' = s).
Proof.
  unfold init_heap. intros H Hr.
  destruct (Z.eqb_spec (allocated_once s) 0) as [H0 | H0]; cbn [negb] in H.
  2:{ injection H as <- <-. repeat split; auto. }
  destruct (Z.leb_spec sizeOfRegion 0) as [Hsz | Hsz].
  { injection H as <- <-. repeat split; auto. }
  destruct (open_fd e =? -1).
  { injection H as <- <-. cbn. repeat split; auto. intros [? | ?]; lia. }
  destruct (mmap_ptr e =? MAP_FAILED).
  { injection H as <- <-. cbn. repeat split; auto. intros [? | ?]; lia. }
  exfalso.
  repeat match type of H with
         | bind ?m _ = _ => destruct m; [|discriminate]; cbn [bind] in H
         end.
  injection H as <- _. contradiction.
Qed.

Lemma init_heap_failure_witness :
  -1 = -1 /\
  mem (mkState (fun _ => 0) 0 0 NULL 4096 0) = mem initial_state /\
  map_lo (mkState (fun _ => 0) 0 0 NULL 4096 0) = map_lo initial_state /\
  map_hi (mkState (fun _ => 0) 0 0 NULL 4096 0) = map_hi initial_state /\
  heap_start (mkState (fun _ => 0) 0 0 NULL 4096 0)
  = heap_start initial_state /\
  allocated_once (mkState (fun _ => 0) 0 0 NULL 4096 0)
  = allocated_once initial_state /\
  (allocated_once initial_state <> 0 \/ 100 <= 0 ->
   mkState (fun _ => 0) 0 0 NULL 4096 0 = initial_state).
Proof.
  apply (init_heap_failure (mkEnv 4096 3 MAP_FAILED) initial_state
           (mkState (fun _ => 0) 0 0 NULL 4096 0) 100 (-1)).
  - vm_compute. reflexivity.
  - discriminate.
Defined.

(** The padded size is the least multiple of the page size that holds the
    requested size. *)
Lemma padded_size_least (ps sz : Z) :
  0 < ps -> 0 < sz -> sz + ps <= Int.max_signed ->
  let padded :=
    Int.add sz (Z.rem (Int.sub ps (Z.rem sz ps)) ps) in
  padded mod ps = 0 /\ sz <= padded < sz + ps.
Proof.
  intros Hps Hsz Hmax. cbv zeta.
  destruct (padded_size ps sz Hps Hsz Hmax) as (k & Hk & Hk1 & Hk2).
  cbv zeta in Hk. rewrite Hk.
  split; [rewrite Z.mul_comm; apply Z.mod_mul; lia|].
  split; [|assumption].
  (* [ps * k] is a multiple of [ps] above [sz - ps], hence not below [sz] *)
  revert Hk. unfold Int.max_signed in Hmax.
  rewrite (Z.rem_mod_nonneg sz ps) by lia.
  pose proof (Z.mod_pos_bound sz ps Hps) as Hm.
  unfold Int.sub. rewrite wrap_small by int_range.
  rewrite (Z.rem_mod_nonneg (ps - sz mod ps) ps) by lia.
  pose proof (Z.mod_pos_bound (ps - sz mod ps) ps Hps) as Hm'.
  unfold Int.add. rewrite wrap_small by int_range.
  intros <-. lia.
Qed.

(** The heap that a successful [init_heap] lays out.  The mapping starts at
    the address given by [mmap] and its length is the least multiple of the
    page size that holds the requested size; the first header is 4 bytes
    into the mapping and the end mark is its last word; between them lies
    one free block of [alloc_size] bytes, the length less 8, whose header
    has the previous-block bit set and whose footer holds its size; every
    other word of the mapping is zero. *)
Theorem init_heap_layout (e : os_env) (sizeOfRegion : Z) (s0 : state) :
  16 <= pagesize e -> pagesize e mod 8 = 0 ->
  sizeOfRegion + pagesize e <= Int.max_signed ->
  init_heap e initial_state sizeOfRegion = Some (0, s0) ->
  let len := map_hi s0 - map_lo s0 in
  let hs := heap_start s0 in
  let A := alloc_size s0 in
  len mod pagesize e = 0 /\ sizeOfRegion <= len < sizeOfRegion + pagesize e /\
  map_lo s0 = mmap_ptr e /\ hs = mmap_ptr e + 4 /\ A = len - 8 /\
  hs + A + 4 = map_hi s0 /\
  mem s0 hs = A + 2 /\ mem s0 (hs + A - 4) = A /\ mem s0 (hs + A) = 1 /\
  forall x, x <> hs -> x <> hs + A - 4 -> x <> hs + A -> mem s0 x = 0.
Proof.
  intros Hps Hps8 Hmax H.
  pose proof (init_heap_globals _ _ _ _ H)
    as (_ & Hsz & _ & Hhs & Hlo & Hhi & HA).
  cbv zeta in Hhi, HA.
  destruct (padded_size_least (pagesize e) sizeOfRegion ltac:(lia) Hsz Hmax)
    as (Hmod & Hle).
  cbv zeta in Hmod, Hle.
  set (padded := Int.add sizeOfRegion
                   (Z.rem (Int.sub (pagesize e)
                                   (Z.rem sizeOfRegion (pagesize e)))
                          (pagesize e))) in *.
  assert (Hp16 : 16 <= padded).
  { apply Z.mod_divide in Hmod; [|lia]. destruct Hmod as [k Hk].
    assert (1 <= k) by nia. nia. }
  unfold Int.max_signed in Hmax.
  unfold Int.sub in HA. rewrite wrap_small in HA by int_range.
  cbv zeta. rewrite Hhi, Hlo, Hhs, HA.
  replace (mmap_ptr e + padded - mmap_ptr e) with padded by lia.
  split; [assumption|]. split; [assumption|].
  split; [reflexivity|]. split; [reflexivity|]. split; [reflexivity|].
  split; [lia|].
  (* the words written *)
  unfold init_heap in H.
  change (allocated_once initial_state =? 0) with true in H.
  cbn [negb] in H.
  destruct (Z.leb_spec sizeOfRegion 0); [lia|].
  destruct (open_fd e =? -1); [discriminate|].
  destruct (mmap_ptr e =? MAP_FAILED); [discriminate|].
  cbn [alloc_size heap_start allocated_once mem map_lo map_hi
       set_globals map_region initial_state] in H.
  fold padded in H.
  unfold Int.sub in H. rewrite (wrap_small (padded - 8)) in H by int_range.
  repeat match type of H with
         | bind (store ?s ?a ?v) _ = _ =>
           let s' := fresh "s" in
           let E := fresh "E" in
           destruct (store s a v) as [s'|] eqn:E; [|discriminate];
           cbn [bind] in H; apply store_some in E; destruct E as [_ ->];
           cbn [alloc_size heap_start allocated_once upd mem map_lo map_hi
                set_globals map_region] in H
         | bind (load ?s ?a) _ = _ =>
           let w := fresh "w" in
           let E := fresh "E" in
           destruct (load s a) as [w|] eqn:E; [|discriminate];
           cbn [bind] in H; apply load_some in E; destruct E as [_ E];
           cbn [alloc_size heap_start allocated_once upd mem map_lo map_hi
                set_globals map_region] in E
         end.
  injection H as <-.
  cbn [alloc_size heap_start allocated_once upd mem map_lo map_hi
       set_globals map_region].
  match goal with
  | E : (if ?x =? ?x then _ else _) = _ |- _ =>
    rewrite Z.eqb_refl in E; subst
  end.
  unfold Int.add at 1 2 3 4. rewrite !(wrap_small (padded - 8 + 2))
    by int_range.
  repeat split.
  - destruct (Z.eqb_spec (mmap_ptr e + 4)
                         (mmap_ptr e + 4 + (padded - 8) - 4)); [lia|].
    now rewrite Z.eqb_refl.
  - now rewrite Z.eqb_refl.
  - destruct (Z.eqb_spec (mmap_ptr e + 4 + (padded - 8))
                         (mmap_ptr e + 4 + (padded - 8) - 4)); [lia|].
    destruct (Z.eqb_spec (mmap_ptr e + 4 + (padded - 8))
                         (mmap_ptr e + 4)); [lia|].
    now rewrite Z.eqb_refl.
  - intros x H1 H2 H3.
    destruct (Z.eqb_spec x (mmap_ptr e + 4 + (padded - 8) - 4));
      [contradiction|].
    destruct (Z.eqb_spec x (mmap_ptr e + 4)); [contradiction|].
    destruct (Z.eqb_spec x (mmap_ptr e + 4 + (padded - 8)));
      [contradiction|reflexivity].
Qed.

Lemma init_heap_layout_witness :
  let len := map_hi fresh_heap - map_lo fresh_heap in
  let hs := heap_start fresh_heap in
  let A := alloc_size fresh_heap in
  len mod pagesize os4096 = 0 /\ 4096 <= len < 4096 + pagesize os4096 /\
  map_lo fresh_heap = mmap_ptr os4096 /\ hs = mmap_ptr os4096 + 4 /\
  A = len - 8 /\ hs + A + 4 = map_hi fresh_heap /\
  mem fresh_heap hs = A + 2 /\ mem fresh_heap (hs + A - 4) = A /\
  mem fresh_heap (hs + A) = 1 /\
  forall x, x <> hs -> x <> hs + A - 4 -> x <> hs + A ->
            mem fresh_heap x = 0.
Proof.
  apply (init_heap_layout os4096 4096 fresh_heap).
  - vm_compute. discriminate.
  - vm_compute. reflexivity.
  - vm_compute. discriminate.
  - vm_compute. reflexivity.
Defined.

(** ** When [init_heap] succeeds *)

(** On a heap that is not yet initialised, a request for a positive size
    succeeds as soon as [open] and [mmap] do: with a page size that is a
    multiple of 8 and at least 16 and a mapping at a multiple of 8,
    [init_heap] returns 0 and none of its writes leaves the mapping. *)
Theorem init_heap_succeeds (e : os_env) (s : state) (sizeOfRegion : Z) :
  allocated_once s = 0 -> 0 < sizeOfRegion ->
  open_fd e <> -1 -> mmap_ptr e <> MAP_FAILED ->
  16 <= pagesize e -> pagesize e mod 8 = 0 -> mmap_ptr e mod 8 = 0 ->
  sizeOfRegion + pagesize e <= Int.max_signed ->
  exists s0, init_heap e s sizeOfRegion = Some (0, s0).
Proof.
  intros Honce Hsz Hfd Hmp Hps Hps8 Hm8 Hmax.
  unfold init_heap. rewrite Honce. cbn [negb Z.eqb].
  destruct (Z.leb_spec sizeOfRegion 0); [lia|].
  destruct (Z.eqb_spec (open_fd e) (-1)); [contradiction|].
  destruct (Z.eqb_spec (mmap_ptr e) MAP_FAILED); [contradiction|].
  destruct (padded_size (pagesize e) sizeOfRegion ltac:(lia) Hsz Hmax)
    as (k & Hk & Hk1 & Hk2).
  cbv zeta in Hk. cbn [alloc_size heap_start allocated_once set_globals
                       map_region mem map_lo map_hi].
  rewrite Hk.
  assert (Hk8 : (pagesize e * k) mod 8 = 0).
  { rewrite <- Z.mul_mod_idemp_l, Hps8 by lia. reflexivity. }
  assert (Hk16 : 16 <= pagesize e * k) by nia.
  unfold Int.max_signed in *.
  unfold Int.sub. rewrite (wrap_small (pagesize e * k - 8))
    by (unfold Int.in_range, Int.min_signed, Int.max_signed; lia).
  set (A := pagesize e * k - 8) in *.
  set (m := mmap_ptr e) in *.
  unfold store, load, valid_access.
  cbn [alloc_size heap_start allocated_once upd mem map_lo map_hi
       set_globals map_region].
  assert (Hv : forall a, m <= a -> a <= m + A + 4 -> a mod 4 = 0 ->
               (m <=? a) && (a + 4 <=? m + pagesize e * k) && (a mod 4 =? 0)
               = true).
  { intros a H1 H2 H3. subst A. rewrite H3. lia. }
  rewrite (Hv (m + 4 + A)) by (first [lia | zdm]). cbn [bind].
  cbn [alloc_size heap_start allocated_once upd mem map_lo map_hi
       set_globals map_region].
  rewrite (Hv (m + 4)) by (first [lia | zdm]). cbn [bind].
  cbn [alloc_size heap_start allocated_once upd mem map_lo map_hi
       set_globals map_region].
  rewrite (Hv (m + 4)) by (first [lia | zdm]). cbn [bind].
  cbn [alloc_size heap_start allocated_once upd mem map_lo map_hi
       set_globals map_region].
  rewrite (Hv (m + 4 + A - 4)) by (first [lia | zdm]). cbn [bind].
  eexists. reflexivity.
Qed.

Lemma init_heap_succeeds_witness :
  exists s0, init_heap os4096 initial_state 100 = Some (0, s0).
Proof.
  apply (init_heap_succeeds os4096 initial_state 100).
  - reflexivity.
  - reflexivity.
  - discriminate.
  - discriminate.
  - vm_compute. discriminate.
  - reflexivity.
  - reflexivity.
  - vm_compute. discriminate.
Defined.

(** ** The guard after the loop of [best_block] *)

(** Every candidate kept by the loop is large enough for the request. *)
Lemma best_block_loop_large (s : state) (size : Z) :
  forall fuel current fit r,
    fit = NULL \/ (exists w, load s fit = Some w /\ size <= size_of w) ->
    best_block_loop fuel s size current fit = Some r ->
    r = NULL \/ (exists w, load s r = Some w /\ size <= size_of w).
Proof.
  induction fuel as [|fuel IH]; intros current fit r Hfit H; [discriminate|].
  simpl in H.
  destruct (load s current) as [cs|] eqn:Hl; [|discriminate]. cbn [bind] in H.
  destruct (cs =? 1); [injection H as <-; assumption|].
  fold (size_of cs) in H.
  destruct (size_of cs <=? 0); [injection H as <-; assumption|].
  destruct ((Z.land cs 1 =? 0) && (size <=? size_of cs)) eqn:Hc.
  - apply andb_true_iff in Hc. destruct Hc as [_ Hc]. apply Z.leb_le in Hc.
    destruct (fit =? NULL).
    + cbn [bind] in H. eapply IH; [|exact H]. right. eauto.
    + destruct (load s fit) as [fs|] eqn:Hlf; [|discriminate].
      cbn [bind] in H.
      destruct (size_of cs <? Z.land fs (Z.lnot 3)); cbn [bind] in H;
        (eapply IH; [|exact H]); [right; eauto|rewrite Hlf; assumption].
  - cbn [bind] in H. eapply IH; [|exact H]. assumption.
Qed.

(** The test after the loop of [best_block] ("if the best fit found is not
    large enough, return NULL") never fires: [best_block] returns what its
    loop found.  This holds in every state, well formed or not. *)
Theorem best_block_guard_is_dead (s : state) (size : Z) :
  best_block s size
  = best_block_loop (scan_fuel s) s size (heap_start s) NULL.
Proof.
  unfold best_block.
  destruct (best_block_loop (scan_fuel s) s size (heap_start s) NULL)
    as [r|] eqn:H; [|reflexivity].
  cbn [bind].
  destruct (best_block_loop_large s size _ _ _ _ (or_introl eq_refl) H)
    as [-> | (w & Hl & Hle)]; [reflexivity|].
  destruct (r =? NULL); [reflexivity|]. cbn [negb].
  rewrite Hl. cbn [bind]. fold (size_of w).
  destruct (Z.ltb_spec (size_of w) size); [lia|reflexivity].
Qed.

(** ** The block list after [balloc] *)

Lemma walk_set_p_first (s : state) (a nw : Z) (bs : list (Z * Z)) :
  walk s a bs -> load s a = Some nw ->
  walk (upd s a (Z.lor nw 2)) a (set_p_first bs) /\
  (forallb block_ok bs = true -> forallb block_ok (set_p_first bs) = true).
Proof.
  intros Hw Hl. destruct (load_some _ _ _ Hl) as [Hv _].
  inversion Hw as [a' w Hl' Hs | a' w bs0 Hl' Hs Hw0]; subst;
    rewrite Hl in Hl'; injection Hl' as <-.
  - split; [|auto].
    eapply walk_end; [apply load_upd_same; assumption|].
    now rewrite size_of_lor_2.
  - cbn [set_p_first fst snd]. split.
    + eapply walk_cons; [apply load_upd_same; assumption
                        |now rewrite size_of_lor_2|].
      rewrite size_of_lor_2. apply walk_upd_below; [assumption|lia].
    + simpl. intros H. apply andb_true_iff in H. destruct H as [Hb Hr].
      rewrite Hr, andb_true_r. unfold block_ok in *. simpl snd in *.
      apply andb_true_iff in Hb. destruct Hb as [H1 H2].
      rewrite size_of_lor_2, H2, andb_true_r.
      apply in_rangeb_true. apply in_rangeb_true in H1.
      unfold Int.in_range, Int.min_signed, Int.max_signed in *.
      rewrite lor_2. zdm.
Qed.

(** A successful [balloc] in terms of the block list: the chosen free block
    is replaced by an allocated block and a free remainder, or by itself as
    an allocated block, in which case the header behind it has its
    previous-block bit set. *)
Lemma balloc_blocks (s s' : state) (bs : list (Z * Z)) (size p : Z) :
  heap_ok s bs -> 1 <= size <= Int.max_signed - 11 ->
  balloc s size = Some (p, s') -> p <> NULL ->
  let r := rounded_size size in
  let fit := p - headerSize in
  exists pre w nw post,
    bs = pre ++ (fit, w) :: post /\
    is_free w = true /\ r <= size_of w /\
    load s (fit + size_of w) = Some nw /\
    s' = (if headerSize + 8 <=? size_of w - r
          then alloc_split s fit w r else alloc_whole s fit w nw) /\
    heap_ok s' (pre ++ blocks_after_balloc fit w r post).
Proof.
  intros Hok Hsz Hb Hp r fit.
  destruct (balloc_inv _ _ _ Hok Hsz _ _ Hb Hp)
    as (fit' & w & nw & Hpf & _ & Hin & Hfit & Hl & Hnl & Hs').
  assert (fit' = fit) as -> by (subst fit; lia). clear Hpf.
  destruct (rounded_size_spec size Hsz) as (_ & Hr8 & Hrb).
  destruct (heap_ok_block _ _ _ _ Hok Hin) as (Hrw & Hw8 & Hm).
  pose proof (heap_ok_walk _ _ Hok) as Hw.
  destruct (walk_In _ _ _ Hw _ _ Hin) as (_ & Hpos & _).
  unfold fits in Hfit. cbn [snd] in Hfit. apply andb_true_iff in Hfit.
  destruct Hfit as [Hfree Hle]. apply Z.leb_le in Hle.
  destruct (load_some _ _ _ Hl) as [Hv _].
  destruct (load_some _ _ _ Hnl) as [Hnv _].
  pose proof (proj1 (valid_access_bounds _ _) Hv) as Hvb.
  pose proof (proj1 (valid_access_bounds _ _) Hnv) as Hnvb.
  destruct Hok as (_ & Hall & Hhs & Hhs8).
  destruct (in_split _ _ Hin) as (pre & post & ->).
  destruct (walk_split _ _ _ _ _ Hw) as [Hseg Hwfit]. cbn [fst] in *.
  pose proof (walk_tail _ _ _ _ Hwfit) as Hwpost. cbn [fst snd] in Hwpost.
  apply forallb_block_ok_app in Hall. destruct Hall as [Hpre Hrest].
  cbn [forallb] in Hrest. apply andb_true_iff in Hrest.
  destruct Hrest as [_ Hpost].
  exists pre, w, nw, post.
  split; [reflexivity|]. split; [assumption|]. split; [assumption|].
  split; [assumption|]. split; [assumption|].
  fold r in Hs', Hle, Hr8, Hrb.
  unfold is_free in Hfree. apply Z.eqb_eq in Hfree.
  unfold Int.in_range, Int.min_signed, Int.max_signed in Hrw.
  assert (Hframe : heap_start s' = heap_start s).
  { subst s'. destruct (_ <=? _); reflexivity. }
  assert (Hfin : forall mid,
             walk s' fit mid -> forallb block_ok mid = true ->
             seg s' (heap_start s) pre fit ->
             heap_ok s' (pre ++ mid)).
  { intros mid H1 H2 H3. unfold heap_ok.
    rewrite heap_blocks_walk, Hframe.
    split; [|split; [|split; assumption]].
    - eapply seg_walk; eassumption.
    - rewrite forallb_app, Hpre, H2. reflexivity. }
  unfold blocks_after_balloc. unfold headerSize in *.
  destruct (Z.leb_spec (4 + 8) (size_of w - r)) as [Hsplit | Hwhole];
    subst s'.
  - unfold alloc_split, headerSize in *.
    set (hdr := Z.lor (Z.lor r 1) (p_bit w)) in *.
    assert (Hhdr : size_of hdr = r /\ - 2 ^ 31 <= hdr <= 2 ^ 31 - 1).
    { subst hdr. rewrite lor_alloc_header by zdm.
      pose proof (size_of_le w).
      destruct (p_bit_cases w) as [-> | ->]; bits; split; zdm. }
    destruct Hhdr as [Hhs' Hhr].
    assert (Hrem : size_of (Z.lor (size_of w - r) 2) = size_of w - r /\
                   - 2 ^ 31 <= Z.lor (size_of w - r) 2 <= 2 ^ 31 - 1).
    { pose proof (size_of_le w). bits. split; zdm. }
    destruct Hrem as [Hrs Hrr].
    apply Hfin.
    + eapply walk_cons.
      * rewrite load_upd_other by lia. apply load_upd_same. valid_upd.
      * lia.
      * rewrite Hhs'. eapply walk_cons.
        -- apply load_upd_same. valid_upd.
        -- lia.
        -- rewrite Hrs. replace (fit + r + (size_of w - r))
             with (fit + size_of w) by lia.
           repeat apply walk_upd_below; first [assumption | lia].
    + cbn [forallb]. rewrite !block_ok_intro; try assumption.
      * rewrite Hrs. zdm.
      * rewrite Hhs'. assumption.
    + repeat apply seg_upd; first [assumption | lia].
  - unfold alloc_whole in *.
    destruct (walk_set_p_first (upd s fit (Z.lor w 1)) (fit + size_of w)
                               nw post) as (Hwp & Hokp).
    { apply walk_upd_below; [assumption|lia]. }
    { rewrite load_upd_other by lia. assumption. }
    apply Hfin.
    + eapply walk_cons.
      * rewrite load_upd_other by lia. apply load_upd_same. assumption.
      * now rewrite size_of_lor_1.
      * rewrite size_of_lor_1. assumption.
    + cbn [forallb]. rewrite block_ok_intro, Hokp; try reflexivity;
        try assumption.
      * rewrite lor_1. rewrite a_bit_eq in Hfree. zdm.
      * now rewrite size_of_lor_1.
    + repeat apply seg_upd; first [assumption | lia].
Qed.

(** A request that [balloc] turns down leaves the state as it was. *)
Lemma balloc_null_state (s s' : state) (bs : list (Z * Z)) (size : Z) :
  heap_ok s bs -> size <= Int.max_signed - 11 ->
  balloc s size = Some (NULL, s') -> s' = s.
Proof.
  intros Hok Hs Hb.
  destruct (Z.lt_ge_cases size 1) as [Hlt | Hge].
  - rewrite (balloc_small _ _ Hlt) in Hb. now injection Hb.
  - pose proof (heap_ok_walk _ _ Hok) as Hw.
    assert (Hhs : 0 < heap_start s) by apply Hok.
    destruct (scan (rounded_size size) bs None) as [[fit w]|] eqn:Hsc.
    + pose proof (scan_walk s (rounded_size size) _ bs Hw None
                    ltac:(discriminate)) as Hsp.
      rewrite Hsc in Hsp.
      destruct Hsp as ([? | Hin] & _); [discriminate|].
      destruct (heap_ok_block _ _ _ _ Hok Hin) as (Hr & _).
      destruct (walk_In _ _ _ Hw _ _ Hin) as (_ & _ & Hge' & _).
      destruct (balloc_some s size bs fit w Hw Hhs (conj Hge Hs) Hsc Hr)
        as (nw & _ & Heq).
      rewrite Heq in Hb. injection Hb as Hb _.
      unfold NULL, headerSize in Hb. lia.
    + rewrite (balloc_none s size bs Hw Hhs Hge Hsc) in Hb.
      now injection Hb.
Qed.

Lemma balloc_size_pos (s s' : state) (size p : Z) :
  balloc s size = Some (p, s') -> p <> NULL -> 1 <= size.
Proof.
  intros Hb Hp. destruct (Z.lt_ge_cases size 1) as [Hlt | ?]; [|assumption].
  rewrite (balloc_small _ _ Hlt) in Hb. injection Hb as <- <-.
  contradiction.
Qed.

(** Status bits of the header words that [balloc] writes. *)
Lemma bits_alloc_header (r w : Z) :
  r mod 4 = 0 ->
  a_bit (Z.lor (Z.lor r 1) (p_bit w)) = 1 /\
  p_bit (Z.lor (Z.lor r 1) (p_bit w)) = p_bit w /\
  size_of (Z.lor (Z.lor r 1) (p_bit w)) = r.
Proof.
  intros Hr. rewrite lor_alloc_header by assumption.
  destruct (p_bit_cases w) as [E | E]; rewrite E; bits;
    repeat split; zdm.
Qed.

Lemma bits_rest_header (x : Z) :
  x mod 4 = 0 ->
  a_bit (Z.lor x 2) = 0 /\ p_bit (Z.lor x 2) = 2 /\
  size_of (Z.lor x 2) = x.
Proof. intros Hx. bits. repeat split; zdm. Qed.

Lemma p_bit_lor_1 (w : Z) : p_bit (Z.lor w 1) = p_bit w.
Proof. bits. zdm. Qed.

Lemma is_free_a_bit (w : Z) : is_free w = true <-> a_bit w = 0.
Proof. unfold is_free. apply Z.eqb_eq. Qed.

Lemma is_free_false (w : Z) : is_free w = false <-> a_bit w = 1.
Proof.
  unfold is_free. rewrite Z.eqb_neq, a_bit_eq. zdm.
Qed.

(** ** [balloc] keeps the previous-block bits right *)

Lemma prev_bits_ok_balloc (fit w r : Z) (post : list (Z * Z)) :
  is_free w = true -> r mod 4 = 0 ->
  forall pre prev,
    prev_bits_ok prev (pre ++ (fit, w) :: post) = true ->
    prev_bits_ok prev (pre ++ blocks_after_balloc fit w r post) = true.
Proof.
  intros Hfree Hr. apply is_free_a_bit in Hfree.
  induction pre as [|b pre IH]; intros prev H.
  - cbn [app prev_bits_ok snd] in *.
    apply andb_true_iff in H. destruct H as [Hp Hpost].
    rewrite Hfree in Hpost. change (0 =? 1) with false in Hpost.
    unfold blocks_after_balloc.
    destruct (headerSize + 8 <=? size_of w - r).
    + destruct (bits_alloc_header r w Hr) as (Ea & Ep & _).
      destruct (bits_rest_header (size_of w - r)) as (Fa & Fp & _).
      { pose proof (size_of_mod4 w). zdm. }
      cbn [prev_bits_ok snd]. rewrite Ea, Ep, Fa, Fp, Hp.
      exact Hpost.
    + cbn [prev_bits_ok snd]. rewrite p_bit_lor_1, a_bit_lor_1, Hp.
      cbn [andb]. change (1 =? 1) with true.
      destruct post as [|[a nw] post]; [reflexivity|].
      cbn [set_p_first prev_bits_ok fst snd] in *.
      rewrite p_bit_lor_2, a_bit_lor_2. cbn.
      apply andb_true_iff in Hpost. apply Hpost.
  - cbn [app prev_bits_ok] in *.
    apply andb_true_iff in H. destruct H as [Hp Hrest].
    rewrite Hp. cbn [andb]. apply IH. exact Hrest.
Qed.

(** Where the previous-block bit of every header records the status of the
    block before it (the bit of the first header being set, as [init_heap]
    leaves it), it does so again after a call of [balloc], whether the call
    splits a block, takes one whole or fails. *)
Theorem balloc_keeps_prev_bits
    (s s' : state) (bs : list (Z * Z)) (size p : Z) :
  heap_ok s bs -> prev_bits_ok true bs = true ->
  size <= Int.max_signed - 11 ->
  balloc s size = Some (p, s') ->
  exists bs', heap_ok s' bs' /\ prev_bits_ok true bs' = true.
Proof.
  intros Hok Hbits Hs Hb.
  destruct (Z.eq_dec p NULL) as [-> | Hp].
  { rewrite (balloc_null_state _ _ _ _ Hok Hs Hb). eauto. }
  pose proof (balloc_size_pos _ _ _ _ Hb Hp) as Hs1.
  destruct (balloc_blocks _ _ _ _ _ Hok (conj Hs1 Hs) Hb Hp)
    as (pre & w & nw & post & -> & Hfree & _ & _ & _ & Hok').
  destruct (rounded_size_spec size (conj Hs1 Hs)) as (_ & Hr8 & _).
  eexists. split; [exact Hok'|].
  apply prev_bits_ok_balloc; [assumption|zdm|assumption].
Qed.

Lemma balloc_keeps_prev_bits_witness :
  exists bs', heap_ok hundred_heap bs' /\ prev_bits_ok true bs' = true.
Proof.
  apply (balloc_keeps_prev_bits fresh_heap hundred_heap
           [(1048580, 4090)] 100 1048584).
  - compute_heap_ok.
  - vm_compute. reflexivity.
  - vm_compute. discriminate.
  - vm_compute. reflexivity.
Defined.

(** ** [balloc] keeps free blocks apart *)

Lemma no_adjacent_free_balloc (fit w r : Z) (post : list (Z * Z)) :
  is_free w = true -> r mod 4 = 0 ->
  forall pre,
    no_adjacent_free (pre ++ (fit, w) :: post) = true ->
    no_adjacent_free (pre ++ blocks_after_balloc fit w r post) = true.
Proof.
  intros Hfree Hr.
  assert (Hhead : exists c tl,
            blocks_after_balloc fit w r post = c :: tl /\
            is_free (snd c) = false).
  { unfold blocks_after_balloc.
    destruct (headerSize + 8 <=? size_of w - r); eexists; eexists;
      (split; [reflexivity|]); cbn [snd]; apply is_free_false.
    - apply bits_alloc_header. assumption.
    - apply a_bit_lor_1. }
  induction pre as [|b pre IH]; intros H.
  - cbn [app no_adjacent_free snd] in *.
    unfold blocks_after_balloc.
    destruct (headerSize + 8 <=? size_of w - r).
    + destruct (bits_alloc_header r w Hr) as (Ea & _).
      destruct (bits_rest_header (size_of w - r)) as (Fa & _).
      { pose proof (size_of_mod4 w). zdm. }
      apply is_free_false in Ea. apply is_free_a_bit in Fa.
      cbn [no_adjacent_free snd]. rewrite Ea, Fa. cbn [andb negb].
      rewrite Hfree in H. exact H.
    + pose proof (a_bit_lor_1 w) as Ea. apply is_free_false in Ea.
      destruct post as [|[a nw] post].
      * reflexivity.
      * cbn [set_p_first no_adjacent_free fst snd]. rewrite Ea.
        cbn [andb negb].
        apply andb_true_iff in H. destruct H as [_ H].
        cbn [no_adjacent_free snd] in H.
        unfold is_free in *. rewrite a_bit_lor_2. exact H.
  - cbn [app no_adjacent_free] in *.
    apply andb_true_iff in H. destruct H as [Hb Hrest].
    rewrite (IH Hrest), andb_true_r.
    destruct Hhead as (c & tl & Ec & Hc).
    destruct pre as [|b' pre].
    + cbn [app] in *. rewrite Ec, Hc, andb_false_r. reflexivity.
    + exact Hb.
Qed.

(** Where no two free blocks are neighbours, none are after a call of
    [balloc]: the remainder of a split is followed by the block that
    followed the chosen free block. *)
Theorem balloc_keeps_free_blocks_apart
    (s s' : state) (bs : list (Z * Z)) (size p : Z) :
  heap_ok s bs -> no_adjacent_free bs = true ->
  size <= Int.max_signed - 11 ->
  balloc s size = Some (p, s') ->
  exists bs', heap_ok s' bs' /\ no_adjacent_free bs' = true.
Proof.
  intros Hok Hfree Hs Hb.
  destruct (Z.eq_dec p NULL) as [-> | Hp].
  { rewrite (balloc_null_state _ _ _ _ Hok Hs Hb). eauto. }
  pose proof (balloc_size_pos _ _ _ _ Hb Hp) as Hs1.
  destruct (balloc_blocks _ _ _ _ _ Hok (conj Hs1 Hs) Hb Hp)
    as (pre & w & nw & post & -> & Hfw & _ & _ & _ & Hok').
  destruct (rounded_size_spec size (conj Hs1 Hs)) as (_ & Hr8 & _).
  eexists. split; [exact Hok'|].
  apply no_adjacent_free_balloc; [assumption|zdm|assumption].
Qed.

Lemma balloc_keeps_free_blocks_apart_witness :
  exists bs', heap_ok hundred_heap bs' /\ no_adjacent_free bs' = true.
Proof.
  apply (balloc_keeps_free_blocks_apart fresh_heap hundred_heap
           [(1048580, 4090)] 100 1048584).
  - compute_heap_ok.
  - vm_compute. reflexivity.
  - vm_compute. discriminate.
  - vm_compute. reflexivity.
Defined.

(** ** [balloc] keeps the footers of the free blocks *)

Lemma seg_In (s : state) (a e : Z) (bs : list (Z * Z)) :
  seg s a bs e ->
  forall x w, In (x, w) bs ->
    load s x = Some w /\ 0 < size_of w /\ a <= x /\ x + size_of w <= e.
Proof.
  induction 1 as [a | a w e bs Hl Hs Hseg IH]; intros x w' Hin.
  - contradiction.
  - pose proof (seg_range _ _ _ _ Hseg) as [Hae _].
    destruct Hin as [E | Hin].
    + injection E as <- <-. repeat split; try assumption; lia.
    + destruct (IH _ _ Hin) as (H1 & H2 & H3 & H4).
      repeat split; try assumption; lia.
Qed.

Lemma In_set_p_first (bs : list (Z * Z)) (a w : Z) :
  In (a, w) (set_p_first bs) ->
  exists w0, In (a, w0) bs /\ size_of w = size_of w0 /\
             a_bit w = a_bit w0.
Proof.
  destruct bs as [|[a0 w0] bs]; [contradiction|].
  cbn [set_p_first fst snd]. intros [E | Hin].
  - injection E as <- <-. exists w0.
    split; [now left|]. split; [apply size_of_lor_2|apply a_bit_lor_2].
  - exists w. split; [now right|]. split; reflexivity.
Qed.

(** The addresses that a successful [balloc] writes lie in the chosen block
    or are the header behind it. *)
Lemma balloc_mem_outside (s : state) (fit w nw r x : Z) :
  0 <= r -> 0 < size_of w -> x < fit \/ fit + size_of w < x ->
  mem (if headerSize + 8 <=? size_of w - r
       then alloc_split s fit w r else alloc_whole s fit w nw) x
  = mem s x.
Proof.
  intros Hr Hpos Hx. unfold headerSize.
  destruct (Z.leb_spec (4 + 8) (size_of w - r)) as [Hsplit | Hwhole].
  - unfold alloc_split, headerSize. cbn [mem upd].
    destruct (Z.eqb_spec x (fit + r)); [lia|].
    destruct (Z.eqb_spec x fit); [lia|].
    destruct (Z.eqb_spec x (fit + size_of w - 4)); [lia|reflexivity].
  - unfold alloc_whole. cbn [mem upd].
    destruct (Z.eqb_spec x (fit + size_of w)); [lia|].
    destruct (Z.eqb_spec x fit); [lia|reflexivity].
Qed.

Lemma balloc_valid_access (s : state) (fit w nw r x : Z) :
  valid_access (if headerSize + 8 <=? size_of w - r
                then alloc_split s fit w r else alloc_whole s fit w nw) x
  = valid_access s x.
Proof.
  destruct (headerSize + 8 <=? size_of w - r);
    unfold alloc_split, alloc_whole; now rewrite !valid_access_upd.
Qed.

Lemma balloc_load_outside (s : state) (fit w nw r x : Z) :
  0 <= r -> 0 < size_of w -> x < fit \/ fit + size_of w < x ->
  load (if headerSize + 8 <=? size_of w - r
        then alloc_split s fit w r else alloc_whole s fit w nw) x
  = load s x.
Proof.
  intros Hr Hpos Hx. unfold load.
  rewrite balloc_valid_access, balloc_mem_outside by assumption.
  reflexivity.
Qed.

(** A successful [balloc] writes the footer of the remainder of a split and
    no other footer. *)
Lemma balloc_step (s s' : state) (bs : list (Z * Z)) (size p : Z) :
  heap_ok s bs -> 1 <= size <= Int.max_signed - 11 ->
  balloc s size = Some (p, s') -> p <> NULL ->
  let r := rounded_size size in
  let fit := p - headerSize in
  exists pre w post,
    bs = pre ++ (fit, w) :: post /\
    is_free w = true /\ r <= size_of w /\ r mod 8 = 0 /\
    heap_ok s' (pre ++ blocks_after_balloc fit w r post) /\
    (footers_ok s bs ->
     footers_ok s' (pre ++ blocks_after_balloc fit w r post)).
Proof.
  intros Hok Hsz Hb Hp.
  destruct (balloc_blocks _ _ _ _ _ Hok Hsz Hb Hp)
    as (pre & w & nw & post & E & Hfw & Hle & Hnl & Hs' & Hok').
  destruct (rounded_size_spec size Hsz) as (_ & Hr8 & Hrb).
  set (r := rounded_size size) in *. set (fit := p - headerSize) in *.
  exists pre, w, post.
  split; [assumption|]. split; [assumption|]. split; [assumption|].
  split; [assumption|]. split; [assumption|]. intros Hft.
  pose proof (heap_ok_walk _ _ Hok) as Hw. rewrite E in Hw.
  destruct (walk_split _ _ _ _ _ Hw) as [Hseg Hwfit]. cbn [fst] in *.
  pose proof (walk_tail _ _ _ _ Hwfit) as Hwpost. cbn [fst snd] in Hwpost.
  assert (Hpos : 0 < size_of w).
  { inversion Hwfit; subst; assumption. }
  assert (Hpost8 : forall a w0, In (a, w0) post ->
                     fit + size_of w <= a /\ 8 <= size_of w0).
  { intros a w0 Hin.
    destruct (walk_In _ _ _ Hwpost _ _ Hin) as (_ & Hp0 & Hge & _).
    destruct (heap_ok_block s bs a w0 Hok) as (_ & H8 & _).
    { rewrite E. apply in_or_app. right. now right. }
    split; [assumption|zdm]. }
  assert (Hw8 : size_of w mod 8 = 0).
  { destruct (heap_ok_block s bs fit w Hok) as (_ & H8 & _); [|assumption].
    rewrite E. apply in_or_app. right. now left. }
  assert (Hvf : valid_access s (fit + size_of w - headerSize) = true).
  { assert (Hin : In (fit, w) bs).
    { rewrite E. apply in_or_app. right. now left. }
    specialize (Hft _ _ Hin Hfw). apply load_some in Hft. apply Hft. }
  intros a w' Hin Hfree.
  apply in_app_or in Hin. destruct Hin as [Hin | Hin].
  - (* a block before the chosen one *)
    destruct (seg_In _ _ _ _ Hseg _ _ Hin) as (_ & Hp0 & _ & Hend).
    subst s'. rewrite balloc_load_outside by (unfold headerSize in *; lia).
    apply Hft; [|assumption]. rewrite E. apply in_or_app. now left.
  - unfold blocks_after_balloc in Hin. subst s'.
    destruct (headerSize + 8 <=? size_of w - r) eqn:Hcase.
    + apply Z.leb_le in Hcase.
      destruct Hin as [Ein | [Ein | Hin]].
      * injection Ein as <- <-.
        apply is_free_a_bit in Hfree.
        destruct (bits_alloc_header r w ltac:(zdm)) as (Ea & _). lia.
      * injection Ein as <- <-.
        destruct (bits_rest_header (size_of w - r) ltac:(zdm))
          as (_ & _ & ->).
        replace (fit + r + (size_of w - r) - headerSize)
          with (fit + size_of w - headerSize) by lia.
        apply load_alloc_split_footer;
          [assumption|unfold headerSize in *; lia|assumption].
      * destruct (Hpost8 _ _ Hin) as (Hge & H8).
        pose proof (balloc_load_outside s fit w nw r
                      (a + size_of w' - headerSize)) as Hout.
        rewrite <- Z.leb_le in Hcase. rewrite Hcase in Hout.
        rewrite Hout by (unfold headerSize in *; lia).
        apply Hft; [|assumption].
        rewrite E. apply in_or_app. right. now right.
    + destruct Hin as [Ein | Hin].
      * injection Ein as <- <-.
        apply is_free_a_bit in Hfree. rewrite a_bit_lor_1 in Hfree. lia.
      * destruct (In_set_p_first _ _ _ Hin) as (w0 & Hin0 & Es & Ea).
        destruct (Hpost8 _ _ Hin0) as (Hge & H8).
        pose proof (balloc_load_outside s fit w nw r
                      (a + size_of w' - headerSize)) as Hout.
        rewrite Hcase in Hout.
        rewrite Hout by (unfold headerSize in *; lia).
        rewrite Es. apply Hft.
        -- rewrite E. apply in_or_app. right. now right.
        -- apply is_free_a_bit. rewrite <- Ea. now apply is_free_a_bit.
Qed.


(** Where the last word of every free block holds the size of the block, it
    does so again after a call of [balloc]: the remainder of a split gets
    its footer, and no other footer is written. *)
Theorem balloc_keeps_footers
    (s s' : state) (bs : list (Z * Z)) (size p : Z) :
  heap_ok s bs -> footers_ok s bs ->
  size <= Int.max_signed - 11 ->
  balloc s size = Some (p, s') ->
  exists bs', heap_ok s' bs' /\ footers_ok s' bs'.
Proof.
  intros Hok Hft Hs Hb.
  destruct (Z.eq_dec p NULL) as [-> | Hp].
  { rewrite (balloc_null_state _ _ _ _ Hok Hs Hb). eauto. }
  pose proof (balloc_size_pos _ _ _ _ Hb Hp) as Hs1.
  destruct (balloc_step _ _ _ _ _ Hok (conj Hs1 Hs) Hb Hp)
    as (pre & w & post & _ & _ & _ & _ & Hok' & Hft').
  eauto.
Qed.

Lemma footers_okb_sound (s : state) (bs : list (Z * Z)) :
  footers_okb s bs = true -> footers_ok s bs.
Proof.
  unfold footers_okb. rewrite forallb_forall. intros H a w Hin Hfree.
  specialize (H _ Hin). cbn [fst snd] in H. rewrite Hfree in H.
  cbn [implb] in H.
  destruct (load s (a + size_of w - headerSize)) as [v|]; [|discriminate].
  apply Z.eqb_eq in H. now subst v.
Qed.

Lemma balloc_keeps_footers_witness :
  exists bs', heap_ok hundred_heap bs' /\ footers_ok hundred_heap bs'.
Proof.
  apply (balloc_keeps_footers fresh_heap hundred_heap
           [(1048580, 4090)] 100 1048584).
  - compute_heap_ok.
  - apply footers_okb_sound. vm_compute. reflexivity.
  - vm_compute. discriminate.
  - vm_compute. reflexivity.
Defined.

(** ** [balloc] and the blocks already allocated *)



(** ** [balloc] stays inside the mapped region *)

(** On a well-formed heap a call of [balloc] comes to its end without a
    read or a write outside the mapped region, for every request up to
    [INT_MAX - 11]: it returns [NULL] and the state it was given, or a
    pointer into a block that was free and a state with the same mapping
    and globals. *)
Theorem balloc_never_faults (s : state) (bs : list (Z * Z)) (size : Z) :
  heap_ok s bs -> size <= Int.max_signed - 11 ->
  exists p s',
    balloc s size = Some (p, s') /\
    (p = NULL /\ s' = s \/
     (exists w, In (p - headerSize, w) bs /\ is_free w = true) /\
     same_frame s s').
Proof.
  intros Hok Hs.
  pose proof (heap_ok_walk _ _ Hok) as Hw.
  assert (Hhs : 0 < heap_start s) by apply Hok.
  destruct (Z.lt_ge_cases size 1) as [Hlt | Hge].
  { exists NULL, s. split; [now apply balloc_small|now left]. }
  destruct (scan (rounded_size size) bs None) as [[fit w]|] eqn:Hsc.
  - pose proof (scan_walk s (rounded_size size) _ bs Hw None
                  ltac:(discriminate)) as Hsp.
    rewrite Hsc in Hsp.
    destruct Hsp as ([? | Hin] & Hfit & _); [discriminate|].
    destruct (heap_ok_block _ _ _ _ Hok Hin) as (Hr & _).
    destruct (balloc_some s size bs fit w Hw Hhs (conj Hge Hs) Hsc Hr)
      as (nw & _ & Heq).
    eexists. eexists. split; [exact Heq|]. right. split.
    + exists w. replace (fit + headerSize - headerSize) with fit by lia.
      split; [assumption|].
      unfold fits in Hfit. cbn [snd] in Hfit.
      apply andb_true_iff in Hfit. apply Hfit.
    + destruct (_ <=? _); unfold same_frame; auto.
  - exists NULL, s. split; [|now left].
    now apply (balloc_none s size bs).
Qed.

Lemma balloc_never_faults_witness :
  exists p s',
    balloc fresh_heap 100 = Some (p, s') /\
    (p = NULL /\ s' = fresh_heap \/
     (exists w, In (p - headerSize, w) [(1048580, 4090)] /\
                is_free w = true) /\
     same_frame fresh_heap s').
Proof.
  apply (balloc_never_faults fresh_heap [(1048580, 4090)] 100).
  - compute_heap_ok.
  - vm_compute. discriminate.
Defined.

(** ** The words written by [balloc] and the total size, on a run *)

Lemma balloc_frame_witness :
  let fit := 1048584 - headerSize in
  let needed := rounded_size 100 in
  exists w,
    In (fit, w) [(1048580, 4090)] /\
    if headerSize + 8 <=? size_of w - needed then
      forall x, x <> fit -> x <> fit + needed ->
                x <> fit + size_of w - headerSize ->
                mem hundred_heap x = mem fresh_heap x
    else
      (forall x, x <> fit -> x <> fit + size_of w ->
                 mem hundred_heap x = mem fresh_heap x) /\
      mem hundred_heap (fit + size_of w)
      = Z.lor (mem fresh_heap (fit + size_of w)) 2.
Proof.
  apply (balloc_frame fresh_heap [(1048580, 4090)] 100).
  - compute_heap_ok.
  - vm_compute. split; discriminate.
  - vm_compute. reflexivity.
  - discriminate.
Defined.

Lemma balloc_all_total_witness :
  exists bs,
    heap_ok (state_of ('(_, s) <- balloc_all fresh_heap [100; 8; 5000; 20] ;;
                       Some s)) bs /\
    total bs
    = alloc_size (state_of ('(_, s) <- balloc_all fresh_heap
                                          [100; 8; 5000; 20] ;; Some s)).
Proof.
  apply (balloc_all_total os4096 4096 fresh_heap
           (state_of ('(_, s) <- balloc_all fresh_heap [100; 8; 5000; 20] ;;
                      Some s))
           [100; 8; 5000; 20] [1048584; 1048688; 0; 1048704]).
  - vm_compute. discriminate.
  - vm_compute. reflexivity.
  - vm_compute. discriminate.
  - vm_compute. reflexivity.
  - vm_compute. discriminate.
  - vm_compute. reflexivity.
  - repeat constructor; vm_compute; discriminate.
  - vm_compute. reflexivity.
Defined.

(** ** [init_heap] followed by a series of [balloc] *)

Lemma init_heap_invariants (e : os_env) (sizeOfRegion : Z) (s0 : state) :
  16 <= pagesize e -> pagesize e mod 8 = 0 ->
  0 <= mmap_ptr e -> mmap_ptr e mod 8 = 0 ->
  sizeOfRegion + pagesize e <= Int.max_signed ->
  init_heap e initial_state sizeOfRegion = Some (0, s0) ->
  let w := alloc_size s0 + 2 in
  heap_ok s0 [(heap_start s0, w)] /\
  is_free w = true /\ p_bit w = 2 /\ size_of w = alloc_size s0 /\
  8 <= alloc_size s0 /\
  footers_ok s0 [(heap_start s0, w)].
Proof.
  intros Hps Hps8 Hmp Hm8 Hmax Hinit.
  destruct (init_heap_state e sizeOfRegion s0 Hps Hps8 Hmp Hm8 Hmax Hinit)
    as (Hlo & Hhi & Hhs & HA8 & HA & HAmax & Hm1 & Hm2 & Hm3).
  destruct (init_heap_ok e sizeOfRegion s0 Hps Hps8 Hmp Hm8 Hmax Hinit)
    as (Hok & _ & _).
  cbv zeta.
  assert (Hsz : size_of (alloc_size s0 + 2) = alloc_size s0) by (bits; zdm).
  split; [assumption|].
  split; [apply is_free_a_bit; bits; zdm|].
  split; [bits; zdm|]. split; [assumption|]. split; [assumption|].
  intros a w [E | []] _. injection E as <- <-.
  rewrite Hsz, Hhs. unfold load, headerSize.
  replace (valid_access s0 (mmap_ptr e + 4 + alloc_size s0 - 4)) with true.
  - f_equal. rewrite <- Hm2. f_equal. lia.
  - symmetry. apply valid_access_bounds. rewrite Hlo, Hhi.
    repeat split; first [lia | zdm].
Qed.

(** After [init_heap] and any series of [balloc] calls, with no [bfree] in
    between, the heap is well formed, the previous-block bit of every header
    records the status of the block before it, every free block ends in a
    footer that holds its size, and no two free blocks are neighbours. *)
Theorem balloc_all_invariants
    (e : os_env) (sizeOfRegion : Z) (s0 s : state) (sizes ps : list Z) :
  16 <= pagesize e -> pagesize e mod 8 = 0 ->
  0 <= mmap_ptr e -> mmap_ptr e mod 8 = 0 ->
  sizeOfRegion + pagesize e <= Int.max_signed ->
  init_heap e initial_state sizeOfRegion = Some (0, s0) ->
  Forall (fun size => size <= Int.max_signed - 11) sizes ->
  balloc_all s0 sizes = Some (ps, s) ->
  exists bs,
    heap_ok s bs /\ prev_bits_ok true bs = true /\ footers_ok s bs /\
    no_adjacent_free bs = true.
Proof.
  intros Hps Hps8 Hmp Hm8 Hmax Hinit Hsz Hrun.
  destruct (init_heap_invariants e sizeOfRegion s0 Hps Hps8 Hmp Hm8 Hmax
                                 Hinit)
    as (Hok & _ & Hpb & _ & _ & Hft).
  assert (Hbits : prev_bits_ok true [(heap_start s0, alloc_size s0 + 2)]
                  = true).
  { cbn [prev_bits_ok snd]. rewrite Hpb. reflexivity. }
  assert (Hadj : no_adjacent_free [(heap_start s0, alloc_size s0 + 2)]
                 = true) by reflexivity.
  clear Hinit Hpb.
  remember [(heap_start s0, alloc_size s0 + 2)] as bs0 eqn:E. clear E.
  revert s0 bs0 ps Hok Hbits Hft Hadj Hrun.
  induction Hsz as [|size sizes Hs Hsz IH];
    intros s0 bs0 ps Hok Hbits Hft Hadj Hrun.
  - injection Hrun as <- <-. eauto.
  - cbn [balloc_all] in Hrun.
    destruct (balloc s0 size) as [[p s1]|] eqn:Hb; [|discriminate].
    cbn [bind] in Hrun.
    destruct (balloc_all s1 sizes) as [[ps' s2]|] eqn:Hr; [|discriminate].
    cbn [bind] in Hrun. injection Hrun as <- <-.
    destruct (Z.eq_dec p NULL) as [-> | Hp].
    + rewrite (balloc_null_state _ _ _ _ Hok Hs Hb) in Hr.
      eapply (IH s0 bs0); eauto.
    + pose proof (balloc_size_pos _ _ _ _ Hb Hp) as Hs1.
      destruct (balloc_step _ _ _ _ _ Hok (conj Hs1 Hs) Hb Hp)
        as (pre & w & post & -> & Hfw & _ & Hr8 & Hok' & Hft').
      eapply (IH s1); [exact Hok'| | |  |exact Hr].
      * apply prev_bits_ok_balloc; [assumption|zdm|assumption].
      * auto.
      * apply no_adjacent_free_balloc; [assumption|zdm|assumption].
Qed.

Lemma balloc_all_invariants_witness :
  exists bs,
    heap_ok (state_of ('(_, s) <- balloc_all fresh_heap [100; 8; 5000; 20] ;;
                       Some s)) bs /\
    prev_bits_ok true bs = true /\
    footers_ok (state_of ('(_, s) <- balloc_all fresh_heap [100; 8; 5000; 20]
                          ;; Some s)) bs /\
    no_adjacent_free bs = true.
Proof.
  apply (balloc_all_invariants os4096 4096 fresh_heap
           (state_of ('(_, s) <- balloc_all fresh_heap [100; 8; 5000; 20] ;;
                      Some s))
           [100; 8; 5000; 20] [1048584; 1048688; 0; 1048704]).
  - vm_compute. discriminate.
  - vm_compute. reflexivity.
  - vm_compute. discriminate.
  - vm_compute. reflexivity.
  - vm_compute. discriminate.
  - vm_compute. reflexivity.
  - repeat constructor; vm_compute; discriminate.
  - vm_compute. reflexivity.
Defined.

(** ** Without [bfree], [balloc] hands out the heap front to back *)

Lemma scan_allocated (size : Z) (used rest : list (Z * Z)) :
  forallb (fun b => negb (is_free (snd b))) used = true ->
  forall fit, scan size (used ++ rest) fit = scan size rest fit.
Proof.
  induction used as [|b used IH]; intros Hall fit; [reflexivity|].
  cbn [forallb] in Hall. apply andb_true_iff in Hall.
  destruct Hall as [Hb Hall]. cbn [app scan]. unfold fits.
  apply negb_true_iff in Hb. rewrite Hb. cbn [andb]. now apply IH.
Qed.

Lemma split_last_free (used pre post : list (Z * Z)) (b c : Z * Z) :
  forallb (fun b => negb (is_free (snd b))) used = true ->
  is_free (snd c) = true ->
  used ++ [b] = pre ++ c :: post ->
  pre = used /\ post = [] /\ c = b.
Proof.
  revert pre. induction used as [|u used IH]; intros pre Hall Hc E.
  - destruct pre as [|p pre]; cbn [app] in E.
    + injection E as <- <-. auto.
    + injection E as _ E. destruct pre; discriminate.
  - cbn [forallb] in Hall. apply andb_true_iff in Hall.
    destruct Hall as [Hu Hall]. apply negb_true_iff in Hu.
    destruct pre as [|p pre]; cbn [app] in E.
    + injection E as <- _. congruence.
    + injection E as <- E. destruct (IH pre Hall Hc E) as (-> & -> & ->).
      auto.
Qed.

(** The shape of a heap on which nothing was freed: allocated blocks from
    [heap_start] up to [next], then one free block of [left] bytes, or
    nothing when [left] is 0. *)
Lemma balloc_bump_step (s : state) (used : list (Z * Z)) (next left : Z) :
  forallb (fun b => negb (is_free (snd b))) used = true ->
  next = heap_start s + total used ->
  (left = 0 /\ heap_ok s used) \/
  (exists w, is_free w = true /\ size_of w = left /\ 0 < left /\
             heap_ok s (used ++ [(next, w)])) ->
  forall size, size <= Int.max_signed - 11 ->
    let r := rounded_size size in
    let ok := (1 <=? size) && (r <=? left) in
    let taken := if headerSize + 8 <=? left - r then r else left in
    exists s' used',
      balloc s size = Some (if ok then next + headerSize else NULL, s') /\
      forallb (fun b => negb (is_free (snd b))) used' = true /\
      (if ok then next + taken else next) = heap_start s' + total used' /\
      let left' := if ok then left - taken else left in
      (left' = 0 /\ heap_ok s' used') \/
      (exists w, is_free w = true /\ size_of w = left' /\ 0 < left' /\
                 heap_ok s' (used' ++ [(if ok then next + taken else next,
                                        w)])).
Proof.
  intros Hall Hnext Hshape size Hs r ok taken.
  assert (Hsame : ok = false ->
            balloc s size = Some (NULL, s) ->
            exists s' used',
              balloc s size = Some (NULL, s') /\
              forallb (fun b => negb (is_free (snd b))) used' = true /\
              next = heap_start s' + total used' /\
              ((left = 0 /\ heap_ok s' used') \/
               (exists w, is_free w = true /\ size_of w = left /\ 0 < left /\
                          heap_ok s' (used' ++ [(next, w)])))).
  { intros _ Hb. exists s, used. auto. }
  destruct (Z.leb_spec 1 size) as [Hs1 | Hs0]; cbn [andb] in ok.
  2:{ subst ok. cbv iota zeta. apply Hsame; [reflexivity|].
      apply balloc_small. lia. }
  destruct (rounded_size_spec size (conj Hs1 Hs)) as (_ & Hr8 & Hrb).
  fold r in Hr8, Hrb. unfold headerSize in Hrb.
  destruct (Z.leb_spec r left) as [Hfit | Hno]; subst ok; cbv iota zeta.
  2:{ apply Hsame; [reflexivity|].
      destruct Hshape as [(-> & Hok) | (w & Hfw & Hsw & Hl & Hok)].
      - apply (balloc_none s size used);
          [now apply heap_ok_walk|apply Hok|assumption|].
        rewrite <- (app_nil_r used) at 1.
        now rewrite scan_allocated.
      - apply (balloc_none s size (used ++ [(next, w)]));
          [now apply heap_ok_walk|apply Hok|assumption|].
        rewrite scan_allocated by assumption. cbn [scan]. unfold fits.
        cbn [snd]. fold r. rewrite Hsw.
        destruct (Z.leb_spec r left); [lia|].
        rewrite andb_false_r. reflexivity. }
  destruct Hshape as [(-> & Hok) | (w & Hfw & Hsw & Hl & Hok)]; [lia|].
  assert (Hin : In (next, w) (used ++ [(next, w)])).
  { apply in_or_app. right. now left. }
  assert (Hsc : scan (rounded_size size) (used ++ [(next, w)]) None
                = Some (next, w)).
  { rewrite scan_allocated by assumption. cbn [scan]. unfold fits.
    cbn [snd]. fold r. rewrite Hfw, Hsw.
    destruct (Z.leb_spec r left); [reflexivity|lia]. }
  destruct (heap_ok_block _ _ _ _ Hok Hin) as (Hrw & Hw8 & _).
  destruct (balloc_some s size _ next w (heap_ok_walk _ _ Hok)
                        ltac:(apply Hok) (conj Hs1 Hs) Hsc Hrw)
    as (nw & Hnl & Hb).
  fold r in Hb. rewrite Hsw in Hb.
  assert (Hp : next + headerSize <> NULL).
  { destruct (walk_In _ _ _ (heap_ok_walk _ _ Hok) _ _ Hin)
      as (_ & _ & Hge & _).
    destruct Hok as (_ & _ & Hhs & _). unfold headerSize, NULL. lia. }
  destruct (balloc_heap_ok _ _ _ _ _ Hok Hs Hb) as ((_ & _ & Ehs & _) & _).
  destruct (balloc_blocks _ _ _ _ _ Hok (conj Hs1 Hs) Hb Hp)
    as (pre & w' & nw' & post & E & Hfw' & _ & _ & _ & Hok').
  cbv zeta in E, Hok'.
  replace (next + headerSize - headerSize) with next in E, Hok' by lia.
  destruct (split_last_free used pre post (next, w) (next, w') Hall Hfw' E)
    as (-> & -> & Ew).
  injection Ew as ->. fold r in Hok'.
  unfold blocks_after_balloc in Hok'. subst taken. rewrite Hsw in Hok'.
  eexists. rewrite Hb. rewrite Ehs.
  destruct (headerSize + 8 <=? left - r) eqn:Hcase.
  - (* split *)
    apply Z.leb_le in Hcase. unfold headerSize in Hcase.
    destruct (bits_alloc_header r w ltac:(zdm)) as (Ea & _ & Esz).
    destruct (bits_rest_header (left - r) ltac:(zdm)) as (Fa & _ & Fsz).
    exists (used ++ [(next, Z.lor (Z.lor r 1) (p_bit w))]).
    split; [reflexivity|]. split; [|split].
    + rewrite forallb_app, Hall. cbn [forallb snd andb].
      apply is_free_false in Ea. rewrite Ea. reflexivity.
    + rewrite total_app. cbn [total fold_right snd]. rewrite Esz. lia.
    + right. exists (Z.lor (left - r) 2).
      split; [now apply is_free_a_bit|]. split; [assumption|].
      split; [lia|]. rewrite <- app_assoc. exact Hok'.
  - (* the whole block *)
    exists (used ++ [(next, Z.lor w 1)]).
    split; [reflexivity|]. split; [|split].
    + rewrite forallb_app, Hall. cbn [forallb snd andb].
      pose proof (a_bit_lor_1 w) as Ea.
      apply is_free_false in Ea. rewrite Ea. reflexivity.
    + rewrite total_app. cbn [total fold_right snd].
      rewrite size_of_lor_1. lia.
    + left. split; [lia|exact Hok'].
Qed.

Lemma balloc_all_bump_from (sizes : list Z) :
  Forall (fun size => size <= Int.max_signed - 11) sizes ->
  forall (s : state) (used : list (Z * Z)) (next left : Z),
    forallb (fun b => negb (is_free (snd b))) used = true ->
    next = heap_start s + total used ->
    (left = 0 /\ heap_ok s used) \/
    (exists w, is_free w = true /\ size_of w = left /\ 0 < left /\
               heap_ok s (used ++ [(next, w)])) ->
    exists s', balloc_all s sizes = Some (bump_all next left sizes, s').
Proof.
  induction 1 as [|size sizes Hs Hsz IH];
    intros s used next left Hall Hnext Hshape.
  - exists s. reflexivity.
  - destruct (balloc_bump_step s used next left Hall Hnext Hshape size Hs)
      as (s1 & used1 & Hb & Hall1 & Hnext1 & Hshape1).
    cbv zeta in Hshape1.
    cbn [balloc_all bump_all]. rewrite Hb. cbn [bind].
    destruct ((1 <=? size) && (rounded_size size <=? left));
      destruct (IH s1 used1 _ _ Hall1 Hnext1 Hshape1) as (s2 & ->);
      cbn [bind]; eauto.
Qed.

(** Without a [bfree], [balloc] is a bump allocator for requests of at most
    [INT_MAX - 11] bytes each.  After [init_heap], every series of such
    requests is served and never faults; a request that fits in what is left
    gets the address that follows the block handed out before it (the first
    one gets [heap_start] plus the header), and a request that does not fit,
    or asks for less than one byte, gets [NULL]. *)
Theorem balloc_all_bump
    (e : os_env) (sizeOfRegion : Z) (s0 : state) (sizes : list Z) :
  16 <= pagesize e -> pagesize e mod 8 = 0 ->
  0 <= mmap_ptr e -> mmap_ptr e mod 8 = 0 ->
  sizeOfRegion + pagesize e <= Int.max_signed ->
  init_heap e initial_state sizeOfRegion = Some (0, s0) ->
  Forall (fun size => size <= Int.max_signed - 11) sizes ->
  exists s,
    balloc_all s0 sizes
    = Some (bump_all (heap_start s0) (alloc_size s0) sizes, s).
Proof.
  intros Hps Hps8 Hmp Hm8 Hmax Hinit Hsz.
  destruct (init_heap_invariants e sizeOfRegion s0 Hps Hps8 Hmp Hm8 Hmax
                                 Hinit)
    as (Hok & Hfw & _ & Hsw & HA & _).
  apply (balloc_all_bump_from sizes Hsz s0 []).
  - reflexivity.
  - cbn. lia.
  - right. exists (alloc_size s0 + 2).
    split; [assumption|]. split; [assumption|]. split; [lia|exact Hok].
Qed.

Lemma balloc_all_bump_witness :
  exists s,
    balloc_all fresh_heap [100; 8; 5000; 20]
    = Some (bump_all (heap_start fresh_heap) (alloc_size fresh_heap)
                     [100; 8; 5000; 20], s).
Proof.
  apply (balloc_all_bump os4096 4096 fresh_heap [100; 8; 5000; 20]).
  - vm_compute. discriminate.
  - vm_compute. reflexivity.
  - vm_compute. discriminate.
  - vm_compute. reflexivity.
  - vm_compute. discriminate.
  - vm_compute. reflexivity.
  - repeat constructor; vm_compute; discriminate.
Defined.

(** ** [bfree] next to a free block with a footer *)

(** The state that [bfree] leaves when the word before the freed block
    holds [psz] and the header [psz] bytes before the block has its
    allocated bit clear. *)
Lemma bfree_after_free_state (s : state) (b w psz pw nw : Z) :
  let sz := size_of w in
  let next_free := negb (nw =? 1) && (a_bit nw =? 0) in
  0 < b -> (b + 4) mod 8 = 0 -> heap_start s <= b - 4 ->
  load s b = Some w -> a_bit w = 1 -> 8 <= sz ->
  load s (b - 4) = Some psz -> 0 < psz ->
  load s (b - psz) = Some pw -> a_bit pw = 0 ->
  valid_access s (b + sz - 4) = true ->
  load s (b + sz) = Some nw ->
  Int.in_range (sz + psz) ->
  (next_free = true ->
   Int.in_range (sz + psz + size_of nw) /\
   valid_access s (b + sz + size_of nw - 4) = true) ->
  bfree s (b + headerSize) =
  Some (0, if next_free
           then merged_next (merged_prev (freed s b sz) b sz psz)
                            (b - psz) (sz + psz) (size_of nw)
           else merged_prev (freed s b sz) b sz psz).
Proof.
  intros sz next_free Hb Hal Hhs Hl Ha Hsz Hpf Hpsz Hpl Hpa Hfv Hnl Hr2 Hm.
  destruct (load_some _ _ _ Hl) as [Hv _].
  destruct (load_some _ _ _ Hpl) as [Hplv _].
  pose proof (size_of_mod4 w) as Hs4. fold sz in Hs4.
  assert (Hw1 : w <> 1).
  { intros ->. subst sz. vm_compute in Hsz. contradiction. }
  unfold bfree, headerSize.
  destruct (Z.eqb_spec (b + 4) NULL); [unfold NULL in *; lia|].
  replace (Z.rem (Int.wrap (b + 4)) 8 =? 0) with true
    by (symmetry; apply Z.eqb_eq, rem8_wrap; assumption).
  cbn [negb]. replace (b + 4 - 4) with b by lia.
  rewrite Hl. cbn [bind]. fold (a_bit w). rewrite Ha.
  change (1 =? 0) with false. cbv iota.
  destruct (Z.ltb_spec b (heap_start s)); [lia|].
  destruct (Z.eqb_spec w 1); [contradiction|]. cbn [orb].
  fold (size_of w). fold sz.
  rewrite (store_valid s b) by assumption. cbn [bind].
  rewrite store_valid by (rewrite valid_access_upd; assumption).
  cbn [bind].
  change (upd (upd s b sz) (b + sz - 4) sz) with (freed s b sz).
  assert (Hfv' : forall x, valid_access (freed s b sz) x = valid_access s x).
  { intros x. unfold freed. now rewrite !valid_access_upd. }
  assert (Hfl : forall x, x <> b -> x <> b + sz - 4 ->
                          load (freed s b sz) x = load s x).
  { intros x H1 H2. unfold freed, headerSize.
    now rewrite !load_upd_other by assumption. }
  assert (Hfb : load (freed s b sz) b = Some sz).
  { unfold freed, headerSize. rewrite load_upd_other by lia.
    now apply load_upd_same. }
  unfold coalesce. rewrite Hfb. cbn [bind].
  replace (Z.land sz (Z.lnot 3)) with sz by (rewrite land_lnot3; zdm).
  unfold coalesce_prev, headerSize.
  rewrite (Hfl (b - 4)) by lia. rewrite Hpf. cbn [bind].
  change (heap_start (freed s b sz)) with (heap_start s).
  destruct (Z.leb_spec (heap_start s) (b - 4)); [|lia].
  replace (b - 4 - psz + 4) with (b - psz) by lia.
  rewrite (Hfl (b - psz)) by lia. rewrite Hpl. cbn [bind].
  fold (a_bit pw). rewrite Hpa. change (0 =? 0) with true. cbv iota.
  unfold Int.add at 1 2 3. rewrite (wrap_small _ Hr2).
  rewrite store_valid by (rewrite Hfv'; assumption). cbn [bind].
  rewrite store_valid by (rewrite valid_access_upd, Hfv'; assumption).
  cbn [bind].
  change (upd (upd (freed s b sz) (b - psz) (sz + psz)) (b + sz - 4)
              (sz + psz))
    with (merged_prev (freed s b sz) b sz psz).
  set (s4 := merged_prev (freed s b sz) b sz psz).
  assert (Hv4 : forall x, valid_access s4 x = valid_access s x).
  { intros x. unfold s4, merged_prev. now rewrite !valid_access_upd, Hfv'. }
  assert (Hl4 : load s4 (b - psz + (sz + psz)) = Some nw).
  { replace (b - psz + (sz + psz)) with (b + sz) by lia.
    unfold s4, merged_prev, headerSize.
    rewrite !load_upd_other by lia. rewrite Hfl by lia. exact Hnl. }
  unfold coalesce_next, headerSize.
  rewrite Hl4. cbn [bind]. fold (a_bit nw) (size_of nw). fold next_free.
  destruct next_free; [|reflexivity].
  destruct (Hm eq_refl) as [Hr Hnv].
  unfold Int.add. rewrite (wrap_small _ Hr).
  rewrite store_valid by (rewrite Hv4; assumption). cbn [bind].
  rewrite store_valid.
  - reflexivity.
  - rewrite valid_access_upd, Hv4.
    replace (b - psz + (sz + psz) + size_of nw - 4)
      with (b + sz + size_of nw - 4) by lia.
    assumption.
Qed.

(** [bfree] of an allocated block whose left neighbour is free and ends in
    a footer with its size ([psz], read from the word before the block;
    [pw] is the header found [psz] bytes before the block).  The two blocks,
    and the right neighbour as well when it is free and not the end mark,
    become one free block that starts at the header of the left neighbour:
    its header and its footer hold the sum of the sizes, with both status
    bits clear.  Besides these two words only the header and the footer of
    the freed block are written. *)
Theorem bfree_merges_with_previous (s : state) (b w psz pw nw : Z) :
  let sz := size_of w in
  let next_free := negb (nw =? 1) && (a_bit nw =? 0) in
  let merged := if next_free then psz + sz + size_of nw else psz + sz in
  0 < b -> (b + 4) mod 8 = 0 -> heap_start s <= b - 4 ->
  load s b = Some w -> a_bit w = 1 -> 8 <= sz ->
  load s (b - 4) = Some psz -> 8 <= psz ->
  load s (b - psz) = Some pw -> a_bit pw = 0 ->
  valid_access s (b + sz - 4) = true ->
  load s (b + sz) = Some nw -> 0 <= size_of nw ->
  Int.in_range merged ->
  (next_free = true -> valid_access s (b + sz + size_of nw - 4) = true) ->
  exists s',
    bfree s (b + headerSize) = Some (0, s') /\
    load s' (b - psz) = Some merged /\
    load s' (b - psz + merged - 4) = Some merged /\
    forall x, x <> b - psz -> x <> b -> x <> b + sz - 4 ->
              x <> b - psz + merged - 4 -> mem s' x = mem s x.
Proof.
  intros sz next_free merged Hb Hal Hhs Hl Ha Hsz Hpf Hpsz Hpl Hpa Hfv Hnl
         Hnsz Hr Hm.
  destruct (load_some _ _ _ Hpl) as [Hplv _].
  assert (Hr2 : Int.in_range (sz + psz)).
  { subst merged. unfold Int.in_range, Int.min_signed, Int.max_signed in *.
    destruct next_free; lia. }
  eexists. split.
  { apply (bfree_after_free_state s b w psz pw nw); try assumption; try lia.
    fold next_free. intros E. specialize (Hm E). subst merged.
    fold next_free in Hr. rewrite E in Hr.
    split; [|assumption].
    replace (size_of w + psz + size_of nw) with (psz + sz + size_of nw)
      by (subst sz; lia).
    assumption. }
  fold sz next_free. subst merged.
  unfold merged_next, merged_prev, freed, headerSize.
  destruct next_free.
  - specialize (Hm eq_refl).
    replace (b - psz + (psz + sz + size_of nw) - 4)
      with (b - psz + (sz + psz) + size_of nw - 4) by lia.
    replace (psz + sz + size_of nw) with (sz + psz + size_of nw) by lia.
    split; [|split].
    + rewrite load_upd_other by lia. apply load_upd_same.
      now rewrite !valid_access_upd.
    + apply load_upd_same. rewrite !valid_access_upd.
      replace (b - psz + (sz + psz) + size_of nw - 4)
        with (b + sz + size_of nw - 4) by lia.
      assumption.
    + intros x H1 H2 H3 H4. cbn [mem upd].
      destruct (Z.eqb_spec x (b - psz + (sz + psz) + size_of nw - 4));
        [contradiction|].
      destruct (Z.eqb_spec x (b - psz)); [contradiction|].
      destruct (Z.eqb_spec x (b + sz - 4)); [contradiction|].
      destruct (Z.eqb_spec x b); [contradiction|reflexivity].
  - replace (b - psz + (psz + sz) - 4) with (b + sz - 4) by lia.
    replace (psz + sz) with (sz + psz) by lia.
    split; [|split].
    + rewrite load_upd_other by lia. apply load_upd_same.
      now rewrite !valid_access_upd.
    + apply load_upd_same. now rewrite !valid_access_upd.
    + intros x H1 H2 H3 _. cbn [mem upd].
      destruct (Z.eqb_spec x (b + sz - 4)); [contradiction|].
      destruct (Z.eqb_spec x (b - psz)); [contradiction|].
      destruct (Z.eqb_spec x b); [contradiction|reflexivity].
Qed.

Lemma bfree_merges_with_previous_witness :
  exists s',
    bfree free_first_heap (1048596 + headerSize) = Some (0, s') /\
    load s' (1048596 - 16) = Some 4088 /\
    load s' (1048596 - 16 + 4088 - 4) = Some 4088 /\
    forall x, x <> 1048596 - 16 -> x <> 1048596 ->
              x <> 1048596 + 16 - 4 ->
              x <> 1048596 - 16 + 4088 - 4 ->
              mem s' x = mem free_first_heap x.
Proof.
  apply (bfree_merges_with_previous free_first_heap 1048596 19 16 16 4058).
  - reflexivity.
  - reflexivity.
  - vm_compute. discriminate.
  - vm_compute. reflexivity.
  - reflexivity.
  - vm_compute. discriminate.
  - vm_compute. reflexivity.
  - vm_compute. discriminate.
  - vm_compute. reflexivity.
  - reflexivity.
  - vm_compute. reflexivity.
  - vm_compute. reflexivity.
  - vm_compute. discriminate.
  - vm_compute. split; discriminate.
  - intros _. vm_compute. reflexivity.
Defined.

(** ** [bfree] between allocated blocks *)

(** [bfree] of an allocated block where [coalesce] finds nothing to merge:
    the word before the block holds a positive number [psz] and the header
    [psz] bytes before the block has its allocated bit set, and the word
    behind the block is the end mark or a header with its allocated bit
    set.  The block gets a header with both status bits clear and a footer
    with its size; no other word is written. *)
Theorem bfree_between_allocated_blocks (s : state) (b w psz pw nw : Z) :
  let sz := size_of w in
  0 < b -> (b + 4) mod 8 = 0 -> heap_start s <= b - 4 ->
  load s b = Some w -> a_bit w = 1 -> 8 <= sz ->
  load s (b - 4) = Some psz -> 0 < psz ->
  load s (b - psz) = Some pw -> a_bit pw = 1 ->
  valid_access s (b + sz - 4) = true ->
  load s (b + sz) = Some nw -> nw = 1 \/ a_bit nw = 1 ->
  exists s',
    bfree s (b + headerSize) = Some (0, s') /\
    load s' b = Some sz /\ load s' (b + sz - 4) = Some sz /\
    forall x, x <> b -> x <> b + sz - 4 -> mem s' x = mem s x.
Proof.
  intros sz Hb Hal Hhs Hl Ha Hsz Hpf Hpsz Hpl Hpa Hfv Hnl Hn.
  destruct (load_some _ _ _ Hl) as [Hv _].
  pose proof (size_of_mod4 w) as Hs4. fold sz in Hs4.
  assert (Hw1 : w <> 1).
  { intros ->. subst sz. vm_compute in Hsz. contradiction. }
  unfold bfree, headerSize.
  destruct (Z.eqb_spec (b + 4) NULL); [unfold NULL in *; lia|].
  replace (Z.rem (Int.wrap (b + 4)) 8 =? 0) with true
    by (symmetry; apply Z.eqb_eq, rem8_wrap; assumption).
  cbn [negb]. replace (b + 4 - 4) with b by lia.
  rewrite Hl. cbn [bind]. fold (a_bit w). rewrite Ha.
  change (1 =? 0) with false. cbv iota.
  destruct (Z.ltb_spec b (heap_start s)); [lia|].
  destruct (Z.eqb_spec w 1); [contradiction|]. cbn [orb].
  fold (size_of w). fold sz.
  rewrite (store_valid s b) by assumption. cbn [bind].
  rewrite store_valid by (rewrite valid_access_upd; assumption).
  cbn [bind].
  change (upd (upd s b sz) (b + sz - 4) sz) with (freed s b sz).
  assert (Hfl : forall x, x <> b -> x <> b + sz - 4 ->
                          load (freed s b sz) x = load s x).
  { intros x H1 H2. unfold freed, headerSize.
    now rewrite !load_upd_other by assumption. }
  assert (Hfb : load (freed s b sz) b = Some sz).
  { unfold freed, headerSize. rewrite load_upd_other by lia.
    now apply load_upd_same. }
  unfold coalesce. rewrite Hfb. cbn [bind].
  replace (Z.land sz (Z.lnot 3)) with sz by (rewrite land_lnot3; zdm).
  unfold coalesce_prev, headerSize.
  rewrite (Hfl (b - 4)) by lia. rewrite Hpf. cbn [bind].
  change (heap_start (freed s b sz)) with (heap_start s).
  destruct (Z.leb_spec (heap_start s) (b - 4)); [|lia].
  replace (b - 4 - psz + 4) with (b - psz) by lia.
  rewrite (Hfl (b - psz)) by lia. rewrite Hpl. cbn [bind].
  fold (a_bit pw). rewrite Hpa. change (1 =? 0) with false. cbv iota.
  cbn [bind]. unfold coalesce_next, headerSize.
  rewrite (Hfl (b + sz)) by lia. rewrite Hnl. cbn [bind].
  fold (a_bit nw).
  replace (negb (nw =? 1) && (a_bit nw =? 0)) with false.
  2:{ destruct Hn as [-> | ->]; [reflexivity|].
      change (1 =? 0) with false. now rewrite andb_false_r. }
  eexists. split; [reflexivity|]. split; [exact Hfb|]. split.
  - unfold freed, headerSize. apply load_upd_same.
    rewrite valid_access_upd. assumption.
  - intros x H1 H2. unfold freed, headerSize. cbn [mem upd].
    destruct (Z.eqb_spec x (b + sz - 4)); [contradiction|].
    destruct (Z.eqb_spec x b); [contradiction|reflexivity].
Qed.

Lemma bfree_between_allocated_blocks_witness :
  exists s',
    bfree written_payload_heap (1048596 + headerSize) = Some (0, s') /\
    load s' 1048596 = Some (size_of 19) /\
    load s' (1048596 + size_of 19 - 4) = Some (size_of 19) /\
    forall x, x <> 1048596 -> x <> 1048596 + size_of 19 - 4 ->
              mem s' x = mem written_payload_heap x.
Proof.
  apply (bfree_between_allocated_blocks written_payload_heap
           1048596 19 16 19 19).
  - reflexivity.
  - reflexivity.
  - vm_compute. discriminate.
  - vm_compute. reflexivity.
  - reflexivity.
  - vm_compute. discriminate.
  - vm_compute. reflexivity.
  - reflexivity.
  - vm_compute. reflexivity.
  - reflexivity.
  - vm_compute. reflexivity.
  - vm_compute. reflexivity.
  - right. reflexivity.
Defined.

(** ** The block list after [bfree] *)

Lemma walk_cons_inv (s : state) (a b w : Z) (post : list (Z * Z)) :
  walk s a ((b, w) :: post) ->
  b = a /\ load s a = Some w /\ 0 < size_of w /\
  walk s (a + size_of w) post.
Proof. inversion 1; subst; auto. Qed.

Lemma walk_nil_inv (s : state) (a : Z) :
  walk s a [] -> exists e, load s a = Some e /\ size_of e <= 0.
Proof. inversion 1; subst; eauto. Qed.

Lemma walk_total_nonneg (s : state) (a : Z) (bs : list (Z * Z)) :
  walk s a bs -> 0 <= total bs.
Proof.
  induction 1 as [|a w bs Hl Hpos Hw IH]; cbn [total fold_right snd].
  - lia.
  - fold (total bs). lia.
Qed.

(** Stretches of blocks and scans only depend on the words they read. *)
Lemma seg_frame (s s' : state) (a e : Z) (bs : list (Z * Z)) :
  seg s a bs e -> (forall x, x < e -> load s' x = load s x) ->
  seg s' a bs e.
Proof.
  induction 1 as [a | a w e bs Hl Hs Hseg IH]; intros Hx.
  - constructor.
  - pose proof (seg_range _ _ _ _ Hseg) as [Hae _].
    econstructor; [rewrite Hx by lia; eassumption|assumption|].
    apply IH. assumption.
Qed.

Lemma walk_frame (s s' : state) (a : Z) (bs : list (Z * Z)) :
  walk s a bs -> (forall x, a <= x -> load s' x = load s x) ->
  walk s' a bs.
Proof.
  induction 1 as [a w Hl Hs | a w bs Hl Hs Hw IH]; intros Hx.
  - eapply walk_end; [rewrite Hx by lia; eassumption|assumption].
  - eapply walk_cons; [rewrite Hx by lia; eassumption|lia|].
    apply IH. intros x Hle. apply Hx. lia.
Qed.

(** A well-formed heap in which the stretch from [a] to [a + m] has become
    one block with header word [m], the words outside the stretch being
    left alone. *)
Lemma heap_rebuild
    (s s' : state) (bs pre rest : list (Z * Z)) (a m : Z) :
  heap_ok s bs -> incl pre bs -> incl rest bs ->
  seg s (heap_start s) pre a -> walk s (a + m) rest ->
  heap_start s' = heap_start s ->
  (forall x, x < a \/ a + m <= x -> load s' x = load s x) ->
  load s' a = Some m -> 8 <= m <= Int.max_signed -> m mod 8 = 0 ->
  heap_ok s' (pre ++ (a, m) :: rest) /\
  (footers_ok s bs -> load s' (a + m - headerSize) = Some m ->
   footers_ok s' (pre ++ (a, m) :: rest)).
Proof.
  intros Hok Hpre Hrest Hseg Hw Hhs Hout Hl Hm Hm8.
  assert (Hsz : size_of m = m) by (bits; zdm).
  assert (Hblocks : forall l, incl l bs -> forallb block_ok l = true).
  { intros l Hl'. apply forallb_forall. intros x Hx.
    destruct Hok as (_ & Hall & _).
    rewrite forallb_forall in Hall. apply Hall, Hl', Hx. }
  split.
  - unfold heap_ok. rewrite heap_blocks_walk, Hhs.
    split; [|split; [|split; apply Hok]].
    + eapply seg_walk.
      * eapply seg_frame; [eassumption|]. intros x Hx. apply Hout. lia.
      * eapply walk_cons; [eassumption|lia|]. rewrite Hsz.
        eapply walk_frame; [eassumption|]. intros x Hx. apply Hout. lia.
    + rewrite forallb_app. cbn [forallb].
      rewrite (Hblocks pre Hpre), (Hblocks rest Hrest), block_ok_intro.
      * reflexivity.
      * unfold Int.max_signed in Hm. lia.
      * now rewrite Hsz.
  - intros Hft Hfoot x w Hin Hfree.
    apply in_app_or in Hin. destruct Hin as [Hin | [E | Hin]].
    + destruct (seg_In _ _ _ _ Hseg _ _ Hin) as (_ & Hpos & _ & Hend).
      rewrite Hout by (unfold headerSize; lia).
      apply Hft; [apply Hpre|]; assumption.
    + injection E as <- <-. rewrite Hsz. assumption.
    + destruct (walk_In _ _ _ Hw _ _ Hin) as (_ & Hpos & Hge & _).
      destruct (heap_ok_block s bs x w Hok (Hrest _ Hin)) as (_ & H8 & _).
      rewrite Hout by (unfold headerSize; zdm).
      apply Hft; [apply Hrest|]; assumption.
Qed.

Lemma no_adjacent_free_tail (x : Z * Z) (l : list (Z * Z)) :
  no_adjacent_free (x :: l) = true -> no_adjacent_free l = true.
Proof.
  cbn [no_adjacent_free]. intros H. apply andb_true_iff in H. apply H.
Qed.

Lemma no_adjacent_free_app_r (pre l : list (Z * Z)) :
  no_adjacent_free (pre ++ l) = true -> no_adjacent_free l = true.
Proof.
  induction pre as [|p pre IH]; [auto|].
  intros H. apply IH. eapply no_adjacent_free_tail. exact H.
Qed.

Lemma no_adjacent_free_after_bfree (a m : Z) (post : list (Z * Z)) :
  no_adjacent_free post = true ->
  no_adjacent_free (blocks_after_bfree a m post) = true.
Proof.
  destruct post as [|c post]; [reflexivity|]. intros H.
  unfold blocks_after_bfree. destruct (is_free (snd c)) eqn:Hc.
  - cbn [no_adjacent_free] in *. rewrite Hc in H.
    destruct post as [|d post]; [reflexivity|].
    cbn [andb negb snd] in *. apply andb_true_iff in H.
    destruct H as [Hd H]. apply negb_true_iff in Hd.
    rewrite Hd, andb_false_r. exact H.
  - change (no_adjacent_free ((a, m) :: c :: post))
      with (negb (is_free (snd (a, m)) && is_free (snd c))
            && no_adjacent_free (c :: post)).
    rewrite Hc, andb_false_r. exact H.
Qed.

Lemma no_adjacent_free_replace (x : Z * Z) (l l' : list (Z * Z)) :
  is_free (snd x) = true -> no_adjacent_free l' = true ->
  forall pre,
    no_adjacent_free (pre ++ x :: l) = true ->
    no_adjacent_free (pre ++ l') = true.
Proof.
  intros Hx Hl'. induction pre as [|p pre IH]; intros H; [assumption|].
  cbn [app no_adjacent_free] in *.
  apply andb_true_iff in H. destruct H as [Hp H].
  rewrite (IH H), andb_true_r.
  destruct pre as [|q pre]; [|exact Hp].
  cbn [app] in *. rewrite Hx, andb_true_r in Hp.
  apply negb_true_iff in Hp.
  destruct l' as [|c l']; [reflexivity|]. now rewrite Hp.
Qed.

(** What [bfree] relies on at the end of the heap: the word behind the last
    block is the end mark, as [init_heap] wrote it or with the
    previous-block bit that [balloc] sets. *)
Lemma end_word_not_free (s : state) (a e : Z) :
  load s a = Some 1 \/ load s a = Some 3 -> load s a = Some e ->
  negb (e =? 1) && (a_bit e =? 0) = false /\ size_of e = 0.
Proof.
  intros [H | H] He; rewrite H in He; injection He as <-; split; reflexivity.
Qed.

(** [bfree] of an allocated block behind a free block, on a well-formed
    heap in which every free block ends in a footer with its size: the
    freed block, the free block before it and, when it is free, the block
    behind it become one free block.  The heap is well formed again, its
    blocks add up to the same size, every free block ends in a footer with
    its size, and where no two free blocks were neighbours, none are. *)
Theorem bfree_coalesces_with_free_neighbours
    (s : state) (pre post : list (Z * Z)) (a pw b w : Z) :
  let bs := pre ++ (a, pw) :: (b, w) :: post in
  let bs' := pre ++ blocks_after_bfree a (size_of pw + size_of w) post in
  heap_ok s bs -> footers_ok s bs ->
  load s (heap_start s + total bs) = Some 1 \/
  load s (heap_start s + total bs) = Some 3 ->
  total bs <= Int.max_signed ->
  is_free pw = true -> a_bit w = 1 ->
  exists s',
    bfree s (b + headerSize) = Some (0, s') /\
    heap_ok s' bs' /\ footers_ok s' bs' /\ total bs' = total bs /\
    (no_adjacent_free bs = true -> no_adjacent_free bs' = true).
Proof.
  intros bs bs' Hok Hft Hend Htot Hfree Ha.
  pose proof (heap_ok_walk _ _ Hok) as Hw.
  destruct (walk_split s pre ((b, w) :: post) (a, pw) _ Hw) as [Hseg Hwa].
  cbn [fst] in *.
  apply walk_cons_inv in Hwa. destruct Hwa as (_ & Hla & Hppos & Hwb).
  apply walk_cons_inv in Hwb. destruct Hwb as (Eb & Hlb & Hpos & Hwpost).
  rewrite <- Eb in Hlb, Hwpost.
  assert (Hina : In (a, pw) bs).
  { apply in_or_app. right. now left. }
  assert (Hinb : In (b, w) bs).
  { apply in_or_app. right. right. now left. }
  destruct (heap_ok_block _ _ _ _ Hok Hina) as (_ & Hp8 & Ha8).
  destruct (heap_ok_block _ _ _ _ Hok Hinb) as (_ & Hw8 & Hb8).
  pose proof (Hft _ _ Hina Hfree) as Hfoot.
  pose proof (seg_total _ _ _ _ Hseg) as Ea.
  pose proof (seg_range _ _ _ _ Hseg) as [Hge _].
  pose proof (walk_total_nonneg _ _ _ Hwpost) as Hpost0.
  assert (Etot : total bs = total pre + (size_of pw + (size_of w + total post))).
  { unfold bs. rewrite total_app. reflexivity. }
  assert (Hhs : 0 < heap_start s) by apply Hok.
  set (psz := size_of pw) in *. set (sz := size_of w) in *.
  assert (Hpre : incl pre bs).
  { intros x Hx. apply in_or_app. now left. }
  destruct (load_some _ _ _ Hlb) as [Hvb _].
  pose proof (proj1 (valid_access_bounds _ _) Hvb) as Hvbb.
  unfold Int.max_signed in Htot.
  apply is_free_a_bit in Hfree.
  assert (Hfoot' : load s (b - 4) = Some psz).
  { replace (b - 4) with (a + psz - headerSize)
      by (unfold headerSize; lia). assumption. }
  assert (Hpl : load s (b - psz) = Some pw).
  { replace (b - psz) with a by lia. assumption. }
  assert (Hr2 : Int.in_range (sz + psz)).
  { unfold Int.in_range, Int.min_signed, Int.max_signed. lia. }
  assert (Hpsz8 : 8 <= psz) by zdm.
  assert (Hsz8 : 8 <= sz) by zdm.
  assert (Hb4 : (b + 4) mod 8 = 0) by zdm.
  destruct post as [|[c nw] post'].
  - (* the freed block is the last one *)
    destruct (walk_nil_inv _ _ Hwpost) as (e & Hle & _).
    assert (Eend : heap_start s + total bs = b + sz).
    { rewrite Etot. cbn [total fold_right]. lia. }
    rewrite Eend in Hend.
    destruct (end_word_not_free _ _ _ Hend Hle) as [Hnf He0].
    destruct (load_some _ _ _ Hle) as [Hve _].
    pose proof (proj1 (valid_access_bounds _ _) Hve) as Hveb.
    eexists. split.
    { apply (bfree_after_free_state s b w psz pw e); try assumption;
        try lia.
      fold sz. valid. }
    rewrite Hnf. fold sz.
    unfold bs', blocks_after_bfree.
    assert (Hl' : load (merged_prev (freed s b sz) b sz psz) a
                  = Some (psz + sz)).
    { unfold merged_prev, freed, headerSize.
      rewrite load_upd_other by lia.
      replace (b - psz) with a by lia. replace (sz + psz) with (psz + sz)
        by lia.
      apply load_upd_same. rewrite !valid_access_upd.
      apply load_some in Hla. apply Hla. }
    destruct (heap_rebuild s (merged_prev (freed s b sz) b sz psz) bs pre []
                           a (psz + sz)) as [Hok' Hft'];
      try assumption.
    + intros x [].
    + replace (a + (psz + sz)) with (b + sz) by lia. assumption.
    + reflexivity.
    + intros x Hx. unfold merged_prev, freed, headerSize.
      rewrite !load_upd_other by lia. reflexivity.
    + unfold Int.max_signed. lia.
    + zdm.
    + split; [exact Hok'|]. split; [|split].
      * apply Hft'; [assumption|].
        unfold merged_prev, freed, headerSize.
        replace (a + (psz + sz) - 4) with (b + sz - 4) by lia.
        replace (sz + psz) with (psz + sz) by lia.
        apply load_upd_same. rewrite !valid_access_upd. valid.
      * rewrite total_app, Etot. cbn [total fold_right snd].
        replace (size_of (psz + sz)) with (psz + sz) by (bits; zdm). lia.
      * intros Hnaf.
        apply (no_adjacent_free_replace (a, pw) [(b, w)]);
          [now apply is_free_a_bit|reflexivity|exact Hnaf].
  - (* a block follows *)
    apply walk_cons_inv in Hwpost.
    destruct Hwpost as (Ec & Hlc & Hcpos & Hwpost'). subst c.
    assert (Hinc : In (b + sz, nw) bs).
    { apply in_or_app. right. right. right. now left. }
    destruct (heap_ok_block _ _ _ _ Hok Hinc) as (_ & Hn8 & _).
    pose proof (walk_total_nonneg _ _ _ Hwpost') as Hpost0'.
    cbn [total fold_right snd] in Hpost0, Etot. fold (total post') in *.
    set (nsz := size_of nw) in *.
    assert (Hn1 : (nw =? 1) = false).
    { apply Z.eqb_neq. intros ->. subst nsz. vm_compute in Hcpos.
      discriminate. }
    destruct (walk_In _ _ _ Hw _ _ Hinc) as (_ & _ & _ & nn & Hlnn).
    destruct (load_some _ _ _ Hlnn) as [Hvn _].
    pose proof (proj1 (valid_access_bounds _ _) Hvn) as Hvnb.
    fold nsz in Hvnb.
    destruct (load_some _ _ _ Hlc) as [Hvc _].
    pose proof (proj1 (valid_access_bounds _ _) Hvc) as Hvcb.
    assert (Hpost' : incl post' bs).
    { intros x Hx. apply in_or_app. right. right. right. now right. }
    assert (Hpostc : incl ((b + sz, nw) :: post') bs).
    { intros x Hx. apply in_or_app. right. right. now right. }
    eexists. split.
    { apply (bfree_after_free_state s b w psz pw nw); try assumption;
        try lia; fold sz nsz; [valid|].
      intros _. split.
      - unfold Int.in_range, Int.min_signed, Int.max_signed. lia.
      - valid. }
    rewrite Hn1. cbn [negb andb]. fold sz nsz.
    unfold bs', blocks_after_bfree. cbn [snd]. unfold is_free.
    fold nsz.
    destruct (a_bit nw =? 0) eqn:Hnfree.
    + (* the block behind is free: three blocks become one *)
      assert (Hl' : load (merged_next (merged_prev (freed s b sz) b sz psz)
                                      (b - psz) (sz + psz) nsz) a
                    = Some (psz + sz + nsz)).
      { unfold merged_next, merged_prev, freed, headerSize.
        rewrite load_upd_other by lia.
        replace (b - psz) with a by lia.
        replace (sz + psz + nsz) with (psz + sz + nsz) by lia.
        apply load_upd_same. rewrite !valid_access_upd.
        apply load_some in Hla. apply Hla. }
      destruct (heap_rebuild s
                  (merged_next (merged_prev (freed s b sz) b sz psz)
                               (b - psz) (sz + psz) nsz)
                  bs pre post' a (psz + sz + nsz)) as [Hok' Hft'];
        try assumption.
      * replace (a + (psz + sz + nsz)) with (b + sz + nsz) by lia.
        assumption.
      * reflexivity.
      * intros x Hx. unfold merged_next, merged_prev, freed, headerSize.
        rewrite !load_upd_other by lia. reflexivity.
      * unfold Int.max_signed. lia.
      * zdm.
      * split; [exact Hok'|]. split; [|split].
        -- apply Hft'; [assumption|].
           unfold merged_next, merged_prev, freed, headerSize.
           replace (a + (psz + sz + nsz) - 4)
             with (b - psz + (sz + psz) + nsz - 4) by lia.
           replace (psz + sz + nsz) with (sz + psz + nsz) by lia.
           apply load_upd_same. rewrite !valid_access_upd. valid.
        -- rewrite total_app, Etot. cbn [total fold_right snd].
           fold (total post').
           replace (size_of (psz + sz + nsz)) with (psz + sz + nsz)
             by (bits; zdm).
           lia.
        -- intros Hnaf.
           apply (no_adjacent_free_replace (a, pw)
                    ((b, w) :: (b + sz, nw) :: post'));
             [now apply is_free_a_bit| |exact Hnaf].
           apply no_adjacent_free_app_r in Hnaf.
           apply no_adjacent_free_tail, no_adjacent_free_tail in Hnaf.
           pose proof (no_adjacent_free_after_bfree a (psz + sz) _ Hnaf)
             as H'.
           unfold blocks_after_bfree in H'. cbn [snd] in H'.
           unfold is_free in H'. rewrite Hnfree in H'. exact H'.
    + (* the block behind is allocated *)
      assert (Hl' : load (merged_prev (freed s b sz) b sz psz) a
                    = Some (psz + sz)).
      { unfold merged_prev, freed, headerSize.
        rewrite load_upd_other by lia.
        replace (b - psz) with a by lia. replace (sz + psz) with (psz + sz)
          by lia.
        apply load_upd_same. rewrite !valid_access_upd.
        apply load_some in Hla. apply Hla. }
      destruct (heap_rebuild s (merged_prev (freed s b sz) b sz psz) bs pre
                             ((b + sz, nw) :: post') a (psz + sz))
        as [Hok' Hft']; try assumption.
      * replace (a + (psz + sz)) with (b + sz) by lia.
        eapply walk_cons; eassumption.
      * reflexivity.
      * intros x Hx. unfold merged_prev, freed, headerSize.
        rewrite !load_upd_other by lia. reflexivity.
      * unfold Int.max_signed. lia.
      * zdm.
      * split; [exact Hok'|]. split; [|split].
        -- apply Hft'; [assumption|].
           unfold merged_prev, freed, headerSize.
           replace (a + (psz + sz) - 4) with (b + sz - 4) by lia.
           replace (sz + psz) with (psz + sz) by lia.
           apply load_upd_same. rewrite !valid_access_upd. valid.
        -- rewrite total_app, Etot. cbn [total fold_right snd].
           fold (total post'). fold nsz.
           replace (size_of (psz + sz)) with (psz + sz) by (bits; zdm).
           lia.
        -- intros Hnaf.
           apply (no_adjacent_free_replace (a, pw)
                    ((b, w) :: (b + sz, nw) :: post'));
             [now apply is_free_a_bit| |exact Hnaf].
           apply no_adjacent_free_app_r in Hnaf.
           apply no_adjacent_free_tail, no_adjacent_free_tail in Hnaf.
           pose proof (no_adjacent_free_after_bfree a (psz + sz) _ Hnaf)
             as H'.
           unfold blocks_after_bfree in H'. cbn [snd] in H'.
           unfold is_free in H'. rewrite Hnfree in H'. exact H'.
Qed.

Lemma bfree_coalesces_with_free_neighbours_witness :
  exists s',
    bfree free_first_heap (1048596 + headerSize) = Some (0, s') /\
    heap_ok s' [(1048580, 4088)] /\ footers_ok s' [(1048580, 4088)] /\
    total [(1048580, 4088)]
    = total [(1048580, 16); (1048596, 19); (1048612, 4058)] /\
    (no_adjacent_free [(1048580, 16); (1048596, 19); (1048612, 4058)] = true ->
     no_adjacent_free [(1048580, 4088)] = true).
Proof.
  apply (bfree_coalesces_with_free_neighbours free_first_heap
           [] [(1048612, 4058)] 1048580 16 1048596 19).
  - compute_heap_ok.
  - apply footers_okb_sound. vm_compute. reflexivity.
  - left. vm_compute. reflexivity.
  - vm_compute. discriminate.
  - reflexivity.
  - reflexivity.
Defined.

(** [bfree] of the first block of a well-formed heap in which every free
    block ends in a footer with its size: there is no block before it to
    look at (the word before [heap_start] is read, so it has to be mapped,
    as it is after [init_heap]); the block becomes a free block and takes
    in the block behind it when that block is free.  The heap is well
    formed again, its blocks add up to the same size, every free block ends
    in a footer with its size, and where no two free blocks were
    neighbours, none are. *)
Theorem bfree_first_block_coalesces
    (s : state) (w : Z) (post : list (Z * Z)) :
  let b := heap_start s in
  let bs := (b, w) :: post in
  let bs' := blocks_after_bfree b (size_of w) post in
  heap_ok s bs -> footers_ok s bs ->
  load s (b + total bs) = Some 1 \/ load s (b + total bs) = Some 3 ->
  total bs <= Int.max_signed ->
  map_lo s <= b - 4 -> a_bit w = 1 ->
  exists s',
    bfree s (b + headerSize) = Some (0, s') /\
    heap_ok s' bs' /\ footers_ok s' bs' /\ total bs' = total bs /\
    (no_adjacent_free bs = true -> no_adjacent_free bs' = true).
Proof.
  intros b bs bs' Hok Hft Hend Htot Hlo Ha.
  pose proof (heap_ok_walk _ _ Hok) as Hw. fold b in Hw.
  apply walk_cons_inv in Hw. destruct Hw as (_ & Hlb & Hpos & Hwpost).
  assert (Hinb : In (b, w) bs) by now left.
  destruct (heap_ok_block _ _ _ _ Hok Hinb) as (_ & Hw8 & Hb8).
  pose proof (walk_total_nonneg _ _ _ Hwpost) as Hpost0.
  assert (Etot : total bs = size_of w + total post) by reflexivity.
  assert (Hhs : 0 < b) by apply Hok.
  set (sz := size_of w) in *.
  destruct (load_some _ _ _ Hlb) as [Hvb _].
  pose proof (proj1 (valid_access_bounds _ _) Hvb) as Hvbb.
  unfold Int.max_signed in Htot.
  assert (Hsz8 : 8 <= sz) by zdm.
  assert (Hb4 : (b + 4) mod 8 = 0) by zdm.
  assert (Hpv : valid_access s (b - 4) = true) by valid.
  assert (Hseg : seg s (heap_start s) [] b) by constructor.
  assert (Hpre : incl (@nil (Z * Z)) bs) by (intros x []).
  destruct post as [|[c nw] post'].
  - (* the only block *)
    destruct (walk_nil_inv _ _ Hwpost) as (e & Hle & _).
    assert (Eend : b + total bs = b + sz).
    { rewrite Etot. cbn [total fold_right]. lia. }
    rewrite Eend in Hend.
    destruct (end_word_not_free _ _ _ Hend Hle) as [Hnf He0].
    destruct (load_some _ _ _ Hle) as [Hve _].
    pose proof (proj1 (valid_access_bounds _ _) Hve) as Hveb.
    eexists. split.
    { apply (bfree_first_block s w e); try assumption.
      - fold sz. rewrite He0.
        unfold Int.in_range, Int.min_signed, Int.max_signed. lia.
      - rewrite Hnf. discriminate. }
    rewrite Hnf. fold b sz.
    unfold bs', blocks_after_bfree.
    assert (Hl' : load (freed s b sz) b = Some sz).
    { unfold freed, headerSize. rewrite load_upd_other by lia.
      now apply load_upd_same. }
    destruct (heap_rebuild s (freed s b sz) bs [] [] b sz)
      as [Hok' Hft']; try assumption.
    + reflexivity.
    + intros x Hx. unfold freed, headerSize.
      rewrite !load_upd_other by lia. reflexivity.
    + unfold Int.max_signed. lia.
    + split; [exact Hok'|]. split; [|split].
      * apply Hft'; [assumption|].
        unfold freed, headerSize.
        apply load_upd_same. rewrite !valid_access_upd. valid.
      * rewrite Etot. cbn [total fold_right snd].
        replace (size_of sz) with sz by (bits; zdm). lia.
      * reflexivity.
  - (* a block follows *)
    apply walk_cons_inv in Hwpost.
    destruct Hwpost as (Ec & Hlc & Hcpos & Hwpost'). subst c.
    assert (Hinc : In (b + sz, nw) bs) by (right; now left).
    destruct (heap_ok_block _ _ _ _ Hok Hinc) as (_ & Hn8 & _).
    pose proof (walk_total_nonneg _ _ _ Hwpost') as Hpost0'.
    cbn [total fold_right snd] in Hpost0, Etot. fold (total post') in *.
    set (nsz := size_of nw) in *.
    assert (Hn1 : (nw =? 1) = false).
    { apply Z.eqb_neq. intros ->. subst nsz. vm_compute in Hcpos.
      discriminate. }
    destruct (walk_In _ _ _ (heap_ok_walk _ _ Hok) _ _ Hinc)
      as (_ & _ & _ & nn & Hlnn).
    destruct (load_some _ _ _ Hlnn) as [Hvn _].
    pose proof (proj1 (valid_access_bounds _ _) Hvn) as Hvnb.
    fold nsz in Hvnb.
    destruct (load_some _ _ _ Hlc) as [Hvc _].
    pose proof (proj1 (valid_access_bounds _ _) Hvc) as Hvcb.
    assert (Hpost' : incl post' bs).
    { intros x Hx. right. now right. }
    assert (Hpostc : incl ((b + sz, nw) :: post') bs).
    { intros x Hx. now right. }
    eexists. split.
    { apply (bfree_first_block s w nw); try assumption.
      - fold sz nsz.
        unfold Int.in_range, Int.min_signed, Int.max_signed. lia.
      - intros _. fold b sz nsz. valid. }
    rewrite Hn1. cbn [negb andb]. fold b sz nsz.
    unfold bs', blocks_after_bfree. cbn [snd]. unfold is_free.
    fold nsz.
    destruct (a_bit nw =? 0) eqn:Hnfree.
    + (* the block behind is free *)
      assert (Hl' : load (merged_next (freed s b sz) b sz nsz) b
                    = Some (sz + nsz)).
      { unfold merged_next, freed, headerSize.
        rewrite load_upd_other by lia.
        apply load_upd_same. now rewrite !valid_access_upd. }
      destruct (heap_rebuild s (merged_next (freed s b sz) b sz nsz)
                             bs [] post' b (sz + nsz)) as [Hok' Hft'];
        try assumption.
      * replace (b + (sz + nsz)) with (b + sz + nsz) by lia. assumption.
      * reflexivity.
      * intros x Hx. unfold merged_next, freed, headerSize.
        rewrite !load_upd_other by lia. reflexivity.
      * unfold Int.max_signed. lia.
      * zdm.
      * split; [exact Hok'|]. split; [|split].
        -- apply Hft'; [assumption|].
           unfold merged_next, freed, headerSize.
           replace (b + (sz + nsz) - 4) with (b + sz + nsz - 4) by lia.
           apply load_upd_same. rewrite !valid_access_upd. valid.
        -- rewrite Etot. cbn [app total fold_right snd].
           fold (total post').
           replace (size_of (sz + nsz)) with (sz + nsz) by (bits; zdm).
           lia.
        -- intros Hnaf. apply no_adjacent_free_tail in Hnaf.
           pose proof (no_adjacent_free_after_bfree b sz _ Hnaf) as H'.
           unfold blocks_after_bfree in H'. cbn [snd] in H'.
           unfold is_free in H'. fold nsz in H'.
           rewrite Hnfree in H'. exact H'.
    + (* the block behind is allocated *)
      assert (Hl' : load (freed s b sz) b = Some sz).
      { unfold freed, headerSize. rewrite load_upd_other by lia.
        now apply load_upd_same. }
      destruct (heap_rebuild s (freed s b sz) bs []
                             ((b + sz, nw) :: post') b sz)
        as [Hok' Hft']; try assumption.
      * eapply walk_cons; eassumption.
      * reflexivity.
      * intros x Hx. unfold freed, headerSize.
        rewrite !load_upd_other by lia. reflexivity.
      * unfold Int.max_signed. lia.
      * split; [exact Hok'|]. split; [|split].
        -- apply Hft'; [assumption|].
           unfold freed, headerSize.
           apply load_upd_same. rewrite !valid_access_upd. valid.
        -- rewrite Etot. cbn [app total fold_right snd].
           fold (total post'). fold nsz.
           replace (size_of sz) with sz by (bits; zdm).
           lia.
        -- intros Hnaf. apply no_adjacent_free_tail in Hnaf.
           pose proof (no_adjacent_free_after_bfree b sz _ Hnaf) as H'.
           unfold blocks_after_bfree in H'. cbn [snd] in H'.
           unfold is_free in H'. fold nsz in H'.
           rewrite Hnfree in H'. exact H'.
Qed.

Lemma bfree_first_block_coalesces_witness :
  exists s',
    bfree one_block_heap (heap_start one_block_heap + headerSize)
    = Some (0, s') /\
    heap_ok s' [(1048580, 4088)] /\ footers_ok s' [(1048580, 4088)] /\
    total [(1048580, 4088)] = total [(1048580, 19); (1048596, 4074)] /\
    (no_adjacent_free [(1048580, 19); (1048596, 4074)] = true ->
     no_adjacent_free [(1048580, 4088)] = true).
Proof.
  apply (bfree_first_block_coalesces one_block_heap 19 [(1048596, 4074)]).
  - compute_heap_ok.
  - apply footers_okb_sound. vm_compute. reflexivity.
  - left. vm_compute. reflexivity.
  - vm_compute. discriminate.
  - vm_compute. discriminate.
  - reflexivity.
Defined.

(** ** The report of [disp_heap] *)

Lemma used_free_total (bs : list (Z * Z)) :
  used_total bs + free_total bs = total bs.
Proof.
  unfold used_total, free_total.
  induction bs as [|[a w] bs IH]; [reflexivity|].
  cbn [filter snd]. destruct (is_free w); cbn [negb total fold_right snd];
    fold (total bs);
    fold (total (filter (fun b => negb (is_free (snd b))) bs));
    fold (total (filter (fun b => is_free (snd b)) bs)); lia.
Qed.

Lemma total_nonneg (s : state) (a : Z) (bs : list (Z * Z)) :
  walk s a bs ->
  0 <= used_total bs /\ 0 <= free_total bs /\
  8 * Z.of_nat (length bs) <= 8 * Z.of_nat (length bs) + total bs.
Proof.
  unfold used_total, free_total.
  induction 1 as [|a w bs Hl Hpos Hw IH]; [cbn; lia|].
  cbn [filter snd length]. destruct (is_free w);
    cbn [negb total fold_right snd];
    fold (total bs);
    fold (total (filter (fun b => negb (is_free (snd b))) bs));
    fold (total (filter (fun b => is_free (snd b)) bs)); lia.
Qed.

(** One turn of the loop of [disp_heap] on the header of a block. *)
Lemma disp_heap_loop_block (s : state) (current w : Z) :
  load s current = Some w -> 0 < size_of w -> Int.in_range w ->
  forall fuel counter used_size free_size acc,
    disp_heap_loop (S fuel) s current counter used_size free_size acc
    = disp_heap_loop fuel s (current + size_of w) (Int.add counter 1)
        (if is_free w then used_size else Int.add used_size (size_of w))
        (if is_free w then Int.add free_size (size_of w) else free_size)
        (line_of counter (current, w) :: acc).
Proof.
  intros Hl Hpos Hr fuel counter used_size free_size acc.
  cbn [disp_heap_loop]. rewrite Hl.
  destruct (Z.eqb_spec w 1) as [-> | _]; [discriminate|].
  unfold Int.in_range, Int.min_signed, Int.max_signed in Hr.
  assert (Hsub : forall x k, - 2 ^ 31 <= x - k <= 2 ^ 31 - 1 ->
                             Int.sub x k = x - k).
  { intros x k Hx. unfold Int.sub. apply wrap_small.
    unfold Int.in_range, Int.min_signed, Int.max_signed. lia. }
  set (t1 := if negb (Z.land w 1 =? 0) then Int.sub w 1 else w).
  set (t2 := if negb (Z.land t1 2 =? 0) then Int.sub t1 2 else t1).
  assert (Ht1 : t1 = w - w mod 2).
  { subst t1. rewrite land_1.
    destruct (Z.eqb_spec (w mod 2) 0) as [E | E]; cbn [negb].
    - lia.
    - rewrite Hsub by zdm. zdm. }
  assert (Ht2 : t2 = size_of w).
  { subst t2. rewrite land_2, Ht1, size_of_eq.
    destruct (Z.eqb_spec ((w - w mod 2) mod 4 - (w - w mod 2) mod 2) 0)
      as [E | E]; cbn [negb].
    - zdm.
    - rewrite Hsub by zdm. zdm. }
  assert (Hp : negb (Z.land t1 2 =? 0) = (p_bit w =? 2)).
  { rewrite Ht1, land_2, p_bit_eq.
    destruct (Z.eqb_spec ((w - w mod 2) mod 4 - (w - w mod 2) mod 2) 0);
      destruct (Z.eqb_spec (w mod 4 - w mod 2) 2); cbn [negb];
      try reflexivity; exfalso; zdm. }
  assert (Ha : negb (Z.land w 1 =? 0) = (a_bit w =? 1)).
  { rewrite land_1, a_bit_eq.
    destruct (Z.eqb_spec (w mod 2) 0); destruct (Z.eqb_spec (w mod 2) 1);
      cbn [negb]; try reflexivity; exfalso; zdm. }
  assert (Hf : is_free w = negb (a_bit w =? 1)).
  { unfold is_free. rewrite a_bit_eq.
    destruct (Z.eqb_spec (w mod 2) 0); destruct (Z.eqb_spec (w mod 2) 1);
      cbn [negb]; try reflexivity; exfalso; zdm. }
  rewrite Ht2, Hp, Ha, Hf. unfold line_of. cbn [fst snd].
  destruct (a_bit w =? 1); reflexivity.
Qed.

Lemma disp_heap_loop_blocks (s : state) :
  forall (bs : list (Z * Z)) (a : Z),
    walk s a bs -> forallb block_ok bs = true ->
    load s (a + total bs) = Some 1 ->
    forall fuel counter used_size free_size acc,
      (length bs < fuel)%nat ->
      0 <= counter -> counter + Z.of_nat (length bs) <= Int.max_signed ->
      0 <= used_size -> 0 <= free_size ->
      used_size + free_size + total bs <= Int.max_signed ->
      disp_heap_loop fuel s a counter used_size free_size acc
      = Done (rev acc ++ lines_of counter bs,
              used_size + used_total bs, free_size + free_total bs).
Proof.
  intros bs a Hw. induction Hw as [a w Hl Hsz | a w bs Hl Hpos Hw IH];
    intros Hok Hend fuel counter used_size free_size acc Hfuel Hc0 Hc Hu Hf
           Hsum.
  - cbn [total fold_right] in Hend. rewrite Z.add_0_r in Hend.
    destruct fuel as [|fuel]; [cbn in Hfuel; lia|].
    cbn [disp_heap_loop]. rewrite Hend. cbn.
    rewrite app_nil_r, !Z.add_0_r. reflexivity.
  - cbn [forallb] in Hok. apply andb_true_iff in Hok.
    destruct Hok as [Hb Hok].
    unfold block_ok in Hb. cbn [snd] in Hb. apply andb_true_iff in Hb.
    destruct Hb as [Hr H8]. apply in_rangeb_true in Hr.
    apply Z.eqb_eq in H8.
    cbn [total fold_right snd] in Hend, Hsum. fold (total bs) in Hend, Hsum.
    rewrite Z.add_assoc in Hend.
    destruct fuel as [|fuel]; [cbn in Hfuel; lia|].
    cbn [length] in Hfuel, Hc.
    rewrite (disp_heap_loop_block s a w Hl Hpos Hr).
    destruct (total_nonneg _ _ _ Hw) as (Hu0 & Hf0 & _).
    pose proof (used_free_total bs) as Huf.
    unfold Int.max_signed in *.
    assert (Hadd : forall x y, 0 <= x -> 0 <= y -> x + y <= 2 ^ 31 - 1 ->
                               Int.add x y = x + y).
    { intros x y Hx Hy Hxy. unfold Int.add. apply wrap_small. int_range. }
    rewrite (Hadd counter 1) by lia.
    rewrite IH; try assumption; try lia.
    + cbn [rev lines_of]. rewrite <- app_assoc. cbn [app].
      unfold used_total, free_total. cbn [filter snd].
      destruct (is_free w); cbn [negb total fold_right snd];
        fold (total (filter (fun b => negb (is_free (snd b))) bs));
        fold (total (filter (fun b => is_free (snd b)) bs));
        rewrite ?Hadd by lia; apply f_equal;
        (apply f_equal2; [apply f_equal2; [reflexivity|lia]|lia]).
    + destruct (is_free w); rewrite ?Hadd by lia; lia.
    + destruct (is_free w); rewrite ?Hadd by lia; lia.
    + destruct (is_free w); rewrite ?Hadd by lia; lia.
Qed.

(** On a well-formed heap whose end mark is intact and whose blocks add up
    to an [int], [disp_heap] comes to its end and lists the blocks of the
    heap in address order, numbered from 1: for each block its status, the
    status its header records for the previous block, its first and last
    byte and its size without the status bits.  The totals it prints are
    the sums of the sizes of the allocated and of the free blocks, and they
    add up to the size of all blocks. *)
Theorem disp_heap_report (s : state) (bs : list (Z * Z)) (fuel : nat) :
  heap_ok s bs ->
  load s (heap_start s + total bs) = Some 1 ->
  total bs <= Int.max_signed ->
  (length bs < fuel)%nat ->
  disp_heap fuel s = Done (lines_of 1 bs, used_total bs, free_total bs) /\
  used_total bs + free_total bs = total bs.
Proof.
  intros Hok Hend Htot Hfuel. split; [|apply used_free_total].
  pose proof (heap_ok_walk _ _ Hok) as Hw.
  destruct Hok as (_ & Hb & _).
  assert (Hlen : 8 * Z.of_nat (length bs) <= total bs).
  { clear Hend Htot Hfuel. revert Hb.
    induction Hw as [|a w bs Hl Hpos Hw IH]; intros Hb; [cbn; lia|].
    cbn [forallb] in Hb. apply andb_true_iff in Hb. destruct Hb as [Hb Hbs].
    unfold block_ok in Hb. apply andb_true_iff in Hb. destruct Hb as [_ H8].
    apply Z.eqb_eq in H8. cbn [snd] in H8.
    specialize (IH Hbs). cbn [length total fold_right snd]. fold (total bs).
    assert (8 <= size_of w) by zdm. lia. }
  unfold disp_heap.
  rewrite (disp_heap_loop_blocks s bs _ Hw Hb Hend fuel 1 0 0 []);
    try assumption; try lia; [reflexivity|].
  unfold Int.max_signed in *. lia.
Qed.

Lemma disp_heap_report_witness :
  disp_heap 4 one_block_heap
  = Done (lines_of 1 [(1048580, 19); (1048596, 4074)],
          used_total [(1048580, 19); (1048596, 4074)],
          free_total [(1048580, 19); (1048596, 4074)]) /\
  used_total [(1048580, 19); (1048596, 4074)]
  + free_total [(1048580, 19); (1048596, 4074)]
  = total [(1048580, 19); (1048596, 4074)].
Proof.
  apply (disp_heap_report one_block_heap [(1048580, 19); (1048596, 4074)] 4).
  - compute_heap_ok.
  - vm_compute. reflexivity.
  - vm_compute. discriminate.
  - vm_compute. lia.
Defined.

(** ** [disp_heap] stops at the end mark only *)

Lemma disp_heap_loop_forever (s : state) (w : Z) :
  w <> 1 -> size_of w = 0 -> Int.in_range w ->
  forall (bs : list (Z * Z)) (a : Z),
    walk s a bs -> forallb block_ok bs = true ->
    load s (a + total bs) = Some w ->
    forall fuel counter used_size free_size acc,
      disp_heap_loop fuel s a counter used_size free_size acc = OutOfFuel.
Proof.
  intros Hw1 Hw0 Hwr bs a Hw.
  induction Hw as [a w' Hl Hsz | a w' bs Hl Hpos Hw IH];
    intros Hok Hend fuel counter used_size free_size acc.
  - cbn [total fold_right] in Hend. rewrite Z.add_0_r in Hend.
    now apply (disp_heap_loop_stuck s a w).
  - destruct fuel as [|fuel]; [reflexivity|].
    cbn [forallb] in Hok. apply andb_true_iff in Hok.
    destruct Hok as [Hb Hok].
    unfold block_ok in Hb. cbn [snd] in Hb. apply andb_true_iff in Hb.
    destruct Hb as [Hr _]. apply in_rangeb_true in Hr.
    assert (Hne : w' <> 1).
    { intros ->. vm_compute in Hpos. discriminate. }
    destruct (disp_heap_loop_next s a w' Hl Hne Hr fuel counter
                                  used_size free_size acc)
      as (c' & u' & f' & acc' & ->).
    apply IH; [assumption|].
    cbn [total fold_right snd] in Hend. fold (total bs) in Hend.
    now rewrite Z.add_assoc in Hend.
Qed.

(** The loop of [disp_heap] ends at a word equal to 1 and nowhere else:
    on a well-formed heap whose blocks are followed by 0, 2 or 3 (the end
    mark reads 3 once [balloc] has set its previous-block bit) [disp_heap]
    does not come to an end, whatever number of steps it is given. *)
Theorem disp_heap_needs_end_mark
    (s : state) (bs : list (Z * Z)) (w : Z) (fuel : nat) :
  heap_ok s bs ->
  load s (heap_start s + total bs) = Some w ->
  w = 0 \/ w = 2 \/ w = 3 ->
  disp_heap fuel s = OutOfFuel.
Proof.
  intros Hok Hend Hw. unfold disp_heap.
  apply (disp_heap_loop_forever s w) with (bs := bs).
  - destruct Hw as [-> | [-> | ->]]; discriminate.
  - destruct Hw as [-> | [-> | ->]]; reflexivity.
  - destruct Hw as [-> | [-> | ->]]; vm_compute; split; discriminate.
  - now apply heap_ok_walk.
  - apply Hok.
  - assumption.
Qed.

Lemma disp_heap_needs_end_mark_witness :
  disp_heap 1000 full_heap = OutOfFuel.
Proof.
  apply (disp_heap_needs_end_mark full_heap [(1048580, 4091)] 3 1000).
  - compute_heap_ok.
  - vm_compute. reflexivity.
  - right. right. reflexivity.
Defined.
